(** * replay_identification: track-graph distances, multiunit KDE and
      likelihood scaling

    A shallow embedding of
      - [replay_identification/core.py] ([scaled_likelihood],
        [combined_likelihood]),
      - [replay_identification/multiunit_likelihood_track_graph.py]
        ([_setup_distance], [get_distance2], [batch_distance], [batch],
        [convert_linear_position_to_track_distances], [numba_product],
        [get_kde]).

    Numbers.  A float64 is read as the exact number it stands for, without
    rounding: log likelihoods are real numbers [R]; the feature densities
    are reals extended with the infinities and NaN, because a division by
    zero can produce them; linear positions and edge weights only need
    comparison, addition, subtraction and absolute value and are rationals
    [Q], which keeps the distance solver executable. *)

From Stdlib Require Import Reals Lra QArith Qabs Lia Sorted.
From Stdlib Require Lqa.
From stdpp Require Import base option list gmap strings.

(** ** Python exceptions and results *)

(** Node ids of a networkx graph are arbitrary hashables; the track graphs
    handed to this code use integers, and the anchor is the string ['a']. *)
Inductive node : Set :=
| IntNode (n : Z)
| StrNode (s : string).

#[global] Instance node_eq_dec : EqDecision node.
Proof. solve_decision. Defined.

#[global] Instance node_countable : Countable node.
Proof.
  refine (inj_countable'
            (fun v => match v with IntNode n => inl n | StrNode s => inr s end)
            (fun x => match x with inl n => IntNode n | inr s => StrNode s end)
            _).
  by intros [].
Defined.

(** The exceptions that the modelled code and its library calls raise.
    [GraphTopologyError] and [ConfigurationError] are the two names of the
    specification's error taxonomy; no statement of the source constructs
    either of them. *)
Inductive exn : Set :=
| IndexError
| ValueError
| KeyError (k : node)
| ZeroDivisionError
| NodeNotFound
| NetworkXError
| GraphTopologyError
| ConfigurationError.

Inductive result (A : Type) : Type :=
| Ok (a : A)
| Raise (e : exn).
Arguments Ok {A} a.
Arguments Raise {A} e.

Definition rbind {A B} (r : result A) (k : A -> result B) : result B :=
  match r with
  | Ok a => k a
  | Raise e => Raise e
  end.

#[global] Instance result_ret : MRet result := fun A a => Ok a.
#[global] Instance result_bind : MBind result := fun A B k r => rbind r k.

(** Reduce the binds of [result] and nothing else. *)
Ltac rsimpl := cbn [mbind result_bind rbind mret result_ret].
Ltac rsimpl_in H := cbn [mbind result_bind rbind mret result_ret] in H.

(** Case analysis on the computation at the head of a goal
    [(r ≫= k) = _ -> _]; the raising case is closed. *)
Ltac bind_head x H :=
  match goal with
  | |- (?r ≫= _) = _ -> _ => destruct r as [x|] eqn:H; [rsimpl|done]
  end.

(** [[f(x) for x in xs]] for an [f] that may raise: the first exception
    aborts the comprehension. *)
Fixpoint rmap {A B} (f : A -> result B) (xs : list A) : result (list B) :=
  match xs with
  | [] => Ok []
  | x :: xs' =>
      match f x with
      | Ok y => match rmap f xs' with
                | Ok ys => Ok (y :: ys)
                | Raise e => Raise e
                end
      | Raise e => Raise e
      end
  end.

(** [for x in xs: acc = f(acc, x)] for an [f] that may raise. *)
Fixpoint rfoldl {A B} (f : B -> A -> result B) (b : B) (xs : list A)
  : result B :=
  match xs with
  | [] => Ok b
  | x :: xs' =>
      match f b x with
      | Ok b' => rfoldl f b' xs'
      | Raise e => Raise e
      end
  end.

(** ** core.py *)

Module Core.
Local Open Scope R_scope.

(** An n-dimensional float array, seen as its rows; [np.max] and the
    elementwise operations run over every entry of every row. *)
Definition ndarray := list (list R).

Definition ravel (a : ndarray) : list R := concat a.

Fixpoint max_from (m : R) (xs : list R) : R :=
  match xs with
  | [] => m
  | x :: xs' => max_from (Rmax m x) xs'
  end.

(** [np.max(a)]: the maximum over the flattened array; a zero-size array
    raises [ValueError]. *)
Definition np_max (a : ndarray) : result R :=
  match ravel a with
  | [] => Raise ValueError
  | x :: xs => Ok (max_from x xs)
  end.

(** [log_likelihood - m] and [np.exp], elementwise. *)
Definition np_sub_scalar (a : ndarray) (m : R) : ndarray :=
  map (map (fun x => x - m)) a.

Definition np_exp (a : ndarray) : ndarray := map (map exp) a.

(** [scaled_likelihood(log_likelihood_func)]: the decorated function. *)
Definition scaled_likelihood {Args : Type}
    (log_likelihood_func : Args -> result ndarray) : Args -> result ndarray :=
  fun args =>
    match log_likelihood_func args with
    | Raise e => Raise e
    | Ok log_likelihood =>
        match np_max log_likelihood with
        | Raise e => Raise e
        | Ok m => Ok (np_exp (np_sub_scalar log_likelihood m))
        end
    end.

End Core.

(** ** multiunit_likelihood_track_graph.py: the multiunit KDE *)

Module KDE.
Local Open Scope R_scope.

Definition SQRT_2PI : R := sqrt (2 * PI).

(** *** Floats with the non-finite values

    A float64 is a real number, an infinity or NaN; the arithmetic is that
    of IEEE 754 without rounding, overflow or the sign of zero. *)
Inductive float : Type :=
| Fin (x : R)
| PInf
| NInf
| NaN.

(** The infinity with the sign of [x]; NaN for zero (as in [0 * inf] and
    [0 / 0]). *)
Definition sign_inf (x : R) : float :=
  match total_order_T x 0 with
  | inleft (left _) => NInf
  | inleft (right _) => NaN
  | inright _ => PInf
  end.

Definition fneg (a : float) : float :=
  match a with
  | Fin x => Fin (- x)
  | PInf => NInf
  | NInf => PInf
  | NaN => NaN
  end.

Definition fadd (a b : float) : float :=
  match a, b with
  | NaN, _ | _, NaN => NaN
  | Fin x, Fin y => Fin (x + y)
  | PInf, NInf | NInf, PInf => NaN
  | PInf, _ | _, PInf => PInf
  | NInf, _ | _, NInf => NInf
  end.

Definition fsub (a b : float) : float := fadd a (fneg b).

Definition fmul (a b : float) : float :=
  match a, b with
  | NaN, _ | _, NaN => NaN
  | Fin x, Fin y => Fin (x * y)
  | Fin x, PInf | PInf, Fin x => sign_inf x
  | Fin x, NInf | NInf, Fin x => fneg (sign_inf x)
  | PInf, PInf | NInf, NInf => PInf
  | PInf, NInf | NInf, PInf => NInf
  end.

Definition fexp (a : float) : float :=
  match a with
  | Fin x => Fin (exp x)
  | PInf => PInf
  | NInf => Fin 0
  | NaN => NaN
  end.

(** How compiled code treats a zero divisor.  The decorator of
    [numba_product] gives no [error_model], so the function has numba's
    default, ['python'], under which a zero divisor raises
    [ZeroDivisionError]; the body of a [prange] loop of a [parallel=True]
    function is compiled apart, under ['numpy'], where the division
    follows IEEE 754 and raises nothing.  The model takes the error model
    of the loop body as a parameter and the properties cover both. *)
Inductive error_model : Set :=
| python_model
| numpy_model.

(** Scalar [a / b] in compiled code. *)
Definition fdiv (em : error_model) (a b : float) : result float :=
  match b with
  | NaN => Ok NaN
  | PInf | NInf =>
      Ok (match a with
          | Fin _ => Fin 0
          | _ => NaN
          end)
  | Fin y =>
      if Req_dec_T y 0
      then match em with
           | python_model => Raise ZeroDivisionError
           | numpy_model =>
               Ok (match a with
                   | Fin x => sign_inf x
                   | other => other
                   end)
           end
      else Ok (fmul a (Fin (/ y)))
  end.

(** *** Arrays *)

(** A 2-D float array: its second dimension and its rows.  ([shape[1]] is
    kept apart from the rows because an array with no rows still has it.) *)
Record ndarray2 : Type := Array2 { n_cols : nat; rows : list (list float) }.

Definition shape0 (a : ndarray2) : nat := length (rows a).

(** [a[j, k]] and [v[k]] inside the jitted loops: numba does no bounds
    check; every property below is stated for indices within the shape. *)
Definition get1 (v : list float) (k : nat) : float := nth k v (Fin 0).
Definition get2 (a : ndarray2) (j k : nat) : float :=
  nth k (nth j (rows a) []) (Fin 0).

(** *** The product kernel *)

(** The factor multiplied into [product_kernel[j]] for one channel:
    [(np.exp(-0.5 * ((e - sample) / bandwidth)**2) / (bandwidth * SQRT_2PI))
     / bandwidth]. *)
Definition kernel_factor (em : error_model) (e sample bandwidth : float)
  : result float :=
  u ← fdiv em (fsub e sample) bandwidth;
  t ← fdiv em (fexp (fmul (Fin (-0.5)) (fmul u u)))
              (fmul bandwidth (Fin SQRT_2PI));
  fdiv em t bandwidth.

(** [numba_product(eval_point, samples, bandwidths)]; [em] is the error
    model of the loop body. *)
Definition numba_product (em : error_model) (eval_point : list float)
    (samples : ndarray2) (bandwidths : list float) : result (list float) :=
  let n_samples := shape0 samples in
  let n_bandwidths := n_cols samples in
  rmap (fun j =>
          rfoldl (fun product_kernel_j k =>
                    let bandwidth := get1 bandwidths k in
                    let sample := get2 samples j k in
                    f ← kernel_factor em (get1 eval_point k) sample bandwidth;
                    Ok (fmul product_kernel_j f))
                 (Fin 1) (seq 0 n_bandwidths))
       (seq 0 n_samples).

(** [v @ m] for a vector and a matrix; mismatching shapes raise
    [ValueError]. *)
Definition dot (v w : list float) : float :=
  fold_right fadd (Fin 0) (zip_with fmul v w).

Definition column (m : ndarray2) (b : nat) : list float :=
  map (fun r => nth b r (Fin 0)) (rows m).

Definition matmul (v : list float) (m : ndarray2) : result (list float) :=
  if Nat.eqb (length v) (shape0 m)
  then Ok (map (fun b => dot v (column m b)) (seq 0 (n_cols m)))
  else Raise ValueError.

(** [row[mask] = values] for a boolean mask: the values go, in order, to
    the positions where the mask is true. *)
Fixpoint scatter (row : list float) (mask : list bool) (values : list float)
  : list float :=
  match row, mask with
  | x :: row', true :: mask' =>
      match values with
      | v :: vs => v :: scatter row' mask' vs
      | [] => x :: scatter row' mask' []
      end
  | x :: row', false :: mask' => x :: scatter row' mask' values
  | _, _ => row
  end.

Definition count_true (mask : list bool) : nat :=
  length (List.filter (fun b => b) mask).

(** [kde[ind, mask] = values]: the mask must be as long as the row
    ([IndexError]); the values must be as many as the true entries, or a
    single value that is broadcast ([ValueError] otherwise). *)
Definition mask_assign (row : list float) (mask : list bool)
    (values : list float) : result (list float) :=
  if negb (Nat.eqb (length mask) (length row)) then Raise IndexError
  else if Nat.eqb (length values) (count_true mask)
       then Ok (scatter row mask values)
  else match values with
       | [v] => Ok (scatter row mask (repeat v (count_true mask)))
       | _ => Raise ValueError
       end.

(** [get_kde(test_multiunit, train_multiunit, is_track_interior, bandwidths,
    gaussian_track_distances)]. *)
Definition get_kde (em : error_model) (test_multiunit train_multiunit : ndarray2)
    (is_track_interior : list bool) (bandwidths : list float)
    (gaussian_track_distances : ndarray2) : result ndarray2 :=
  let n_bins := n_cols gaussian_track_distances in
  kde ← rmap (fun test_row =>
                pk ← numba_product em test_row train_multiunit bandwidths;
                values ← matmul pk gaussian_track_distances;
                mask_assign (repeat (Fin 0) n_bins) is_track_interior values)
             (rows test_multiunit);
  Ok (Array2 n_bins kde).

(** Products of per-channel constants. *)
Definition prod_list (xs : list R) : R := fold_right Rmult 1 xs.

(** The channel constant the code multiplies in at a matching sample, and
    the constant of a Gaussian kernel of bandwidth [b]. *)
Definition code_peak (b : R) : R := 1 / (b * SQRT_2PI) / b.
Definition gaussian_peak (b : R) : R := 1 / (b * SQRT_2PI).

End KDE.

(** ** multiunit_likelihood_track_graph.py: the distance solver *)

Module TrackGraph.

(** *** Numbers and numpy helpers *)

Definition Qltb (x y : Q) : bool := negb (Qle_bool y x).

(** [a[i]] for an integer (array) index: a negative index counts from the
    end, anything outside [-len, len) raises [IndexError].  This is numpy
    fancy indexing and pandas [iloc] alike. *)
Definition np_index {A} (a : list A) (i : Z) : result A :=
  let n := Z.of_nat (length a) in
  let i' := if (i <? 0)%Z then (i + n)%Z else i in
  if ((0 <=? i') && (i' <? n))%Z
  then match a !! Z.to_nat i' with
       | Some x => Ok x
       | None => Raise IndexError
       end
  else Raise IndexError.

(** The indices that [np_index] accepts for an array of length [n]. *)
Definition valid_index (n : nat) (i : Z) : Prop :=
  (- Z.of_nat n <= i < Z.of_nat n)%Z.

(** [np.searchsorted(a, v)] (side ['left']) on an array sorted in ascending
    order, as the node table is: the first index whose entry is not below
    [v]. *)
Fixpoint searchsorted (a : list Q) (v : Q) : nat :=
  match a with
  | [] => 0
  | x :: a' => if Qltb x v then S (searchsorted a' v) else 0
  end.

(** [np.argmin] of one row: the first index of the least entry; an empty
    row raises [ValueError]. *)
Fixpoint argmin_from (best_i : nat) (best : Q) (i : nat) (xs : list Q)
  : nat :=
  match xs with
  | [] => best_i
  | x :: xs' =>
      if Qltb x best then argmin_from i x (S i) xs'
      else argmin_from best_i best (S i) xs'
  end.

Definition np_argmin (xs : list Q) : result nat :=
  match xs with
  | [] => Raise ValueError
  | x :: xs' => Ok (argmin_from 0 x 1 xs')
  end.

(** [a[mask]]: the entries where the mask is true, in order. *)
Fixpoint select {A} (a : list A) (mask : list bool) : list A :=
  match a, mask with
  | x :: a', true :: mask' => x :: select a' mask'
  | _ :: a', false :: mask' => select a' mask'
  | _, _ => []
  end.

(** [a[mask] = values]: the values replace, in order, the entries where
    the mask is true. *)
Fixpoint put_mask {A} (a : list A) (mask : list bool) (values : list A)
  : list A :=
  match a, mask with
  | x :: a', true :: mask' =>
      match values with
      | v :: vs => v :: put_mask a' mask' vs
      | [] => x :: put_mask a' mask' []
      end
  | x :: a', false :: mask' => x :: put_mask a' mask' values
  | _, _ => a
  end.

(** *** The node table *)

(** One row of [nodes_df]. *)
Record node_row : Type := NodeRow {
  node_ids : node;
  edge_id : Z;
  is_bin_edge : bool;
  linear_position : Q
}.

(** [df.sort_values(by=['linear_position'])], as an insertion sort that
    keeps rows with equal positions in table order.  (pandas' default sort
    promises no order among equal keys.) *)
Fixpoint insert_by_position (r : node_row) (rs : list node_row)
  : list node_row :=
  match rs with
  | [] => [r]
  | r' :: rs' =>
      if Qle_bool (linear_position r) (linear_position r') then r :: rs
      else r' :: insert_by_position r rs'
  end.

Definition sort_values_by_position (rs : list node_row) : list node_row :=
  foldr insert_by_position [] rs.

(** The two index arrays of [_setup_distance] after the masked assignment
    of line 58: [(left_node_ind, right_node_ind)]. *)
Definition bracket_indices (linear_position_ : list Q)
    (nodes_df : list node_row) : result (list Z * list Z) :=
  let positions := map linear_position nodes_df in
  let bin_ind :=
    map (fun p => Z.of_nat (searchsorted positions p)) linear_position_ in
  left_rows ← rmap (fun i => np_index nodes_df (i - 1)%Z) bin_ind;
  right_rows ← rmap (fun i => np_index nodes_df i) bin_ind;
  let is_same_edge :=
    zip_with (fun l r => Z.eqb (edge_id l) (edge_id r)) left_rows right_rows in
  let left_node_ind := map (fun i => (i - 1)%Z) bin_ind in
  let right_node_ind := bin_ind in
  let not_same_edge := map negb is_same_edge in
  nearest ←
    (match positions with
     | [] => Raise ValueError
     | _ :: _ =>
         rmap (fun p =>
                 j ← np_argmin (map (fun q => Qabs (p - q)) positions);
                 Ok (Z.of_nat j))
              (select linear_position_ not_same_edge)
     end);
  let right_node_ind := put_mask right_node_ind not_same_edge nearest in
  let left_node_ind := put_mask left_node_ind not_same_edge nearest in
  Ok (left_node_ind, right_node_ind).

(** [np.abs(values[ind] - linear_position)], elementwise. *)
Definition residuals (positions : list Q) (ind : list Z)
    (linear_position_ : list Q) : result (list Q) :=
  values ← rmap (np_index positions) ind;
  Ok (zip_with (fun x p => Qabs (x - p)) values linear_position_).

(** [_setup_distance(linear_position, nodes_df)]. *)
Definition _setup_distance (linear_position_ : list Q)
    (nodes_df : list node_row)
  : result (list node * list node * list Q * list Q * list node) :=
  '(left_node_ind, right_node_ind) ←
    bracket_indices linear_position_ nodes_df;
  let place_bin_center_to_node_id :=
    map node_ids
        (sort_values_by_position
           (List.filter (fun r => negb (is_bin_edge r)) nodes_df)) in
  left_node_id ← rmap (np_index (map node_ids nodes_df)) left_node_ind;
  right_node_id ← rmap (np_index (map node_ids nodes_df)) right_node_ind;
  left_dist ←
    residuals (map linear_position nodes_df) left_node_ind linear_position_;
  right_dist ←
    residuals (map linear_position nodes_df) left_node_ind linear_position_;
  Ok (left_node_id, right_node_id, left_dist, right_dist,
      place_bin_center_to_node_id).

(** *** networkx graphs *)

(** [Graph._adj]: for each node the dict of its neighbours, each with the
    ['distance'] attribute of the edge if it has one.  (The other edge and
    node attributes are never read by this module.)  networkx keeps the
    adjacency symmetric. *)
Abbreviation Graph := (gmap node (gmap node (option Q))).

(** The transient anchor node ['a']. *)
Definition anchor : node := StrNode "a".

Definition neighbors (G : Graph) (v : node) : gmap node (option Q) :=
  default ∅ (G !! v).

Definition add_node (G : Graph) (n : node) : Graph :=
  match G !! n with
  | Some _ => G
  | None => <[n := ∅]> G
  end.

(** One step of [Graph.add_edges_from(..., distance=d)]. *)
Definition add_edge (G : Graph) (u v : node) (distance : Q) : Graph :=
  let G1 := add_node (add_node G u) v in
  let G2 := <[u := <[v := Some distance]> (neighbors G1 u)]> G1 in
  <[v := <[u := Some distance]> (neighbors G2 v)]> G2.

Fixpoint add_edges_pairwise (G : Graph) (u : node) (rest : list node)
    (distance : Q) : Graph :=
  match rest with
  | [] => G
  | v :: rest' => add_edges_pairwise (add_edge G u v distance) v rest' distance
  end.

(** [nx.add_path(G, nodes_for_path, distance=d)]. *)
Definition add_path (G : Graph) (nodes_for_path : list node) (distance : Q)
  : Graph :=
  match nodes_for_path with
  | [] => G
  | first_node :: rest =>
      add_edges_pairwise (add_node G first_node) first_node rest distance
  end.

(** [G.remove_node(n)]: [NetworkXError] if [n] is not a node; otherwise
    [n] is deleted from the adjacency of each of its neighbours, then its
    own adjacency is deleted. *)
Definition remove_node (G : Graph) (n : node) : result Graph :=
  match G !! n with
  | None => Raise NetworkXError
  | Some nbrs =>
      Ok (delete n (foldr (fun u G' => alter (delete n) u G') G
                          (map fst (map_to_list nbrs))))
  end.

(** *** Dijkstra, as in networkx's [_dijkstra_multisource] *)

(** [weight(v, u, e)] for [weight="distance"]: [e.get("distance", 1)]. *)
Definition edge_weight (e : option Q) : Q := default 1%Q e.

(** The fringe is a heap of tuples [(distance, count, node)].  The counts
    are all different, so the tuple order is total and [heappop] returns
    the least tuple: the heap is modelled as the list of its tuples in
    ascending order. *)
Definition entry_lt (x y : Q * nat * node) : bool :=
  let '(d1, c1, _) := x in
  let '(d2, c2, _) := y in
  Qltb d1 d2 || (Qeq_bool d1 d2 && Nat.ltb c1 c2).

Fixpoint heappush (fringe : list (Q * nat * node)) (x : Q * nat * node)
  : list (Q * nat * node) :=
  match fringe with
  | [] => [x]
  | y :: rest => if entry_lt x y then x :: fringe else y :: heappush rest x
  end.

(** The body of [for u, e in G_succ[v].items()], for the node [v] just
    finalised at distance [d]; the state is [(seen, fringe, c)].  (A dict
    is scanned in insertion order, the map of the model in the order of
    its keys; the order decides the counts only, that is, which of two
    tuples of equal distance is popped first.) *)
Definition relax (dist : gmap node Q) (d : Q)
    (st : gmap node Q * list (Q * nat * node) * nat)
    (ue : node * option Q)
  : result (gmap node Q * list (Q * nat * node) * nat) :=
  let '(seen, fringe, c) := st in
  let '(u, e) := ue in
  let vu_dist := (d + edge_weight e)%Q in
  match dist !! u with
  | Some u_dist =>
      if Qltb vu_dist u_dist then Raise ValueError else Ok st
  | None =>
      let push := Ok (<[u := vu_dist]> seen, heappush fringe (vu_dist, c, u),
                      S c) in
      match seen !! u with
      | None => push
      | Some s => if Qltb vu_dist s then push else Ok st
      end
  end.

(** The [while fringe:] loop; every iteration pops one tuple. *)
Fixpoint dijkstra_loop (fuel : nat) (G_succ : node -> gmap node (option Q))
    (dist seen : gmap node Q) (fringe : list (Q * nat * node)) (c : nat)
  : result (gmap node Q) :=
  match fuel with
  | O => Ok dist
  | S fuel' =>
      match fringe with
      | [] => Ok dist
      | (d, _, v) :: fringe' =>
          match dist !! v with
          | Some _ => dijkstra_loop fuel' G_succ dist seen fringe' c
          | None =>
              let dist' := <[v := d]> dist in
              match rfoldl (relax dist' d) (seen, fringe', c)
                           (map_to_list (G_succ v)) with
              | Raise e => Raise e
              | Ok (seen', fringe'', c') =>
                  dijkstra_loop fuel' G_succ dist' seen' fringe'' c'
              end
          end
      end
  end.

(** Every node that can enter the fringe: the source, the nodes, and the
    neighbours named in an adjacency. *)
Definition universe (G : Graph) (source : node) : gset node :=
  {[source]} ∪ dom G ∪ union_list (map (fun p => dom p.2) (map_to_list G)).

Definition max_degree (G : Graph) : nat :=
  max_list (map (fun p => size p.2) (map_to_list G)).

(** A number of iterations that the loop never exceeds (see
    [dijkstra_loop_enough_fuel]): each node is finalised once, and
    finalising it pushes at most its degree many tuples. *)
Definition dijkstra_fuel (G : Graph) (source : node) : nat :=
  S (S (max_degree G) * size (universe G source)).

(** [nx.single_source_dijkstra_path_length(G, source, weight="distance")]:
    the dict of the distances of the nodes reached from [source]. *)
Definition single_source_dijkstra_path_length (G : Graph) (source : node)
  : result (gmap node Q) :=
  match G !! source with
  | None => Raise NodeNotFound
  | Some _ =>
      dijkstra_loop (dijkstra_fuel G source) (neighbors G)
                    ∅ {[source := 0%Q]} [(0%Q, O, source)] 1
  end.

(** *** The object store *)

(** Graph objects live in a store and are passed by reference; [copy]
    allocates a new object, the other operations update one in place. *)
Abbreviation heap := (list Graph).

Definition M (A : Type) : Type := heap -> result A * heap.

#[global] Instance M_ret : MRet M := fun A a h => (Ok a, h).
#[global] Instance M_bind : MBind M := fun A B k m h =>
  match m h with
  | (Ok a, h') => k a h'
  | (Raise e, h') => (Raise e, h')
  end.

Definition lift {A} (r : result A) : M A := fun h => (r, h).

Fixpoint mmap {A B} (f : A -> M B) (xs : list A) : M (list B) :=
  match xs with
  | [] => mret []
  | x :: xs' => y ← f x; ys ← mmap f xs'; mret (y :: ys)
  end.

(** The object a reference points to.  (A Python reference never
    dangles; at a location that was never allocated the model reads the
    empty graph.) *)
Definition graph_at (h : heap) (g : nat) : Graph := default ∅ (h !! g).

Definition nx_copy (g : nat) : M nat :=
  fun h => (Ok (length h), h ++ [graph_at h g]).

Definition nx_add_path (g : nat) (nodes_for_path : list node) (distance : Q)
  : M unit :=
  fun h => (Ok tt, <[g := add_path (graph_at h g) nodes_for_path distance]> h).

Definition nx_single_source_dijkstra_path_length (g : nat) (source : node)
  : M (gmap node Q) :=
  fun h => (single_source_dijkstra_path_length (graph_at h g) source, h).

Definition nx_remove_node (g : nat) (n : node) : M unit :=
  fun h =>
    match remove_node (graph_at h g) n with
    | Ok G' => (Ok tt, <[g := G']> h)
    | Raise e => (Raise e, h)
    end.

(** *** The distance solver *)

(** [dist[id]]. *)
Definition dict_get (dist : gmap node Q) (id : node) : result Q :=
  match dist !! id with
  | Some d => Ok d
  | None => Raise (KeyError id)
  end.

(** [get_distance2(track_graph, left_node_id, right_node_id, left_dist,
    right_dist, place_bin_center_to_node_id)]. *)
Definition get_distance2 (track_graph : nat) (left_node_id right_node_id : node)
    (left_dist right_dist : Q) (place_bin_center_to_node_id : list node)
  : M (list Q) :=
  nx_add_path track_graph [left_node_id; anchor] left_dist;;
  nx_add_path track_graph [anchor; right_node_id] right_dist;;
  dist ← nx_single_source_dijkstra_path_length track_graph anchor;
  nx_remove_node track_graph anchor;;
  lift (rmap (dict_get dist) place_bin_center_to_node_id).

(** [np.stack(rows, axis=0)] and [np.concatenate(blocks, axis=0)]: both
    raise [ValueError] on an empty sequence. *)
Definition np_stack (rows : list (list Q)) : result (list (list Q)) :=
  match rows with
  | [] => Raise ValueError
  | _ :: _ => Ok rows
  end.

Definition np_concatenate (blocks : list (list (list Q)))
  : result (list (list Q)) :=
  match blocks with
  | [] => Raise ValueError
  | _ :: _ => Ok (concat blocks)
  end.

(** [batch_distance(track_graph, left_node_id, right_node_id, left_dist,
    right_dist, place_bin_center_to_node_id)]; the arguments are arrays. *)
Definition batch_distance (track_graph : nat)
    (left_node_id right_node_id : list node) (left_dist right_dist : list Q)
    (place_bin_center_to_node_id : list node) : M (list (list Q)) :=
  copy_graph ← nx_copy track_graph;
  rows ← mmap (fun '(l_id, r_id, l_d, r_d) =>
                 get_distance2 copy_graph l_id r_id l_d r_d
                               place_bin_center_to_node_id)
              (zip (zip (zip left_node_id right_node_id) left_dist)
                   right_dist);
  lift (np_stack rows).

(** [batch(n_samples, batch_size)]: the ranges [range(ind, min(ind +
    batch_size, n_samples))] for [ind in range(0, n_samples, batch_size)],
    each as [(start, stop)].  A zero step makes [range] raise. *)
Fixpoint batch_from (fuel ind n_samples batch_size : nat)
  : list (nat * nat) :=
  match fuel with
  | O => []
  | S fuel' =>
      if Nat.ltb ind n_samples
      then (ind, Nat.min (ind + batch_size) n_samples)
           :: batch_from fuel' (ind + batch_size) n_samples batch_size
      else []
  end.

Definition batch (n_samples batch_size : nat) : result (list (nat * nat)) :=
  if Nat.eqb batch_size 0 then Raise ValueError
  else Ok (batch_from n_samples 0 n_samples batch_size).

(** [a[time_ind]] for a range [time_ind] within the array. *)
Definition index_range {A} (a : list A) (time_ind : nat * nat) : list A :=
  take (time_ind.2 - time_ind.1) (drop time_ind.1 a).

(** [dask.compute] over the list of tasks: the delayed calls are run,
    here one after the other in submission order, and their results are
    returned in that order. *)
Definition dask_compute {A} (tasks : list (M A)) : M (list A) :=
  mmap (fun task => task) tasks.

(** [convert_linear_position_to_track_distances], with the batch size that
    the source fixes to 10_000 as a parameter. *)
Definition convert_with_batch_size (batch_size : nat)
    (linear_position_ : list Q) (track_graph : nat)
    (nodes_df : list node_row) : M (list (list Q)) :=
  '(left_node_id, right_node_id, left_dist, right_dist,
    place_bin_center_to_node_id) ←
    lift (_setup_distance linear_position_ nodes_df);
  let n_time := length linear_position_ in
  ranges ← lift (batch n_time batch_size);
  let track_distances :=
    map (fun time_ind =>
           batch_distance track_graph
             (index_range left_node_id time_ind)
             (index_range right_node_id time_ind)
             (index_range left_dist time_ind)
             (index_range right_dist time_ind)
             place_bin_center_to_node_id)
        ranges in
  blocks ← dask_compute track_distances;
  lift (np_concatenate blocks).

Definition default_batch_size : nat := Z.to_nat 10000.

Definition convert_linear_position_to_track_distances
    (linear_position_ : list Q) (track_graph : nat)
    (nodes_df : list node_row) : M (list (list Q)) :=
  convert_with_batch_size default_batch_size
                          linear_position_ track_graph nodes_df.

End TrackGraph.

(** ** Concrete tracks *)

Module Scenario.
Import TrackGraph.
Local Open Scope Q_scope.

(** The end-to-end track of the specification: a path of three nodes at
    linear positions 0, 5 and 10 on one edge segment; the nodes at 0 and
    10 are bin centers, the node at 5 is a bin edge. *)
Definition n0 : node := IntNode 0.
Definition n1 : node := IntNode 1.
Definition n2 : node := IntNode 2.

Definition path3 : Graph := add_edge (add_edge ∅ n0 n1 5) n1 n2 5.

Definition path3_df : list node_row :=
  [NodeRow n0 0 false 0; NodeRow n1 0 true 5; NodeRow n2 0 false 10].

(** A graph that already has a node called ['a']: the edge 0 - 1 of length
    10, and a detour 'a' - 2 - 1 of two edges of length 1. *)
Definition with_a : Graph :=
  add_edge (add_edge (add_edge ∅ n0 n1 10) anchor n2 1) n2 n1 1.

Definition with_a_df : list node_row :=
  [NodeRow n0 0 false 0; NodeRow n1 0 false 10].

(** A disconnected track: the edge 0 - 1 of length 5, and the bin center
    2 on its own, with no edge. *)
Definition split3 : Graph := add_node (add_edge ∅ n0 n1 5) n2.

Definition split3_df : list node_row :=
  [NodeRow n0 0 false 0; NodeRow n1 0 false 5; NodeRow n2 1 false 10].

End Scenario.

(** ** Notions used to state the properties of the distance solver *)

Module SolverSpec.
Import TrackGraph.

(** [frame n Q m]: run in a store with at least [n] objects, [m] leaves
    the first [n] objects as they are, and a value it returns satisfies
    [Q]. *)
Definition frame {A} (n : nat) (Q : A -> Prop) (m : M A) : Prop :=
  forall h : heap,
    n <= length h ->
    take n (m h).2 = take n h /\ n <= length (m h).2 /\
    forall a, (m h).1 = Ok a -> Q a.

(** The graph [get_distance2] runs Dijkstra on: [G] with the anchor tied
    to the two brackets. *)
Definition with_anchor (G : Graph) (l r : node) (ld rd : Q) : Graph :=
  add_path (add_path G [l; anchor] ld) [anchor; r] rd.

(** What one call of [get_distance2] returns when the graph object holds
    [G]. *)
Definition solve_row (G : Graph) (centers : list node)
    (arg : node * node * Q * Q) : result (list Q) :=
  let '(l, r, ld, rd) := arg in
  dist ← single_source_dijkstra_path_length (with_anchor G l r ld rd) anchor;
  _ ← remove_node (with_anchor G l r ld rd) anchor;
  rmap (dict_get dist) centers.

(** The whole call, as a function of the graph value: every row is solved
    on [G] itself. *)
Definition solve_all (G : Graph) (lp : list Q) (nodes_df : list node_row)
  : result (list (list Q)) :=
  '(left_node_id, right_node_id, left_dist, right_dist, centers) ←
    _setup_distance lp nodes_df;
  rows ← rmap (solve_row G centers)
              (zip (zip (zip left_node_id right_node_id) left_dist)
                   right_dist);
  np_stack rows.

(** Two graphs with the same adjacency at every node; they may differ in
    nodes without any edge. *)
Definition same_neighbors (G G' : Graph) : Prop :=
  forall v, neighbors G v = neighbors G' v.

(** ['a'] is not a node of [G] and no adjacency of [G] names it.  (For a
    networkx graph, whose adjacency is symmetric, the second follows from
    the first.) *)
Definition anchor_free (G : Graph) : Prop :=
  G !! anchor = None /\
  map_Forall (fun _ (nbrs : gmap node (option Q)) => nbrs !! anchor = None) G.

(** Every edge weight that Dijkstra reads is non-negative. *)
Definition nonneg_nbrs (nbrs : gmap node (option Q)) : Prop :=
  map_Forall (fun _ e => Qle_bool 0 (edge_weight e) = true) nbrs.

Definition nonneg_weights (G : Graph) : Prop :=
  map_Forall (fun _ nbrs => nonneg_nbrs nbrs) G.

(** The order the fringe is kept in, as far as distances go. *)
Definition fringe_le (x y : Q * nat * node) : Prop := (x.1.1 <= y.1.1)%Q.

(** [t] can be reached from [s] along edges of [G]. *)
Definition edge (G : Graph) (u v : node) : Prop :=
  is_Some (neighbors G u !! v).

Definition reachable (G : Graph) (s t : node) : Prop := rtc (edge G) s t.

(** The quantity that bounds the remaining iterations of the Dijkstra
    loop: the tuples on the fringe, plus a full adjacency scan for each
    node not finalised yet. *)
Definition potential (G : Graph) (source : node) (dist : gmap node Q)
    (fringe : list (Q * nat * node)) : nat :=
  length fringe + S (max_degree G) * size (universe G source ∖ dom dist).

End SolverSpec.

(** ** Walks and shortest distances *)

Module Paths.
Import TrackGraph SolverSpec.

(** A walk from [s] to [t] along edges of [G], with its length: the sum,
    in walk order, of the weights that Dijkstra reads. *)
Inductive walk (G : Graph) (s : node) : node -> Q -> Prop :=
| walk_nil : walk G s s 0%Q
| walk_step v u e d :
    walk G s v d ->
    neighbors G v !! u = Some e ->
    walk G s u (d + edge_weight e)%Q.

(** [d] is the length of a walk from [s] to [t], and no walk from [s] to
    [t] is shorter. *)
Definition shortest (G : Graph) (s t : node) (d : Q) : Prop :=
  walk G s t d /\ forall d', walk G s t d' -> (d <= d')%Q.

(** The node [u] is accounted for at the bound [b]: it is finalised at no
    more than [b], or a tuple for it with no more than [b] is on the
    fringe. *)
Definition covered (dist : gmap node Q) (fringe : list (Q * nat * node))
    (u : node) (b : Q) : Prop :=
  (exists d, dist !! u = Some d /\ (d <= b)%Q) \/
  (exists x, x ∈ fringe /\ x.2 = u /\ (x.1.1 <= b)%Q).

(** What the Dijkstra loop keeps true of [(dist, seen, fringe)]. *)
Record dijkstra_inv (G : Graph) (source : node) (dist seen : gmap node Q)
    (fringe : list (Q * nat * node)) : Prop := DijkstraInv {
  inv_sorted : StronglySorted fringe_le fringe;
  inv_below : forall u du x,
      dist !! u = Some du -> x ∈ fringe -> (du <= x.1.1)%Q;
  inv_dist_walk : forall v d, dist !! v = Some d -> walk G source v d;
  inv_fringe_walk : forall x, x ∈ fringe -> walk G source x.2 x.1.1;
  inv_universe : forall x, x ∈ fringe -> x.2 ∈ universe G source;
  inv_source : covered dist fringe source 0%Q;
  inv_edges : forall v dv u e,
      dist !! v = Some dv -> neighbors G v !! u = Some e ->
      covered dist fringe u (dv + edge_weight e)%Q;
  inv_seen : forall u s, seen !! u = Some s -> covered dist fringe u s
}.

(** A dict of distances that holds the source at no more than 0 and is
    closed under every edge. *)
Definition closed_dist (G : Graph) (source : node) (dist : gmap node Q)
  : Prop :=
  (exists d0, dist !! source = Some d0 /\ (d0 <= 0)%Q) /\
  forall v dv u e,
    dist !! v = Some dv -> neighbors G v !! u = Some e ->
    exists du, dist !! u = Some du /\ (du <= dv + edge_weight e)%Q.

(** The graph one row is solved on: the bracket and the residuals of the
    row, from the four arrays of [_setup_distance] zipped as
    [batch_distance] zips them. *)
Definition row_graph (G : Graph) (arg : node * node * Q * Q) : Graph :=
  with_anchor G arg.1.1.1 arg.1.1.2 arg.1.2 arg.2.

End Paths.


(** ** Further concrete tracks *)

Module MoreScenarios.
Import TrackGraph Scenario.
Local Open Scope Q_scope.

(** The edge 0 - 1 with the negative weight -5. *)
Definition negative_edge : Graph := add_edge ∅ n0 n1 (-5).

End MoreScenarios.

(** ** The two branches of the bracket search *)

Module BracketSpec.
Import TrackGraph.

(** [searchsorted] of one query position, as the index array holds it. *)
Definition bin_index (nodes_df : list node_row) (p : Q) : Z :=
  Z.of_nat (searchsorted (map linear_position nodes_df) p).

(** The index that line 58 assigns on a change of edge: the [argmin] of
    the distances from the query position to all node positions. *)
Definition nearest_index (nodes_df : list node_row) (p : Q) : result Z :=
  j ← np_argmin (map (fun q => Qabs (p - q)) (map linear_position nodes_df));
  Ok (Z.of_nat j).

End BracketSpec.

(** ** Arrays of finite numbers *)

Module KDESpec.
Import KDE.
Local Open Scope R_scope.

(** A 2-D array of finite numbers. *)
Definition finite_array (n : nat) (a : list (list R)) : ndarray2 :=
  Array2 n (map (map Fin) a).

End KDESpec.

(** ** core.py: [combined_likelihood] *)

Module Combined.
Local Open Scope R_scope.






End Combined.
(** * Properties

    ** Comprehensions and loops that may raise *)

Lemma rmap_raises {A B} (f : A -> result B) (xs : list A) (e : exn) :
  rmap f xs = Raise e -> exists x, In x xs /\ f x = Raise e.
Proof.
  induction xs as [|x xs IH]; simpl; [done|].
  destruct (f x) as [y|e'] eqn:Hfx.
  - destruct (rmap f xs) as [ys|e'']; [done|].
    intros [= ->]. destruct IH as (x' & Hin & Hx'); [done|].
    exists x'. split; [by right|done].
  - intros [= ->]. exists x. split; [by left|done].
Qed.

Lemma rmap_head_raises {A B} (f : A -> result B) x xs e :
  f x = Raise e -> rmap f (x :: xs) = Raise e.
Proof. intros H. simpl. by rewrite H. Qed.

Lemma rmap_ext {A B} (f g : A -> result B) (xs : list A) :
  (forall x, In x xs -> f x = g x) -> rmap f xs = rmap g xs.
Proof.
  induction xs as [|x xs IH]; intros H; simpl; [done|].
  rewrite (H x) by (by left). rewrite IH; [done|].
  intros y Hy. apply H. by right.
Qed.

Lemma rmap_length {A B} (f : A -> result B) (xs : list A) (ys : list B) :
  rmap f xs = Ok ys -> length ys = length xs.
Proof.
  revert ys; induction xs as [|x xs IH]; intros ys; simpl.
  - by intros [= <-].
  - destruct (f x); [|done]. destruct (rmap f xs) as [ys'|]; [|done].
    intros [= <-]. simpl. by rewrite (IH ys').
Qed.

Lemma rmap_app {A B} (f : A -> result B) (xs ys : list A) :
  rmap f (xs ++ ys)
  = match rmap f xs with
    | Ok xs' => match rmap f ys with
                | Ok ys' => Ok (xs' ++ ys')
                | Raise e => Raise e
                end
    | Raise e => Raise e
    end.
Proof.
  induction xs as [|x xs IH]; simpl.
  - by destruct (rmap f ys).
  - destruct (f x); [|done]. rewrite IH.
    destruct (rmap f xs); [|done]. by destruct (rmap f ys).
Qed.

Lemma rmap_Ok_all {A B} (f : A -> result B) (xs : list A) (ys : list B) x :
  rmap f xs = Ok ys -> In x xs -> exists y, f x = Ok y.
Proof.
  revert ys; induction xs as [|x0 xs IH]; intros ys; simpl; [done|].
  destruct (f x0) as [y0|] eqn:Hx0; [|done].
  destruct (rmap f xs) as [ys0|]; [|done].
  intros _ [<-|Hin]; [by exists y0|]. by apply (IH ys0).
Qed.

(** If one element makes [f] raise, the comprehension raises, with the
    exception of some element. *)
Lemma rmap_raises_somewhere {A B} (f : A -> result B) (xs : list A) x e :
  In x xs -> f x = Raise e ->
  exists x' e', In x' xs /\ f x' = Raise e' /\ rmap f xs = Raise e'.
Proof.
  intros Hin Hx. destruct (rmap f xs) as [ys|e'] eqn:Hmap.
  - destruct (rmap_Ok_all f xs ys x Hmap Hin) as [y Hy]. congruence.
  - destruct (rmap_raises f xs e' Hmap) as (x' & Hin' & Hx').
    by exists x', e'.
Qed.

Lemma rfoldl_ext {A B} (f g : B -> A -> result B) (b : B) (xs : list A) :
  (forall b' x, f b' x = g b' x) -> rfoldl f b xs = rfoldl g b xs.
Proof.
  intros H. revert b; induction xs as [|x xs IH]; intros b; simpl; [done|].
  rewrite H. destruct (g b x); [apply IH|done].
Qed.

Lemma rmap_all_Ok {A B} (f : A -> result B) (xs : list A) (P : B -> Prop) :
  (forall x, In x xs -> exists y, f x = Ok y /\ P y) ->
  exists ys, rmap f xs = Ok ys /\ Forall P ys.
Proof.
  induction xs as [|x xs IH]; intros H; simpl.
  - by exists [].
  - destruct (H x) as (y & -> & Hy); [by left|].
    destruct IH as (ys & -> & Hys); [intros x' Hx'; apply H; by right|].
    exists (y :: ys). split; [done|]. by constructor.
Qed.

(** ** core.py *)

Module CoreProps.
Import Core.
Local Open Scope R_scope.

(** *** Properties of the maximum *)

Lemma max_from_ge_init m xs : m <= max_from m xs.
Proof.
  revert m; induction xs as [|x xs IH]; intros m; simpl; [lra|].
  etransitivity; [apply (Rmax_l m x)|apply IH].
Qed.

Lemma max_from_upper m xs y : y = m \/ In y xs -> y <= max_from m xs.
Proof.
  revert m; induction xs as [|x xs IH]; intros m [Hy|Hy]; simpl in *.
  - lra.
  - tauto.
  - subst y. etransitivity; [apply (Rmax_l m x)|apply max_from_ge_init].
  - destruct Hy as [<-|Hy].
    + etransitivity; [apply (Rmax_r m x)|apply max_from_ge_init].
    + apply IH; by right.
Qed.

Lemma max_from_attained m xs : max_from m xs = m \/ In (max_from m xs) xs.
Proof.
  revert m; induction xs as [|x xs IH]; intros m; simpl; [by left|].
  destruct (IH (Rmax m x)) as [H|H]; [|by right; right].
  rewrite H. unfold Rmax. destruct (Rle_dec m x); [right; by left|by left].
Qed.

(** If every entry is at most [b] and [b] occurs, the maximum is [b]. *)
Lemma max_from_eq_bound m xs b :
  (forall y, y = m \/ In y xs -> y <= b) ->
  (b = m \/ In b xs) ->
  max_from m xs = b.
Proof.
  intros Hle Hin. apply Rle_antisym.
  - apply Hle. destruct (max_from_attained m xs); [by left|by right].
  - by apply max_from_upper.
Qed.

Lemma ravel_exp_sub a m :
  ravel (np_exp (np_sub_scalar a m)) = map (fun x => exp (x - m)) (ravel a).
Proof.
  unfold ravel, np_exp, np_sub_scalar.
  induction a as [|r a IH]; simpl; [done|].
  rewrite map_app, IH. f_equal. by rewrite map_map.
Qed.

(** C8. For every wrapped function that returns a non-empty array of (real,
    hence finite) log-likelihood values, the array returned by the
    [scaled_likelihood]-decorated function is [exp] of the log likelihood
    minus one number [m], the same for every row; [m] is an entry of the
    log likelihood and no entry of any row exceeds it (the maximum is
    global, not per row); every entry of the result is at most 1, and 1
    is an entry of the result: the maximum of the result is exactly 1. *)
Theorem scaled_likelihood_max_is_one {Args : Type}
    (f : Args -> result ndarray) (args : Args) (ll : ndarray) :
  f args = Ok ll ->
  ravel ll <> [] ->
  exists m out,
    np_max ll = Ok m /\
    scaled_likelihood f args = Ok out /\
    out = map (map (fun x => exp (x - m))) ll /\
    np_max out = Ok 1 /\
    (forall row y, In row ll -> In y row -> y <= m) /\
    (exists row, In row ll /\ In m row) /\
    (forall row x, In row out -> In x row -> x <= 1) /\
    (exists row, In row out /\ In 1 row).
Proof.
  intros Hf Hne. unfold scaled_likelihood. rewrite Hf.
  unfold np_max at 1 2.
  destruct (ravel ll) as [|x xs] eqn:Hr; [done|].
  set (m := max_from x xs).
  assert (Hupper : forall row y, In row ll -> In y row -> y <= m).
  { intros row y Hrow Hy. apply max_from_upper.
    assert (Hin : In y (ravel ll)).
    { unfold ravel. apply in_concat. by exists row. }
    rewrite Hr in Hin. destruct Hin as [->|Hin]; [by left|by right]. }
  assert (Hattained : exists row, In row ll /\ In m row).
  { assert (Hin : In m (ravel ll)).
    { rewrite Hr. destruct (max_from_attained x xs) as [H|H]; fold m in H.
      - left. done.
      - by right. }
    unfold ravel in Hin. apply in_concat in Hin as (row & Hrow & Hm).
    by exists row. }
  assert (Hout : np_exp (np_sub_scalar ll m)
                 = map (map (fun x => exp (x - m))) ll).
  { unfold np_exp, np_sub_scalar. rewrite map_map.
    apply map_ext. intros r. by rewrite map_map. }
  exists m, (np_exp (np_sub_scalar ll m)).
  split; [done|]. split; [done|]. split; [done|]. split.
  { unfold np_max. rewrite ravel_exp_sub, Hr. simpl. f_equal. fold m.
    apply max_from_eq_bound.
    - intros y Hy.
      assert (exists z, (z = x \/ In z xs) /\ y = exp (z - m))
        as (z & Hz & ->).
      { destruct Hy as [->|Hy]; [by exists x; split; [left|]|].
        apply in_map_iff in Hy as (z & <- & Hz).
        exists z. split; [by right|done]. }
      rewrite <- exp_0.
      destruct (Req_dec z m) as [->|Hzm]; [by rewrite Rminus_diag; lra|].
      left. apply exp_increasing.
      pose proof (max_from_upper x xs z Hz) as Hle. fold m in Hle. lra.
    - destruct (max_from_attained x xs) as [H|H]; fold m in H.
      + left. rewrite <- H, Rminus_diag. by rewrite exp_0.
      + right. apply in_map_iff. exists m. split; [|done].
        by rewrite Rminus_diag, exp_0. }
  split; [done|]. split; [done|]. rewrite Hout. split.
  - intros row' x' Hrow' Hx'.
    apply in_map_iff in Hrow' as (row & <- & Hrow).
    apply in_map_iff in Hx' as (y & <- & Hy).
    pose proof (Hupper row y Hrow Hy) as Hle.
    rewrite <- exp_0.
    destruct (Req_dec (y - m) 0) as [->|Hnz]; [lra|].
    left. apply exp_increasing. lra.
  - destruct Hattained as (row & Hrow & Hm).
    exists (map (fun x => exp (x - m)) row). split.
    + apply in_map_iff. by exists row.
    + apply in_map_iff. exists m. split; [|done].
      by rewrite Rminus_diag, exp_0.
Qed.

(** The log likelihood [[[0, -1], [2, 1]]]: the number subtracted is 2, an
    entry of the second row; the scaled result has maximum 1, attained in
    the second row only. *)
Lemma scaled_likelihood_max_is_one_witness :
  exists m out,
    np_max [[0; -1]; [2; 1]] = Ok m /\
    scaled_likelihood (fun _ : unit => Ok [[0; -1]; [2; 1]]) tt = Ok out /\
    out = map (map (fun x => exp (x - m))) [[0; -1]; [2; 1]] /\
    np_max out = Ok 1 /\
    (forall row y, In row [[0; -1]; [2; 1]] -> In y row -> y <= m) /\
    (exists row, In row [[0; -1]; [2; 1]] /\ In m row) /\
    (forall row x, In row out -> In x row -> x <= 1) /\
    (exists row, In row out /\ In 1 row).
Proof.
  apply (scaled_likelihood_max_is_one
           (fun _ : unit => Ok [[0; -1]; [2; 1]]) tt [[0; -1]; [2; 1]]).
  - reflexivity.
  - simpl. discriminate.
Defined.

End CoreProps.

(** ** The multiunit KDE *)

Module KDEProps.
Import KDE.
Local Open Scope R_scope.

Lemma SQRT_2PI_pos : 0 < SQRT_2PI.
Proof. unfold SQRT_2PI. apply sqrt_lt_R0. pose proof PI_RGT_0. lra. Qed.

(** *** Division *)

Lemma fdiv_finite em x y :
  y <> 0 -> fdiv em (Fin x) (Fin y) = Ok (Fin (x / y)).
Proof. intros Hy. unfold fdiv. by destruct (Req_dec_T y 0). Qed.

Lemma fdiv_zero_python a : fdiv python_model a (Fin 0) = Raise ZeroDivisionError.
Proof. unfold fdiv. by destruct (Req_dec_T 0 0). Qed.

Lemma fdiv_raises em a b e :
  fdiv em a b = Raise e -> e = ZeroDivisionError /\ em = python_model.
Proof.
  unfold fdiv. destruct b as [y| | |]; try done.
  destruct (Req_dec_T y 0); [|done]. destruct em; [|done].
  by intros [= <-].
Qed.

Lemma fdiv_numpy a b : exists c, fdiv numpy_model a b = Ok c.
Proof.
  unfold fdiv. destruct b as [y| | |]; try by eexists.
  destruct (Req_dec_T y 0); by eexists.
Qed.

Lemma sign_inf_0 : sign_inf 0 = NaN.
Proof.
  unfold sign_inf. destruct (total_order_T 0 0) as [[H|H]|H]; [lra|done|lra].
Qed.

Lemma sign_inf_neg x : x < 0 -> sign_inf x = NInf.
Proof.
  intros Hx. unfold sign_inf.
  destruct (total_order_T x 0) as [[H|H]|H]; [done|lra|lra].
Qed.

Lemma sign_inf_cases x : sign_inf x = PInf \/ sign_inf x = NInf \/ sign_inf x = NaN.
Proof. unfold sign_inf. destruct (total_order_T x 0) as [[H|H]|H]; tauto. Qed.

(** *** The kernel factor *)

Lemma kernel_factor_finite em e s b :
  b <> 0 ->
  kernel_factor em (Fin e) (Fin s) (Fin b)
  = Ok (Fin (exp (-0.5 * (((e + - s) / b) * ((e + - s) / b)))
             / (b * SQRT_2PI) / b)).
Proof.
  intros Hb. unfold kernel_factor, fsub. cbn [fneg fadd].
  rewrite (fdiv_finite _ _ b Hb). rsimpl. cbn [fmul fexp].
  rewrite fdiv_finite; [|pose proof SQRT_2PI_pos; nra].
  rsimpl. by rewrite fdiv_finite.
Qed.

Lemma kernel_factor_zero_python e s :
  kernel_factor python_model e s (Fin 0) = Raise ZeroDivisionError.
Proof. unfold kernel_factor. by rewrite fdiv_zero_python. Qed.

Lemma kernel_factor_raises em e s b err :
  kernel_factor em e s b = Raise err ->
  err = ZeroDivisionError /\ em = python_model.
Proof.
  unfold kernel_factor.
  destruct (fdiv em (fsub e s) b) as [u|e1] eqn:H1; rsimpl;
    [|intros [= <-]; by apply fdiv_raises in H1].
  destruct (fdiv em _ (fmul b (Fin SQRT_2PI))) as [t|e2] eqn:H2; rsimpl;
    [|intros [= <-]; by apply fdiv_raises in H2].
  apply fdiv_raises.
Qed.

(** Under the IEEE model a zero bandwidth makes the factor NaN, whatever
    the feature values. *)
Lemma kernel_factor_zero_numpy e s :
  kernel_factor numpy_model e s (Fin 0) = Ok NaN.
Proof.
  unfold kernel_factor.
  assert (H0 : fmul (Fin 0) (Fin SQRT_2PI) = Fin 0).
  { cbn [fmul]. f_equal. lra. }
  rewrite H0.
  assert (Hu : fdiv numpy_model (fsub e s) (Fin 0) = Ok PInf \/
               fdiv numpy_model (fsub e s) (Fin 0) = Ok NInf \/
               fdiv numpy_model (fsub e s) (Fin 0) = Ok NaN).
  { unfold fdiv. destruct (Req_dec_T 0 0) as [_|H]; [|done].
    destruct (fsub e s) as [x| | |]; [|tauto..].
    destruct (sign_inf_cases x) as [->|[->| ->]]; tauto. }
  assert (Hend : forall t, t = Fin 0 \/ t = NaN ->
            (t' ← fdiv numpy_model t (Fin 0); fdiv numpy_model t' (Fin 0))
            = Ok NaN).
  { intros t [->| ->]; unfold fdiv; destruct (Req_dec_T 0 0) as [_|H];
      try done; rsimpl; by rewrite ?sign_inf_0. }
  destruct Hu as [->|[->| ->]]; rsimpl; cbn [fmul fexp]; apply Hend.
  - left. by rewrite sign_inf_neg by lra.
  - left. by rewrite sign_inf_neg by lra.
  - by right.
Qed.

Lemma kernel_factor_numpy e s b : exists f, kernel_factor numpy_model e s b = Ok f.
Proof.
  destruct (kernel_factor numpy_model e s b) as [f|err] eqn:H; [by eexists|].
  by apply kernel_factor_raises in H as [_ ?].
Qed.

(** At its own sample the kernel factor is [1 / (b * SQRT_2PI) / b]: the
    bandwidth divides twice. *)
Lemma kernel_factor_at_sample em x b :
  b <> 0 -> kernel_factor em (Fin x) (Fin x) (Fin b) = Ok (Fin (code_peak b)).
Proof.
  intros Hb. rewrite kernel_factor_finite by done.
  unfold code_peak. do 4 f_equal.
  replace (-0.5 * ((x + - x) / b * ((x + - x) / b))) with 0 by (field; done).
  apply exp_0.
Qed.

(** *** Identical single rows *)

Lemma map_nth_seq_from {A B} (g : A -> B) (d : A) (pre b : list A) :
  map (fun k => g (nth k (pre ++ b) d)) (seq (length pre) (length b))
  = map g b.
Proof.
  revert pre; induction b as [|y b IH]; intros pre; simpl; [done|].
  f_equal.
  - by rewrite app_nth2, Nat.sub_diag by lia.
  - specialize (IH (pre ++ [y])).
    rewrite length_app, Nat.add_1_r, <- app_assoc in IH. exact IH.
Qed.

Lemma map_nth_seq {A B} (g : A -> B) (d : A) (b : list A) :
  map (fun k => g (nth k b d)) (seq 0 (length b)) = map g b.
Proof. apply (map_nth_seq_from g d [] b). Qed.

Lemma channel_loop_at_sample em (x b : list R) (ks : list nat) (acc : R) :
  (forall k, In k ks -> nth k b 0 <> 0) ->
  rfoldl (fun product_kernel_j k =>
            f ← kernel_factor em (Fin (nth k x 0)) (Fin (nth k x 0))
                              (Fin (nth k b 0));
            Ok (fmul product_kernel_j f)) (Fin acc) ks
  = Ok (Fin (acc * prod_list (map (fun k => code_peak (nth k b 0)) ks))).
Proof.
  revert acc; induction ks as [|k ks IH]; intros acc Hb; cbn [rfoldl].
  - do 2 f_equal. simpl. lra.
  - rewrite kernel_factor_at_sample by (apply Hb; by left). rsimpl.
    cbn [fmul]. rewrite IH by (intros; apply Hb; by right).
    do 2 f_equal. simpl. lra.
Qed.

Lemma get1_map_Fin (v : list R) k : get1 (map Fin v) k = Fin (nth k v 0).
Proof. unfold get1. apply (map_nth Fin). Qed.

Lemma numba_product_identical_row em (x b : list R) :
  length b = length x ->
  Forall (fun bk => bk <> 0) b ->
  numba_product em (map Fin x) (Array2 (length x) [map Fin x]) (map Fin b)
  = Ok [Fin (prod_list (map code_peak b))].
Proof.
  intros Hlen Hb. unfold numba_product, shape0. cbn [rows n_cols length seq rmap].
  change (get2 (Array2 (length x) [map Fin x]) 0) with (get1 (map Fin x)).
  erewrite rfoldl_ext; [|intros acc k; rewrite !get1_map_Fin; reflexivity].
  rewrite channel_loop_at_sample.
  - do 3 f_equal. rewrite Rmult_1_l, <- Hlen.
    by rewrite (map_nth_seq code_peak).
  - intros k Hk. apply in_seq in Hk. rewrite <- Hlen in Hk.
    rewrite Forall_forall in Hb. apply Hb, list_elem_of_In, nth_In. lia.
Qed.

Lemma matmul_single_row (p : R) (krow : list R) :
  matmul [Fin p] (Array2 (length krow) [map Fin krow])
  = Ok (map (fun g => Fin (p * g)) krow).
Proof.
  unfold matmul, shape0, column, dot. cbn [rows n_cols length map].
  rewrite Nat.eqb_refl. f_equal.
  rewrite <- (map_nth_seq (fun g => Fin (p * g)) 0 krow).
  apply map_ext. intros k. cbn [zip_with fold_right].
  rewrite (map_nth Fin). cbn [fmul fadd]. f_equal. lra.
Qed.

Lemma scatter_all_true (values : list float) :
  scatter (repeat (Fin 0) (length values)) (repeat true (length values)) values
  = values.
Proof. induction values as [|v vs IH]; simpl; [done|by rewrite IH]. Qed.

Lemma count_true_repeat n : count_true (repeat true n) = n.
Proof.
  unfold count_true. induction n as [|n IH]; simpl; [done|by rewrite IH].
Qed.

Lemma mask_assign_all_true (values : list float) :
  mask_assign (repeat (Fin 0) (length values)) (repeat true (length values))
              values
  = Ok values.
Proof.
  unfold mask_assign. rewrite !repeat_length, Nat.eqb_refl. simpl.
  by rewrite count_true_repeat, Nat.eqb_refl, scatter_all_true.
Qed.

(** What [get_kde] returns for one test row identical to the one training
    row, nonzero bandwidths and every bin interior: each bin holds the
    spatial-kernel entry times the product over the channels of
    [1 / (b_k * SQRT_2PI) / b_k]. *)
Lemma get_kde_identical_single_row em (x b krow : list R) :
  length b = length x ->
  Forall (fun bk => bk <> 0) b ->
  get_kde em (Array2 (length x) [map Fin x]) (Array2 (length x) [map Fin x])
          (repeat true (length krow)) (map Fin b)
          (Array2 (length krow) [map Fin krow])
  = Ok (Array2 (length krow)
               [map (fun g => Fin (prod_list (map code_peak b) * g)) krow]).
Proof.
  intros Hlen Hb. unfold get_kde. cbn [rows n_cols rmap].
  rewrite numba_product_identical_row by done. rsimpl.
  rewrite matmul_single_row. rsimpl.
  pose proof (mask_assign_all_true
                (map (fun g => Fin (prod_list (map code_peak b) * g)) krow))
    as H.
  rewrite length_map in H. by rewrite H.
Qed.

(** C1. One feature channel with bandwidth 2, the test row [[0]] equal to
    the training row, one interior bin with spatial-kernel entry 1:
    whatever the error model, [get_kde] returns the density
    [1 / (2 * SQRT_2PI) / 2], which is not the product over the channels
    of [1 / (b_k * sqrt (2 * PI))], here [1 / (2 * SQRT_2PI)]: the
    per-channel kernel is divided by the bandwidth twice. *)
Theorem get_kde_identical_rows_divides_by_bandwidth_twice (em : error_model) :
  get_kde em (Array2 1 [[Fin 0]]) (Array2 1 [[Fin 0]]) [true] [Fin 2]
          (Array2 1 [[Fin 1]])
  = Ok (Array2 1 [[Fin (1 / (2 * SQRT_2PI) / 2)]])
  /\ 1 / (2 * SQRT_2PI) / 2 <> prod_list (map gaussian_peak [2]).
Proof.
  split.
  - pose proof (get_kde_identical_single_row em [0] [2] [1]) as H.
    cbn [length map repeat] in H. rewrite H.
    + unfold code_peak. cbn [map prod_list fold_right]. do 5 f_equal. lra.
    + done.
    + repeat constructor. lra.
  - unfold gaussian_peak. simpl. pose proof SQRT_2PI_pos as Hpos.
    intros Heq.
    assert (Hq : 0 < 1 / (2 * SQRT_2PI)).
    { apply Rdiv_lt_0_compat; lra. }
    lra.
Qed.

(** *** Bandwidths that are not positive *)

Lemma channel_loop_zero_python (x : list float) (samples : ndarray2)
    (b : list float) (j : nat) (ks : list nat) (acc : float) :
  (exists k, In k ks /\ get1 b k = Fin 0) ->
  rfoldl (fun product_kernel_j k =>
            f ← kernel_factor python_model (get1 x k) (get2 samples j k)
                              (get1 b k);
            Ok (fmul product_kernel_j f)) acc ks
  = Raise ZeroDivisionError.
Proof.
  revert acc; induction ks as [|k ks IH]; intros acc (k0 & Hin & Hz).
  - destruct Hin.
  - cbn [rfoldl].
    destruct (kernel_factor python_model (get1 x k) (get2 samples j k)
                            (get1 b k)) as [f|e] eqn:Hf; rsimpl.
    + apply IH. destruct Hin as [->|Hin]; [|by exists k0].
      rewrite Hz, kernel_factor_zero_python in Hf. done.
    + by destruct (kernel_factor_raises _ _ _ _ _ Hf) as [-> _].
Qed.

Lemma fmul_NaN_l a : fmul NaN a = NaN.
Proof. by destruct a. Qed.

Lemma fmul_NaN_r a : fmul a NaN = NaN.
Proof. by destruct a. Qed.

Lemma channel_loop_NaN_numpy (x : list float) (samples : ndarray2)
    (b : list float) (j : nat) (ks : list nat) :
  rfoldl (fun product_kernel_j k =>
            f ← kernel_factor numpy_model (get1 x k) (get2 samples j k)
                              (get1 b k);
            Ok (fmul product_kernel_j f)) NaN ks
  = Ok NaN.
Proof.
  induction ks as [|k ks IH]; cbn [rfoldl]; [done|].
  destruct (kernel_factor_numpy (get1 x k) (get2 samples j k) (get1 b k))
    as [f ->].
  rsimpl. by rewrite fmul_NaN_l.
Qed.

Lemma channel_loop_zero_numpy (x : list float) (samples : ndarray2)
    (b : list float) (j : nat) (ks : list nat) (acc : float) :
  (exists k, In k ks /\ get1 b k = Fin 0) ->
  rfoldl (fun product_kernel_j k =>
            f ← kernel_factor numpy_model (get1 x k) (get2 samples j k)
                              (get1 b k);
            Ok (fmul product_kernel_j f)) acc ks
  = Ok NaN.
Proof.
  revert acc; induction ks as [|k ks IH]; intros acc (k0 & Hin & Hz).
  - destruct Hin.
  - cbn [rfoldl]. destruct Hin as [->|Hin].
    + rewrite Hz, kernel_factor_zero_numpy. rsimpl.
      rewrite fmul_NaN_r. apply channel_loop_NaN_numpy.
    + destruct (kernel_factor_numpy (get1 x k) (get2 samples j k) (get1 b k))
        as [f ->].
      rsimpl. apply IH. by exists k0.
Qed.

Lemma rmap_const {A B} (y : B) (f : A -> result B) (xs : list A) :
  (forall x, f x = Ok y) -> rmap f xs = Ok (repeat y (length xs)).
Proof.
  intros Hf. induction xs as [|x xs IH]; simpl; [done|].
  by rewrite Hf, IH.
Qed.

Lemma numba_product_zero_python (x : list float) (samples : ndarray2)
    (b : list float) (k : nat) :
  rows samples <> [] ->
  (k < n_cols samples)%nat -> get1 b k = Fin 0 ->
  numba_product python_model x samples b = Raise ZeroDivisionError.
Proof.
  intros Hne Hk Hz. unfold numba_product, shape0.
  destruct (rows samples) as [|r rs] eqn:Hrows; [done|].
  cbn [length seq]. apply rmap_head_raises.
  apply channel_loop_zero_python.
  exists k. split; [apply in_seq; lia|done].
Qed.

Lemma numba_product_zero_numpy (x : list float) (samples : ndarray2)
    (b : list float) (k : nat) :
  (k < n_cols samples)%nat -> get1 b k = Fin 0 ->
  numba_product numpy_model x samples b = Ok (repeat NaN (shape0 samples)).
Proof.
  intros Hk Hz. unfold numba_product. cbv zeta.
  rewrite <- (length_seq (shape0 samples) 0) at 2.
  apply rmap_const. intros j. apply channel_loop_zero_numpy.
  exists k. split; [apply in_seq; lia|done].
Qed.

Lemma numba_product_raises em x samples b e :
  numba_product em x samples b = Raise e ->
  e = ZeroDivisionError /\ em = python_model.
Proof.
  unfold numba_product. intros H.
  apply rmap_raises in H as (j & _ & H).
  revert H. generalize (Fin 1). generalize (seq 0 (n_cols samples)).
  intros ks; induction ks as [|k ks IH]; intros acc; cbn [rfoldl]; [done|].
  destruct (kernel_factor _ _ _ _) as [f|e'] eqn:Hf; rsimpl.
  - apply IH.
  - intros [= <-]. by apply kernel_factor_raises in Hf.
Qed.

Lemma matmul_raises v m e : matmul v m = Raise e -> e = ValueError.
Proof. unfold matmul. destruct (Nat.eqb _ _); congruence. Qed.

Lemma mask_assign_raises row mask values e :
  mask_assign row mask values = Raise e -> e = IndexError \/ e = ValueError.
Proof.
  unfold mask_assign. destruct (negb _); [intros [= <-]; by left|].
  destruct (Nat.eqb _ _); [done|].
  destruct values as [|v [|v' vs]]; intros [= <-]; by right.
Qed.

(** Every exception of [get_kde] comes from the division (under the
    ['python'] model only), the matrix product or the masked assignment. *)
Lemma get_kde_raises em test train mask b gtd e :
  get_kde em test train mask b gtd = Raise e ->
  (e = ZeroDivisionError /\ em = python_model)
  \/ e = ValueError \/ e = IndexError.
Proof.
  unfold get_kde.
  destruct (rmap _ (rows test)) as [kde|e'] eqn:Hmap; rsimpl; [done|].
  intros [= ->]. apply rmap_raises in Hmap as (x & _ & Hx).
  destruct (numba_product em x train b) as [pk|e'] eqn:Hpk; rsimpl_in Hx.
  - destruct (matmul pk gtd) as [vs|e'] eqn:Hmm; rsimpl_in Hx.
    + apply mask_assign_raises in Hx. tauto.
    + injection Hx as <-. apply matmul_raises in Hmm. tauto.
  - injection Hx as <-. apply numba_product_raises in Hpk. tauto.
Qed.

(** C6, as stated, fails: under either error model a negative bandwidth
    is accepted and a density is returned; so is a zero bandwidth when the
    training sample is empty. *)
Lemma get_kde_nonpositive_bandwidth_accepted :
  -2 <= 0
  /\ get_kde python_model (Array2 1 [[Fin 0]]) (Array2 1 [[Fin 0]]) [true]
             [Fin (-2)] (Array2 1 [[Fin 1]])
     = Ok (Array2 1 [[Fin (1 / (-2 * SQRT_2PI) / -2)]])
  /\ get_kde numpy_model (Array2 1 [[Fin 0]]) (Array2 1 [[Fin 0]]) [true]
             [Fin (-2)] (Array2 1 [[Fin 1]])
     = Ok (Array2 1 [[Fin (1 / (-2 * SQRT_2PI) / -2)]])
  /\ get_kde python_model (Array2 1 [[Fin 0]]) (Array2 1 []) [true] [Fin 0]
             (Array2 1 [])
     = Ok (Array2 1 [[Fin 0]]).
Proof.
  assert (H : forall em,
             get_kde em (Array2 1 [[Fin 0]]) (Array2 1 [[Fin 0]]) [true]
                     [Fin (-2)] (Array2 1 [[Fin 1]])
             = Ok (Array2 1 [[Fin (1 / (-2 * SQRT_2PI) / -2)]])).
  { intros em.
    pose proof (get_kde_identical_single_row em [0] [-2] [1]) as H.
    cbn [length map repeat] in H. rewrite H.
    - unfold code_peak. cbn [map prod_list fold_right]. do 5 f_equal. lra.
    - done.
    - repeat constructor. lra. }
  split; [lra|]. split; [apply H|]. split; [apply H|]. reflexivity.
Qed.

(** C6, amended. With at least one test row and one training row and a
    zero bandwidth in one of the feature channels: under the ['python']
    error model [get_kde] fails with the [ZeroDivisionError] of the
    division in the per-channel kernel; under the IEEE model of a [prange]
    body nothing is raised by the division and every entry of the product
    kernel is NaN.  Whatever the inputs and the error model, [get_kde]
    never fails with [ConfigurationError]. *)
Theorem get_kde_zero_bandwidth
    (test train : ndarray2) (mask : list bool) (b : list float)
    (gtd : ndarray2) (k : nat) :
  rows test <> [] ->
  rows train <> [] ->
  (k < n_cols train)%nat ->
  get1 b k = Fin 0 ->
  get_kde python_model test train mask b gtd = Raise ZeroDivisionError
  /\ (forall x, numba_product numpy_model x train b
                = Ok (repeat NaN (shape0 train)))
  /\ get_kde numpy_model test train mask b gtd <> Raise ZeroDivisionError
  /\ (forall em test' train' mask' b' gtd',
        get_kde em test' train' mask' b' gtd' <> Raise ConfigurationError).
Proof.
  intros Htest Htrain Hk Hz. split; [|split; [|split]].
  - unfold get_kde. destruct (rows test) as [|x xs]; [done|].
    erewrite rmap_head_raises; [done|].
    by erewrite numba_product_zero_python.
  - intros x. by apply (numba_product_zero_numpy x train b k).
  - intros H. apply get_kde_raises in H as [[_ H]|[H|H]]; discriminate.
  - intros em test' train' mask' b' gtd' H.
    apply get_kde_raises in H as [[H _]|[H|H]]; discriminate.
Qed.

Lemma get_kde_zero_bandwidth_witness :
  get_kde python_model (Array2 2 [[Fin 0; Fin 1]]) (Array2 2 [[Fin 3; Fin 4]])
          [true] [Fin 5; Fin 0] (Array2 1 [[Fin 1]])
  = Raise ZeroDivisionError
  /\ (forall x, numba_product numpy_model x (Array2 2 [[Fin 3; Fin 4]])
                              [Fin 5; Fin 0]
                = Ok (repeat NaN (shape0 (Array2 2 [[Fin 3; Fin 4]]))))
  /\ get_kde numpy_model (Array2 2 [[Fin 0; Fin 1]]) (Array2 2 [[Fin 3; Fin 4]])
             [true] [Fin 5; Fin 0] (Array2 1 [[Fin 1]])
     <> Raise ZeroDivisionError
  /\ (forall em test' train' mask' b' gtd',
        get_kde em test' train' mask' b' gtd' <> Raise ConfigurationError).
Proof.
  apply (get_kde_zero_bandwidth
           (Array2 2 [[Fin 0; Fin 1]]) (Array2 2 [[Fin 3; Fin 4]]) [true]
           [Fin 5; Fin 0] (Array2 1 [[Fin 1]]) 1).
  - simpl. discriminate.
  - simpl. discriminate.
  - simpl. lia.
  - reflexivity.
Defined.

End KDEProps.
(** ** The bracket search *)

Module SetupProps.
Import TrackGraph Scenario.
Local Open Scope Q_scope.

Lemma rmap_lookup {A B} (f : A -> result B) (xs : list A) (ys : list B)
    (i : nat) (y : B) :
  rmap f xs = Ok ys -> ys !! i = Some y ->
  exists x, xs !! i = Some x /\ f x = Ok y.
Proof.
  revert ys i; induction xs as [|x xs IH]; intros ys i; simpl.
  - intros [= <-]. by rewrite lookup_nil.
  - destruct (f x) as [y0|] eqn:Hfx; [|done].
    destruct (rmap f xs) as [ys0|]; [|done].
    intros [= <-]. destruct i as [|i]; simpl.
    + intros [= ->]. by exists x.
    + intros Hi. by apply (IH ys0 i).
Qed.

Lemma length_put_mask {A} (a : list A) (mask : list bool) (values : list A) :
  length (put_mask a mask values) = length a.
Proof.
  revert mask values; induction a as [|x a IH]; intros mask values; [done|].
  destruct mask as [|[] mask]; simpl; [done| |by rewrite IH].
  destruct values; simpl; by rewrite IH.
Qed.

Lemma bracket_indices_length lp nodes_df li ri :
  bracket_indices lp nodes_df = Ok (li, ri) ->
  length li = length lp /\ length ri = length lp.
Proof.
  unfold bracket_indices.
  bind_head left_rows Hl. bind_head right_rows Hr. bind_head nearest Hn.
  intros [= <- <-].
  by rewrite !length_put_mask, !length_map.
Qed.

Lemma residuals_length positions ind lp ds :
  residuals positions ind lp = Ok ds ->
  length ds = Nat.min (length ind) (length lp).
Proof.
  unfold residuals. destruct (rmap _ ind) as [values|] eqn:Hv; [|done].
  rsimpl. intros [= <-].
  by rewrite length_zip_with, (rmap_length _ _ _ Hv).
Qed.

(** The four arrays that [_setup_distance] returns have one entry for each
    query position. *)
Lemma setup_distance_lengths lp nodes_df lid rid ld rd centers :
  _setup_distance lp nodes_df = Ok (lid, rid, ld, rd, centers) ->
  length lid = length lp /\ length rid = length lp /\
  length ld = length lp /\ length rd = length lp.
Proof.
  unfold _setup_distance.
  destruct (bracket_indices lp nodes_df) as [[li ri]|] eqn:Hbr; [|done].
  apply bracket_indices_length in Hbr as [Hli Hri]. rsimpl.
  destruct (rmap _ li) as [lid'|] eqn:Hlid; [|done]. rsimpl.
  destruct (rmap _ ri) as [rid'|] eqn:Hrid; [|done]. rsimpl.
  destruct (residuals _ li lp) as [ld'|] eqn:Hres; [|done]. rsimpl.
  intros [= <- <- <- <- <-].
  apply rmap_length in Hlid, Hrid. apply residuals_length in Hres.
  lia.
Qed.

Lemma residuals_nonneg positions ind lp ds i d :
  residuals positions ind lp = Ok ds -> ds !! i = Some d -> (0 <= d)%Q.
Proof.
  unfold residuals. destruct (rmap _ ind) as [values|]; [|done].
  rsimpl. intros [= <-] (x & p & Hd & _ & _)%lookup_zip_with_Some.
  rewrite Hd. exact (Qabs_nonneg (x - p)).
Qed.

(** The residual distances are absolute values. *)
Lemma setup_distance_nonneg lp nodes_df lid rid ld rd centers :
  _setup_distance lp nodes_df = Ok (lid, rid, ld, rd, centers) ->
  (forall i d, ld !! i = Some d -> (0 <= d)%Q) /\
  (forall i d, rd !! i = Some d -> (0 <= d)%Q).
Proof.
  unfold _setup_distance.
  destruct (bracket_indices lp nodes_df) as [[li ri]|]; [|done]. rsimpl.
  destruct (rmap _ li) as [lid'|]; [|done]. rsimpl.
  destruct (rmap _ ri) as [rid'|]; [|done]. rsimpl.
  destruct (residuals _ li lp) as [ld'|] eqn:Hres; [|done]. rsimpl.
  intros [= <- <- <- <- <-].
  split; intros i d; by apply (residuals_nonneg _ _ _ _ i d Hres).
Qed.

(** *** Positions within the table: [_setup_distance] returns *)

Local Close Scope Q_scope.

Lemma searchsorted_le a v : searchsorted a v <= length a.
Proof.
  induction a as [|x a IH]; simpl; [lia|]. destruct (Qltb x v); simpl; lia.
Qed.

Lemma searchsorted_lt a v :
  (exists x, In x a /\ (v <= x)%Q) -> searchsorted a v < length a.
Proof.
  induction a as [|x a IH]; intros (y & Hin & Hle); simpl; [done|].
  destruct (Qltb x v) eqn:Hlt; [|lia].
  destruct Hin as [->|Hin].
  - unfold Qltb in Hlt. apply negb_true_iff in Hlt.
    apply Qle_bool_iff in Hle. congruence.
  - apply -> Nat.succ_lt_mono. apply IH. by exists y.
Qed.

Lemma np_index_valid {A} (a : list A) (i : Z) :
  valid_index (length a) i -> exists x, np_index a i = Ok x.
Proof.
  unfold valid_index, np_index. intros Hi.
  destruct (Z.ltb_spec i 0) as [Hneg|Hpos].
  - rewrite (proj2 (andb_true_iff _ _)) by (split; lia).
    destruct (lookup_lt_is_Some_2 a (Z.to_nat (i + Z.of_nat (length a))))
      as [x ->]; [lia|by eexists].
  - rewrite (proj2 (andb_true_iff _ _)) by (split; lia).
    destruct (lookup_lt_is_Some_2 a (Z.to_nat i)) as [x ->]; [lia|by eexists].
Qed.

Lemma argmin_from_lt best_i best i xs :
  best_i < i -> argmin_from best_i best i xs < i + length xs.
Proof.
  revert best_i best i; induction xs as [|x xs IH]; intros best_i best i Hlt;
    simpl; [lia|].
  destruct (Qltb x best).
  - specialize (IH i x (S i)). lia.
  - specialize (IH best_i best (S i)). lia.
Qed.

Lemma np_argmin_lt xs :
  xs <> [] -> exists j, np_argmin xs = Ok j /\ j < length xs.
Proof.
  destruct xs as [|x xs]; [done|]. intros _. eexists. split; [done|].
  pose proof (argmin_from_lt 0 x 1 xs). simpl. lia.
Qed.

Lemma put_mask_Forall {A} (P : A -> Prop) (a : list A) mask values :
  Forall P a -> Forall P values -> Forall P (put_mask a mask values).
Proof.
  intros Ha. revert mask values.
  induction Ha as [|x a Hx Ha IH]; intros mask values Hv; [done|].
  destruct mask as [|[] mask]; simpl.
  - by constructor.
  - destruct Hv as [|v vs Hv Hvs]; constructor; try done; by apply IH.
  - constructor; [done|by apply IH].
Qed.

Lemma select_In {A} (a : list A) mask x : In x (select a mask) -> In x a.
Proof.
  revert mask; induction a as [|y a IH]; intros mask; [by destruct mask|].
  destruct mask as [|[] mask]; simpl; [done| |].
  - intros [->|H]; [by left|right; by eapply IH].
  - intros H. right. by eapply IH.
Qed.

Lemma bracket_indices_returns lp nodes_df :
  (forall p, In p lp ->
     exists r, In r nodes_df /\ (p <= linear_position r)%Q) ->
  nodes_df <> [] ->
  exists li ri,
    bracket_indices lp nodes_df = Ok (li, ri) /\
    Forall (valid_index (length nodes_df)) li /\
    Forall (valid_index (length nodes_df)) ri.
Proof.
  intros Hrange Hne. unfold bracket_indices.
  set (positions := map linear_position nodes_df).
  set (bin_ind := map (fun p => Z.of_nat (searchsorted positions p)) lp).
  assert (Hn : 0 < length nodes_df) by (destruct nodes_df; [done|simpl; lia]).
  assert (Hbin : Forall (fun i => (0 <= i < Z.of_nat (length nodes_df))%Z)
                        bin_ind).
  { apply Forall_forall. intros i Hi.
    apply list_elem_of_In, in_map_iff in Hi as (p & <- & Hp).
    assert (searchsorted positions p < length positions); [|
      unfold positions in *; rewrite length_map in *; lia].
    apply searchsorted_lt. destruct (Hrange p Hp) as (r & Hr & Hle).
    exists (linear_position r). split; [by apply in_map|done]. }
  rewrite Forall_forall in Hbin.
  destruct (rmap_all_Ok (fun i => np_index nodes_df (i - 1)%Z) bin_ind
              (fun _ => True)) as (left_rows & -> & _).
  { intros i Hi. apply list_elem_of_In, Hbin in Hi.
    destruct (np_index_valid nodes_df (i - 1)%Z) as [x ->];
      [unfold valid_index; lia|by eexists]. }
  rsimpl.
  destruct (rmap_all_Ok (fun i => np_index nodes_df i) bin_ind
              (fun _ => True)) as (right_rows & -> & _).
  { intros i Hi. apply list_elem_of_In, Hbin in Hi.
    destruct (np_index_valid nodes_df i) as [x ->];
      [unfold valid_index; lia|by eexists]. }
  rsimpl.
  set (mask := map negb _).
  assert (Hpos : positions <> []).
  { unfold positions. by destruct nodes_df. }
  destruct positions as [|q0 positions'] eqn:Hpositions; [done|].
  rewrite <- Hpositions in *.
  destruct (rmap_all_Ok
              (fun p => j ← np_argmin (map (fun q => Qabs (p - q)) positions);
                        Ok (Z.of_nat j))
              (select lp mask) (valid_index (length nodes_df)))
    as (nearest & -> & Hnearest).
  { intros p _.
    destruct (np_argmin_lt (map (fun q => Qabs (p - q)) positions))
      as (j & -> & Hj).
    - rewrite Hpositions. done.
    - rsimpl. eexists. split; [done|].
      unfold positions in Hj. rewrite !length_map in Hj.
      unfold valid_index. lia. }
  rsimpl. eexists _, _. split; [done|].
  split; (apply put_mask_Forall; [|done]); apply Forall_forall.
  - intros i Hi. apply list_elem_of_In, in_map_iff in Hi as (i0 & <- & Hi0).
    apply list_elem_of_In, Hbin in Hi0. unfold valid_index. lia.
  - intros i Hi. apply Hbin in Hi. unfold valid_index. lia.
Qed.

(** For a non-empty node table and query positions none of which lies
    above every node position, [_setup_distance] returns its five arrays
    (no index leaves the table). *)
Lemma setup_distance_returns lp nodes_df :
  (forall p, In p lp ->
     exists r, In r nodes_df /\ (p <= linear_position r)%Q) ->
  nodes_df <> [] ->
  exists out, _setup_distance lp nodes_df = Ok out.
Proof.
  intros Hrange Hne.
  destruct (bracket_indices_returns lp nodes_df Hrange Hne)
    as (li & ri & Hbr & Hli & Hri).
  unfold _setup_distance. rewrite Hbr. rsimpl.
  assert (Hids : forall ind, Forall (valid_index (length nodes_df)) ind ->
            exists ids, rmap (np_index (map node_ids nodes_df)) ind = Ok ids).
  { intros ind Hind.
    destruct (rmap_all_Ok (np_index (map node_ids nodes_df)) ind
                (fun _ => True)) as (ids & -> & _); [|by eexists].
    intros i Hi. rewrite Forall_forall in Hind.
    destruct (np_index_valid (map node_ids nodes_df) i) as [x ->];
      [rewrite length_map; by apply Hind, list_elem_of_In|by eexists]. }
  destruct (Hids li Hli) as [lid ->]. rsimpl.
  destruct (Hids ri Hri) as [rid ->]. rsimpl.
  assert (Hres : exists ds,
             residuals (map linear_position nodes_df) li lp = Ok ds).
  { unfold residuals.
    destruct (rmap_all_Ok (np_index (map linear_position nodes_df)) li
                (fun _ => True)) as (vs & -> & _); [|by eexists].
    intros i Hi. rewrite Forall_forall in Hli.
    destruct (np_index_valid (map linear_position nodes_df) i) as [x ->];
      [rewrite length_map; by apply Hli, list_elem_of_In|by eexists]. }
  destruct Hres as [ds ->]. rsimpl. by eexists.
Qed.

Local Open Scope Q_scope.

(** C10. Whenever [_setup_distance] returns, [left_dist] and [right_dist]
    are the same array: both are the residuals of the LEFT index array
    [left_node_ind], that is, entry by entry, the absolute difference
    between the linear position of the left bracket node and the query
    position, in the same-edge branch and in the fallback branch alike. *)
Theorem setup_distance_left_dist_eq_right_dist
    (lp : list Q) (nodes_df : list node_row)
    (left_node_id right_node_id : list node) (left_dist right_dist : list Q)
    (centers : list node) :
  _setup_distance lp nodes_df
  = Ok (left_node_id, right_node_id, left_dist, right_dist, centers) ->
  left_dist = right_dist /\
  exists left_node_ind right_node_ind,
    bracket_indices lp nodes_df = Ok (left_node_ind, right_node_ind) /\
    residuals (map linear_position nodes_df) left_node_ind lp = Ok right_dist /\
    forall i d, right_dist !! i = Some d ->
      exists j x p,
        left_node_ind !! i = Some j /\
        np_index (map linear_position nodes_df) j = Ok x /\
        lp !! i = Some p /\
        d = Qabs (x - p).
Proof.
  unfold _setup_distance.
  destruct (bracket_indices lp nodes_df) as [[li ri]|] eqn:Hbr; [|done].
  rsimpl.
  destruct (rmap _ li) as [lid|]; [|done]. rsimpl.
  destruct (rmap _ ri) as [rid|]; [|done]. rsimpl.
  destruct (residuals _ li lp) as [ld|] eqn:Hres; [|done]. rsimpl.
  intros [= <- <- <- <- <-]. split; [done|].
  exists li, ri. split; [done|]. split; [done|].
  intros i d Hd. unfold residuals in Hres.
  destruct (rmap _ li) as [values|] eqn:Hvals; [|done]. rsimpl_in Hres.
  injection Hres as <-.
  apply lookup_zip_with_Some in Hd as (x & p & -> & Hx & Hp).
  destruct (rmap_lookup _ _ _ _ _ Hvals Hx) as (j & Hj & Hjx).
  by exists j, x, p.
Qed.

Lemma setup_distance_left_dist_eq_right_dist_witness :
  [10; 5 # 2; 5; 1] = [10; 5 # 2; 5; 1] /\
  exists left_node_ind right_node_ind,
    bracket_indices [0; 5 # 2; 10; 1] path3_df
    = Ok (left_node_ind, right_node_ind) /\
    residuals (map linear_position path3_df) left_node_ind
              [0; 5 # 2; 10; 1] = Ok [10; 5 # 2; 5; 1] /\
    forall i d, [10; 5 # 2; 5; 1] !! i = Some d ->
      exists j x p,
        left_node_ind !! i = Some j /\
        np_index (map linear_position path3_df) j = Ok x /\
        [0; 5 # 2; 10; 1] !! i = Some p /\
        d = Qabs (x - p).
Proof.
  apply (setup_distance_left_dist_eq_right_dist
           [0; 5 # 2; 10; 1] path3_df
           [n2; n0; n1; n0] [n0; n1; n2; n1]
           [10; 5 # 2; 5; 1] [10; 5 # 2; 5; 1] [n0; n2]).
  vm_compute. reflexivity.
Defined.

(** C3. On the three-node track the query position 1 lies between the
    nodes at 0 and 5 of the same edge segment.  [_setup_distance] takes
    those two nodes as brackets and gives the left residual |0 - 1| = 1,
    but the right residual is 1 as well, not |5 - 1| = 4: it is measured
    to the left node. *)
Theorem setup_distance_right_dist_measured_to_left_node :
  _setup_distance [1] path3_df = Ok ([n0], [n1], [1], [1], [n0; n2])
  /\ Qabs (0 - 1) == 1
  /\ ~ (1 == Qabs (5 - 1)).
Proof. split; [by vm_compute|]. split; by vm_compute. Qed.

(** C4. On the three-node track (largest node position 10) the query
    position 11 makes [_setup_distance], hence the whole call, fail with
    [IndexError]: [searchsorted] returns the table length 3 and line 53
    indexes the table with it.  Below the smallest position, at -1, the
    left index is -1, which wraps to the last row: the brackets are the
    node at 10 and the node at 0, with residual 11, not the nearest
    boundary node. *)
Theorem setup_distance_out_of_range :
  _setup_distance [11] path3_df = Raise IndexError
  /\ fst (convert_linear_position_to_track_distances [11] 0%nat path3_df
                                                     [path3])
     = Raise IndexError
  /\ _setup_distance [-1] path3_df = Ok ([n2], [n0], [11], [11], [n0; n2]).
Proof. split; [by vm_compute|]. split; by vm_compute. Qed.

(** C2. On the three-node track the query position 10 is exactly the
    linear position of the bin center [n2]; the solver takes the same-edge
    branch with brackets [n1] (at 5) and [n2], both residuals 5, and the
    row it returns is [[10, 5]]: the distance to that bin center is 5, not
    0.  At the query position 0, the position of the bin center [n0], the
    row is [[10, 10]]. *)
Theorem distance_at_bin_center_not_zero :
  _setup_distance [10] path3_df = Ok ([n1], [n2], [5], [5], [n0; n2])
  /\ fst (convert_linear_position_to_track_distances [10] 0%nat path3_df
                                                     [path3])
     = Ok [[10; 5]]
  /\ fst (convert_linear_position_to_track_distances [0] 0%nat path3_df
                                                     [path3])
     = Ok [[10; 10]]
  /\ ~ (5 == 0) /\ ~ (10 == 0).
Proof.
  split; [by vm_compute|]. split; [by vm_compute|]. split; [by vm_compute|].
  split; by vm_compute.
Qed.

End SetupProps.
(** ** Adding and removing the anchor *)

Module GraphProps.
Import TrackGraph SolverSpec.

Lemma lookup_neighbors (G : Graph) v nbrs :
  G !! v = Some nbrs -> neighbors G v = nbrs.
Proof. unfold neighbors. by intros ->. Qed.

Lemma lookup_is_Some_neighbors (G : Graph) v :
  is_Some (G !! v) -> G !! v = Some (neighbors G v).
Proof. unfold neighbors. by intros [nbrs ->]. Qed.

Lemma neighbors_insert (G : Graph) u nbrs v :
  neighbors (<[u := nbrs]> G) v
  = if decide (v = u) then nbrs else neighbors G v.
Proof.
  unfold neighbors. destruct (decide (v = u)) as [->|Hne].
  - by rewrite lookup_insert_eq.
  - by rewrite lookup_insert_ne.
Qed.

Lemma neighbors_add_node (G : Graph) n v :
  neighbors (add_node G n) v = neighbors G v.
Proof.
  unfold add_node. destruct (G !! n) eqn:Hn; [done|].
  rewrite neighbors_insert. destruct (decide (v = n)) as [->|]; [|done].
  unfold neighbors. by rewrite Hn.
Qed.

Lemma add_node_is_Some (G : Graph) n v :
  is_Some (add_node G n !! v) <-> v = n \/ is_Some (G !! v).
Proof.
  unfold add_node. destruct (G !! n) eqn:Hn.
  - split; [by right|]. intros [->|H]; [by rewrite Hn|done].
  - rewrite lookup_insert_is_Some. split.
    + intros [->|[_ H]]; [by left|by right].
    + intros [->|H]; [by left|]. destruct (decide (n = v)); [by left|by right].
Qed.

(** The adjacency after [add_edge], in terms of the adjacency before. *)
Lemma neighbors_add_edge (G : Graph) u v d w :
  neighbors (add_edge G u v d) w
  = if decide (w = v)
    then <[u := Some d]>
           (if decide (v = u) then <[v := Some d]> (neighbors G u)
            else neighbors G v)
    else if decide (w = u) then <[v := Some d]> (neighbors G u)
         else neighbors G w.
Proof.
  unfold add_edge. rewrite !neighbors_insert, !neighbors_add_node.
  destruct (decide (w = v)) as [->|]; [|done]. done.
Qed.

Lemma add_edge_is_Some (G : Graph) u v d w :
  is_Some (add_edge G u v d !! w) <-> w = u \/ w = v \/ is_Some (G !! w).
Proof.
  unfold add_edge. rewrite !lookup_insert_is_Some', !add_node_is_Some.
  split.
  - intros [->|[->|[->|[->|H]]]]; tauto.
  - intros [->|[->|H]]; tauto.
Qed.

Lemma add_path_pair (G : Graph) u v d :
  add_path G [u; v] d = add_edge (add_node G u) u v d.
Proof. reflexivity. Qed.

Lemma with_anchor_unfold G l r ld rd :
  with_anchor G l r ld rd
  = add_edge (add_node (add_edge (add_node G l) l anchor ld) anchor)
             anchor r rd.
Proof. reflexivity. Qed.

Lemma with_anchor_has_anchor G l r ld rd :
  is_Some (with_anchor G l r ld rd !! anchor).
Proof. rewrite with_anchor_unfold, add_edge_is_Some. by left. Qed.

(** [same_neighbors] is an equivalence that the graph operations respect. *)
Lemma same_neighbors_refl G : same_neighbors G G.
Proof. done. Qed.

Lemma same_neighbors_sym G G' : same_neighbors G G' -> same_neighbors G' G.
Proof. intros H v. by rewrite H. Qed.

Lemma same_neighbors_trans G1 G2 G3 :
  same_neighbors G1 G2 -> same_neighbors G2 G3 -> same_neighbors G1 G3.
Proof. intros H1 H2 v. by rewrite H1. Qed.

Lemma same_neighbors_add_node G n : same_neighbors (add_node G n) G.
Proof. intros v. apply neighbors_add_node. Qed.

Lemma same_neighbors_add_edge G G' u v d :
  same_neighbors G G' ->
  same_neighbors (add_edge G u v d) (add_edge G' u v d).
Proof. intros H w. by rewrite !neighbors_add_edge, !H. Qed.

Lemma same_neighbors_with_anchor G G' l r ld rd :
  same_neighbors G G' ->
  same_neighbors (with_anchor G l r ld rd) (with_anchor G' l r ld rd).
Proof.
  intros H. rewrite !with_anchor_unfold.
  apply same_neighbors_add_edge.
  eapply same_neighbors_trans; [apply same_neighbors_add_node|].
  eapply same_neighbors_trans;
    [|apply same_neighbors_sym, same_neighbors_add_node].
  apply same_neighbors_add_edge.
  eapply same_neighbors_trans; [apply same_neighbors_add_node|].
  eapply same_neighbors_trans;
    [|apply same_neighbors_sym, same_neighbors_add_node].
  done.
Qed.

(** [anchor_free], read through [neighbors]. *)
Lemma anchor_free_neighbors G :
  anchor_free G <->
  neighbors G anchor = ∅ /\ (forall v, neighbors G v !! anchor = None)
  /\ G !! anchor = None.
Proof.
  unfold anchor_free, neighbors. split.
  - intros [Ha Hall]. rewrite Ha. split; [done|]. split; [|done].
    intros v. destruct (G !! v) as [nbrs|] eqn:Hv; simpl; [|done].
    by apply (Hall v nbrs).
  - intros (_ & Hall & Ha). split; [done|].
    intros v nbrs Hv. specialize (Hall v). by rewrite Hv in Hall.
Qed.

(** *** [remove_node] *)

Lemma neighbors_alter_all (f : gmap node (option Q) -> gmap node (option Q))
    (us : list node) (G : Graph) (w : node) :
  f ∅ = ∅ -> (forall m, f (f m) = f m) ->
  neighbors (foldr (fun u G' => alter f u G') G us) w
  = if decide (w ∈ us) then f (neighbors G w) else neighbors G w.
Proof.
  intros Hempty Hidem. induction us as [|u us IH]; cbn [foldr].
  - rewrite decide_False; [done|]. apply not_elem_of_nil.
  - set (G'' := foldr (fun u G' => alter f u G') G us) in *.
    destruct (decide (u = w)) as [->|Hne].
    + rewrite decide_True by apply list_elem_of_here.
      unfold neighbors at 1. rewrite lookup_alter_eq.
      transitivity (f (neighbors G'' w)).
      { unfold neighbors. by destruct (G'' !! w). }
      rewrite IH. by destruct (decide (w ∈ us)).
    + unfold neighbors at 1. rewrite lookup_alter_ne by done.
      fold (neighbors G'' w). rewrite IH.
      destruct (decide (w ∈ us)) as [Hin|Hnin].
      * by rewrite decide_True by (by apply list_elem_of_further).
      * rewrite decide_False; [done|].
        intros [?|?]%elem_of_cons; done.
Qed.

Lemma In_keys (m : gmap node (option Q)) (w : node) :
  w ∈ map fst (map_to_list m) <-> is_Some (m !! w).
Proof.
  rewrite list_elem_of_In, in_map_iff. split.
  - intros ([k e] & <- & Hin). apply list_elem_of_In in Hin.
    apply elem_of_map_to_list in Hin. by exists e.
  - intros [e He]. exists (w, e). split; [done|].
    by apply list_elem_of_In, elem_of_map_to_list.
Qed.

Lemma neighbors_remove_node (G G' : Graph) n w :
  remove_node G n = Ok G' ->
  neighbors G' w
  = if decide (w = n) then ∅
    else if decide (is_Some (neighbors G n !! w))
         then delete n (neighbors G w)
         else neighbors G w.
Proof.
  unfold remove_node. destruct (G !! n) as [nbrs|] eqn:Hn; [|done].
  intros [= <-]. rewrite (lookup_neighbors _ _ _ Hn).
  destruct (decide (w = n)) as [->|Hne].
  - unfold neighbors. by rewrite lookup_delete_eq.
  - unfold neighbors at 1. rewrite lookup_delete_ne by done.
    match goal with |- default ∅ (?X !! w) = _ => fold (neighbors X w) end.
    rewrite neighbors_alter_all.
    + destruct (decide (w ∈ _)) as [Hin|Hnin].
      * apply In_keys in Hin. by rewrite decide_True.
      * rewrite decide_False; [done|]. by rewrite <- In_keys.
    + apply delete_empty.
    + intros m. by rewrite delete_delete_eq.
Qed.

Lemma remove_node_is_Some (G : Graph) n :
  is_Some (G !! n) -> exists G', remove_node G n = Ok G'.
Proof. intros [nbrs Hn]. unfold remove_node. rewrite Hn. by eexists. Qed.

(** Taking the anchor out again gives back the adjacency of a graph that
    did not have it. *)
Lemma remove_anchor_same_neighbors G l r ld rd :
  neighbors G anchor = ∅ ->
  (forall v, neighbors G v !! anchor = None) ->
  exists G', remove_node (with_anchor G l r ld rd) anchor = Ok G'
             /\ same_neighbors G' G.
Proof.
  intros Hempty Hfree.
  destruct (remove_node_is_Some _ _ (with_anchor_has_anchor G l r ld rd))
    as [G' HG'].
  exists G'. split; [done|]. intros w.
  rewrite (neighbors_remove_node _ _ _ _ HG').
  destruct (decide (w = anchor)) as [->|Hwa]; [by rewrite Hempty|].
  assert (Hdel : forall x e, delete anchor (<[anchor := e]> (neighbors G x))
                            = neighbors G x).
  { intros x e. rewrite delete_insert_eq. by apply delete_id. }
  assert (Hdel' : forall x, delete anchor (neighbors G x) = neighbors G x).
  { intros x. by apply delete_id. }
  rewrite with_anchor_unfold.
  rewrite !neighbors_add_edge, !neighbors_add_node, !neighbors_add_edge,
    !neighbors_add_node.
  repeat (case_decide; simplify_eq);
    rewrite ?Hdel, ?Hdel', ?delete_insert_eq, ?Hdel'; try done;
    exfalso;
    repeat match goal with
           | H : ¬ is_Some _ |- _ => apply H; clear H
           end;
    rewrite ?lookup_insert_is_Some'; try (by left); try (right; by left);
    try (right; right; by left).
Qed.

Lemma same_neighbors_anchor_free_neighbors G G' :
  same_neighbors G' G -> anchor_free G ->
  neighbors G' anchor = ∅ /\ forall v, neighbors G' v !! anchor = None.
Proof.
  intros Hsame (Hempty & Hfree & _)%anchor_free_neighbors.
  split; [by rewrite Hsame|]. intros v. by rewrite Hsame.
Qed.

(** *** Weights and reachability with the anchor in place *)

Lemma nonneg_nbrs_insert (nbrs : gmap node (option Q)) u (d : Q) :
  (0 <= d)%Q -> nonneg_nbrs nbrs -> nonneg_nbrs (<[u := Some d]> nbrs).
Proof.
  intros Hd Hn. apply map_Forall_insert_2; [|done].
  by apply Qle_bool_iff.
Qed.

Lemma nonneg_add_edge (G : Graph) u v d :
  (0 <= d)%Q ->
  (forall w, nonneg_nbrs (neighbors G w)) ->
  forall w, nonneg_nbrs (neighbors (add_edge G u v d) w).
Proof.
  intros Hd Hn w. rewrite neighbors_add_edge.
  repeat case_decide; repeat apply nonneg_nbrs_insert; done.
Qed.

Lemma nonneg_add_node (G : Graph) n :
  (forall w, nonneg_nbrs (neighbors G w)) ->
  forall w, nonneg_nbrs (neighbors (add_node G n) w).
Proof. intros Hn w. by rewrite neighbors_add_node. Qed.

Lemma nonneg_with_anchor (G : Graph) l r ld rd :
  (0 <= ld)%Q -> (0 <= rd)%Q ->
  (forall w, nonneg_nbrs (neighbors G w)) ->
  forall w, nonneg_nbrs (neighbors (with_anchor G l r ld rd) w).
Proof.
  intros Hld Hrd Hn. rewrite with_anchor_unfold.
  apply nonneg_add_edge; [done|]. apply nonneg_add_node.
  apply nonneg_add_edge; [done|]. by apply nonneg_add_node.
Qed.

(** A set of nodes that contains the source and the neighbours of its
    members contains every reachable node. *)
Lemma reachable_closed (G : Graph) (S : gset node) s t :
  s ∈ S ->
  set_Forall (fun u => dom (neighbors G u) ⊆ S) S ->
  reachable G s t -> t ∈ S.
Proof.
  intros Hs Hclosed Hreach. induction Hreach as [|u v t Huv _ IH]; [done|].
  apply IH. apply (Hclosed u Hs). by apply elem_of_dom.
Qed.

End GraphProps.
(** ** The object store: what a call may change *)

Module FrameProps.
Import TrackGraph Scenario SolverSpec.

Lemma frame_weaken {A} n (Q Q' : A -> Prop) m :
  (forall a, Q a -> Q' a) -> frame n Q m -> frame n Q' m.
Proof.
  intros HQ Hm h Hn. destruct (Hm h Hn) as (H1 & H2 & H3).
  repeat split; [done..|]. intros a Ha. by apply HQ, H3.
Qed.

Lemma frame_ret {A} n (Q : A -> Prop) a : Q a -> frame n Q (mret a).
Proof. intros Ha h Hn. repeat split; [done..|]. by intros a' [= <-]. Qed.

Lemma frame_lift {A} n (r : result A) : frame n (fun _ => True) (lift r).
Proof. intros h Hn. by repeat split. Qed.

Lemma frame_bind {A B} n (Q : A -> Prop) (Q' : B -> Prop)
    (m : M A) (k : A -> M B) :
  frame n Q m -> (forall a, Q a -> frame n Q' (k a)) ->
  frame n Q' (m ≫= k).
Proof.
  intros Hm Hk h Hn. destruct (Hm h Hn) as (H1 & H2 & H3).
  unfold mbind, M_bind. destruct (m h) as [[a|e] h1]; simpl in *.
  - destruct (Hk a (H3 a eq_refl) h1 H2) as (K1 & K2 & K3).
    split; [by rewrite K1|]. by split.
  - by repeat split.
Qed.

Lemma frame_mmap {A B} n (f : A -> M B) (xs : list A) :
  (forall x, frame n (fun _ => True) (f x)) ->
  frame n (fun _ => True) (mmap f xs).
Proof.
  intros Hf. induction xs as [|x xs IH]; simpl.
  - by apply frame_ret.
  - eapply frame_bind; [apply Hf|]. intros y _.
    eapply frame_bind; [apply IH|]. intros ys _. by apply frame_ret.
Qed.

Lemma frame_insert n c (G : Graph) (h : heap) :
  n <= c -> n <= length h ->
  take n (<[c := G]> h) = take n h /\ n <= length (<[c := G]> h).
Proof.
  intros Hc Hn. split; [by apply take_insert_ge|by rewrite length_insert].
Qed.

Lemma frame_add_path n c nodes d :
  n <= c -> frame n (fun _ => True) (nx_add_path c nodes d).
Proof.
  intros Hc h Hn. unfold nx_add_path. simpl.
  destruct (frame_insert n c (add_path (graph_at h c) nodes d) h Hc Hn).
  by repeat split.
Qed.

Lemma frame_remove_node n c v :
  n <= c -> frame n (fun _ => True) (nx_remove_node c v).
Proof.
  intros Hc h Hn. unfold nx_remove_node.
  destruct (remove_node (graph_at h c) v) as [G'|e]; simpl.
  - destruct (frame_insert n c G' h Hc Hn). by repeat split.
  - by repeat split.
Qed.

Lemma frame_dijkstra n c source :
  frame n (fun _ => True) (nx_single_source_dijkstra_path_length c source).
Proof. intros h Hn. by repeat split. Qed.

(** [nx_copy] allocates: the new reference is beyond the framed objects. *)
Lemma frame_copy n g : frame n (fun c => n <= c) (nx_copy g).
Proof.
  intros h Hn. unfold nx_copy. simpl. split; [|split].
  - by rewrite take_app_le.
  - rewrite length_app. lia.
  - by intros a [= <-].
Qed.

Lemma frame_get_distance2 n c l r ld rd centers :
  n <= c -> frame n (fun _ => True) (get_distance2 c l r ld rd centers).
Proof.
  intros Hc. unfold get_distance2.
  eapply frame_bind; [by apply frame_add_path|]. intros _ _.
  eapply frame_bind; [by apply frame_add_path|]. intros _ _.
  eapply frame_bind; [by apply frame_dijkstra|]. intros dist _.
  eapply frame_bind; [by apply frame_remove_node|]. intros _ _.
  apply frame_lift.
Qed.

Lemma frame_batch_distance n g lid rid ld rd centers :
  frame n (fun _ => True) (batch_distance g lid rid ld rd centers).
Proof.
  unfold batch_distance.
  eapply frame_bind; [apply frame_copy|]. intros c Hc.
  eapply frame_bind.
  - apply frame_mmap. intros [[[l r] dl] dr]. by apply frame_get_distance2.
  - intros rows _. apply frame_lift.
Qed.

Lemma frame_convert n bs lp g nodes_df :
  frame n (fun _ => True) (convert_with_batch_size bs lp g nodes_df).
Proof.
  unfold convert_with_batch_size.
  eapply frame_bind; [apply frame_lift|].
  intros [[[[lid rid] ld] rd] centers] _.
  eapply frame_bind; [apply frame_lift|]. intros ranges _.
  apply (frame_bind n (fun _ => True)); [|intros blocks _; apply frame_lift].
  unfold dask_compute. induction ranges as [|rg ranges IH]; simpl.
  - by apply frame_ret.
  - eapply frame_bind; [apply frame_batch_distance|]. intros y _.
    eapply frame_bind; [apply IH|]. intros ys _. by apply frame_ret.
Qed.

(** C9. [convert_linear_position_to_track_distances] never mutates the
    caller's track graph: whatever the positions, the node table and the
    outcome (a distance matrix or an exception), the store after the call
    is the store before it followed by the private copies the batches
    allocated; so the object [track_graph] refers to, with its nodes,
    edges and weights, is the one it was before, and the anchor was only
    ever inserted into and removed from the copies. *)
Theorem convert_never_mutates_track_graph
    (lp : list Q) (track_graph : nat) (nodes_df : list node_row)
    (h : heap) (G : Graph) :
  h !! track_graph = Some G ->
  (exists copies,
     (convert_linear_position_to_track_distances lp track_graph nodes_df h).2
     = h ++ copies)
  /\ (convert_linear_position_to_track_distances lp track_graph nodes_df h).2
       !! track_graph = Some G.
Proof.
  intros HG.
  destruct (frame_convert (length h) default_batch_size lp track_graph
                          nodes_df h (le_n _)) as (H1 & H2 & _).
  fold (convert_linear_position_to_track_distances lp track_graph nodes_df)
    in H1, H2.
  set (h' := (convert_linear_position_to_track_distances
                lp track_graph nodes_df h).2) in *.
  rewrite firstn_all in H1.
  assert (Hh' : h' = h ++ drop (length h) h').
  { by rewrite <- H1 at 1; rewrite take_drop. }
  split; [by eexists|].
  rewrite Hh'. apply lookup_app_l_Some, HG.
Qed.

Lemma convert_never_mutates_track_graph_witness :
  (exists copies,
     (convert_linear_position_to_track_distances
        [0%Q; 5 # 2; 10%Q] 0 path3_df [path3]).2
     = [path3] ++ copies)
  /\ (convert_linear_position_to_track_distances
        [0%Q; 5 # 2; 10%Q] 0 path3_df [path3]).2 !! 0 = Some path3.
Proof.
  apply (convert_never_mutates_track_graph
           [0%Q; 5 # 2; 10%Q] 0 path3_df [path3] path3).
  reflexivity.
Defined.

End FrameProps.
(** ** Dijkstra's loop *)

Module DijkstraProps.
Import TrackGraph SolverSpec GraphProps.

(** The loop reads the graph through the adjacency function only. *)
Lemma dijkstra_loop_ext fuel (succ1 succ2 : node -> gmap node (option Q))
    dist seen fringe c :
  (forall v, succ1 v = succ2 v) ->
  dijkstra_loop fuel succ1 dist seen fringe c
  = dijkstra_loop fuel succ2 dist seen fringe c.
Proof.
  intros Hext. revert dist seen fringe c.
  induction fuel as [|fuel IH]; intros dist seen fringe c; simpl; [done|].
  destruct fringe as [|[[d c0] v] fringe']; [done|].
  destruct (dist !! v); [apply IH|].
  rewrite Hext.
  destruct (rfoldl _ _ _) as [[[seen' fringe''] c']|e]; [apply IH|done].
Qed.

(** *** The heap *)

Lemma length_heappush fringe x : length (heappush fringe x) = S (length fringe).
Proof.
  induction fringe as [|y rest IH]; simpl; [done|].
  destruct (entry_lt x y); simpl; [done|by rewrite IH].
Qed.

Lemma elem_of_heappush fringe x e :
  e ∈ heappush fringe x <-> e = x \/ e ∈ fringe.
Proof.
  induction fringe as [|y rest IH]; simpl.
  - rewrite list_elem_of_singleton. split; [by left|].
    intros [?|H]; [done|]. by apply elem_of_nil in H.
  - destruct (entry_lt x y).
    + by rewrite elem_of_cons.
    + rewrite !elem_of_cons, IH. tauto.
Qed.

(** *** One adjacency scan *)

Lemma relax_scan dist d (l : list (node * option Q)) seen fringe c
    seen' fringe' c' :
  rfoldl (relax dist d) (seen, fringe, c) l = Ok (seen', fringe', c') ->
  length fringe' <= length fringe + length l /\
  forall e, e ∈ fringe' -> e ∈ fringe \/ e.2 ∈ map fst l.
Proof.
  revert seen fringe c.
  induction l as [|[u w] l IH]; intros seen fringe c; cbn [rfoldl].
  - intros [= <- <- <-]. split; [simpl; lia|]. intros e He. by left.
  - destruct (relax dist d (seen, fringe, c) (u, w))
      as [[[seen1 fringe1] c1]|] eqn:Hrelax; [|done].
    intros Hrest. destruct (IH _ _ _ Hrest) as [Hlen Hin].
    assert (Hstep : length fringe1 <= S (length fringe) /\
                    forall e, e ∈ fringe1 -> e ∈ fringe \/ e.2 = u).
    { unfold relax in Hrelax.
      destruct (dist !! u).
      - destruct (Qltb _ _); [done|]. injection Hrelax as <- <- <-.
        split; [lia|]. intros e He. by left.
      - assert (Hpush : forall x e,
                   e ∈ heappush fringe (x, c, u) -> e ∈ fringe \/ e.2 = u).
        { intros x e [->|He]%elem_of_heappush; [by right|by left]. }
        destruct (seen !! u) as [s|]; [destruct (Qltb _ s)|];
          injection Hrelax as <- <- <-;
          rewrite ?length_heappush; (split; [lia|]);
          first [apply Hpush | (intros e He; by left)]. }
    destruct Hstep as [Hlen1 Hin1]. split; [simpl; lia|]. cbn [map fst].
    intros e He. destruct (Hin e He) as [He1|He1].
    + destruct (Hin1 e He1) as [? | ->]; [by left|].
      right. apply list_elem_of_here.
    + right. by apply list_elem_of_further.
Qed.

(** *** Enough fuel *)

Lemma size_neighbors_le (G : Graph) v : size (neighbors G v) <= max_degree G.
Proof.
  unfold neighbors, max_degree. destruct (G !! v) as [nbrs|] eqn:Hv; simpl.
  - apply max_list_elem_of_le. apply list_elem_of_In, in_map_iff.
    exists (v, nbrs). split; [done|].
    by apply list_elem_of_In, elem_of_map_to_list.
  - rewrite map_size_empty. lia.
Qed.

Lemma neighbors_in_universe (G : Graph) source v u :
  is_Some (neighbors G v !! u) -> u ∈ universe G source.
Proof.
  unfold neighbors, universe. destruct (G !! v) as [nbrs|] eqn:Hv; simpl.
  - intros Hu. apply elem_of_union_r, elem_of_union_list.
    exists (dom nbrs). split; [|by apply elem_of_dom].
    apply list_elem_of_In, in_map_iff. exists (v, nbrs). split; [done|].
    by apply list_elem_of_In, elem_of_map_to_list.
  - rewrite lookup_empty. by intros [? ?].
Qed.

Lemma potential_nil_fringe G source dist fringe :
  potential G source dist fringe = 0 -> fringe = [].
Proof.
  unfold potential. destruct fringe; [done|]. simpl. lia.
Qed.

Lemma size_universe_finalise (U : gset node) (dist : gmap node Q) v d :
  v ∈ U -> dist !! v = None ->
  S (size (U ∖ dom (<[v := d]> dist))) <= size (U ∖ dom dist).
Proof.
  intros HU Hv. apply Nat.le_succ_l, subset_size.
  rewrite dom_insert_L. apply not_elem_of_dom in Hv. split.
  - intros u [Hu Hnu]%elem_of_difference. apply elem_of_difference.
    split; [done|]. intros Hd. apply Hnu, elem_of_union. by right.
  - intros Hsub. specialize (Hsub v). rewrite !elem_of_difference in Hsub.
    destruct Hsub as [_ Hnv]; [done|]. apply Hnv, elem_of_union. left.
    by apply elem_of_singleton.
Qed.

(** Any two amounts of fuel that are at least the potential give the same
    result: the loop has ended before either runs out. *)
Lemma dijkstra_loop_enough_fuel (G : Graph) source fuel1 :
  forall fuel2 dist seen fringe c,
    (forall e, e ∈ fringe -> e.2 ∈ universe G source) ->
    potential G source dist fringe <= fuel1 ->
    potential G source dist fringe <= fuel2 ->
    dijkstra_loop fuel1 (neighbors G) dist seen fringe c
    = dijkstra_loop fuel2 (neighbors G) dist seen fringe c.
Proof.
  induction fuel1 as [|fuel1 IH]; intros fuel2 dist seen fringe c HU H1 H2.
  - rewrite (potential_nil_fringe G source dist fringe) by lia.
    by destruct fuel2.
  - destruct fuel2 as [|fuel2].
    { rewrite (potential_nil_fringe G source dist fringe) by lia. done. }
    simpl. destruct fringe as [|[[d c0] v] fringe']; [done|].
    assert (HU' : forall e, e ∈ fringe' -> e.2 ∈ universe G source).
    { intros e He. apply HU. by apply list_elem_of_further. }
    assert (Hv : v ∈ universe G source).
    { apply (HU (d, c0, v)), list_elem_of_here. }
    unfold potential in H1, H2. simpl in H1, H2.
    destruct (dist !! v) eqn:Hdv.
    + apply IH; [done|unfold potential; lia..].
    + destruct (rfoldl _ _ _) as [[[seen' fringe''] c']|e] eqn:Hscan; [|done].
      apply relax_scan in Hscan as [Hlen Hin].
      rewrite length_map_to_list in Hlen.
      pose proof (size_neighbors_le G v) as Hdeg.
      pose proof (size_universe_finalise _ dist v d Hv Hdv) as Hsize.
      apply IH.
      * intros e He. destruct (Hin e He) as [?|Hnb]; [by apply HU'|].
        apply (neighbors_in_universe G source v).
        apply In_keys. exact Hnb.
      * unfold potential. nia.
      * unfold potential. nia.
Qed.

(** Graphs with the same adjacency give the same distances. *)
Lemma dijkstra_same_neighbors (G G' : Graph) source :
  same_neighbors G G' ->
  is_Some (G !! source) -> is_Some (G' !! source) ->
  single_source_dijkstra_path_length G source
  = single_source_dijkstra_path_length G' source.
Proof.
  intros Hsame [? HG] [? HG'].
  unfold single_source_dijkstra_path_length. rewrite HG, HG'.
  set (f := Nat.max (dijkstra_fuel G source) (dijkstra_fuel G' source)).
  assert (Hinit : forall G0 : Graph, forall e : Q * nat * node,
             e ∈ [(0%Q, O, source)] -> e.2 ∈ universe G0 source).
  { intros G0 e ->%list_elem_of_singleton. unfold universe. set_solver. }
  assert (Hpot : forall G0 : Graph,
             potential G0 source ∅ [(0%Q, O, source)] <= dijkstra_fuel G0 source).
  { intros G0. unfold potential, dijkstra_fuel.
    rewrite dom_empty_L, difference_empty_L. simpl. lia. }
  rewrite (dijkstra_loop_enough_fuel G source _ f);
    [|apply Hinit|apply Hpot|pose proof (Hpot G); lia].
  rewrite (dijkstra_loop_enough_fuel G' source _ f);
    [|apply Hinit|apply Hpot|pose proof (Hpot G'); lia].
  by apply dijkstra_loop_ext.
Qed.

(** *** Only reachable nodes get a distance *)

Lemma dijkstra_loop_sound (G : Graph) source fuel :
  forall dist seen fringe c dist',
    (forall v, is_Some (dist !! v) -> reachable G source v) ->
    (forall e, e ∈ fringe -> reachable G source e.2) ->
    dijkstra_loop fuel (neighbors G) dist seen fringe c = Ok dist' ->
    forall v, is_Some (dist' !! v) -> reachable G source v.
Proof.
  induction fuel as [|fuel IH]; intros dist seen fringe c dist' Hdist Hfr;
    cbn [dijkstra_loop].
  - by intros [= <-].
  - destruct fringe as [|[[d c0] v] fringe']; [by intros [= <-]|].
    assert (Hv : reachable G source v).
    { apply (Hfr (d, c0, v)), list_elem_of_here. }
    assert (Hfr' : forall e, e ∈ fringe' -> reachable G source e.2).
    { intros e He. by apply Hfr, list_elem_of_further. }
    destruct (dist !! v) eqn:Hdv; [by apply IH|].
    destruct (rfoldl _ _ _) as [[[seen' fringe''] c']|e] eqn:Hscan; [|done].
    apply relax_scan in Hscan as [_ Hin].
    apply IH.
    + intros u [du Hu]. destruct (decide (u = v)) as [->|Hne]; [done|].
      rewrite lookup_insert_ne in Hu by done. by apply Hdist.
    + intros e He. destruct (Hin e He) as [?|Hnb]; [by apply Hfr'|].
      apply In_keys in Hnb.
      eapply rtc_r; [exact Hv|exact Hnb].
Qed.

Lemma dijkstra_sound (G : Graph) source dist v :
  single_source_dijkstra_path_length G source = Ok dist ->
  is_Some (dist !! v) -> reachable G source v.
Proof.
  unfold single_source_dijkstra_path_length.
  destruct (G !! source); [|done]. intros Hloop.
  eapply dijkstra_loop_sound; [| |exact Hloop].
  - intros u. rewrite lookup_empty. by intros [? ?].
  - intros e ->%list_elem_of_singleton. apply rtc_refl.
Qed.

(** *** Non-negative weights: the loop never raises *)

Lemma Qltb_false_of_le (x y : Q) : (y <= x)%Q -> Qltb x y = false.
Proof.
  intros H. unfold Qltb. apply negb_false_iff. by apply Qle_bool_iff.
Qed.

Lemma entry_lt_le x y : entry_lt x y = true -> fringe_le x y.
Proof.
  destruct x as [[d1 c1] v1], y as [[d2 c2] v2]. unfold entry_lt, fringe_le.
  simpl. intros [H|[H _]%andb_true_iff]%orb_true_iff.
  - unfold Qltb in H. apply negb_true_iff in H.
    apply Qlt_le_weak, Qnot_le_lt. intros Hle.
    apply Qle_bool_iff in Hle. congruence.
  - apply Qeq_bool_iff in H. apply Qle_lteq. by right.
Qed.

Lemma entry_lt_false_le x y : entry_lt x y = false -> fringe_le y x.
Proof.
  destruct x as [[d1 c1] v1], y as [[d2 c2] v2]. unfold entry_lt, fringe_le.
  simpl. intros [H _]%orb_false_iff.
  unfold Qltb in H. apply negb_false_iff in H. by apply Qle_bool_iff.
Qed.

Lemma fringe_le_trans x y z : fringe_le x y -> fringe_le y z -> fringe_le x z.
Proof. unfold fringe_le. apply Qle_trans. Qed.

Lemma heappush_sorted fringe x :
  StronglySorted fringe_le fringe ->
  StronglySorted fringe_le (heappush fringe x).
Proof.
  induction fringe as [|y rest IH]; intros Hs; simpl.
  - repeat constructor.
  - apply StronglySorted_inv in Hs as [Hrest Hy].
    destruct (entry_lt x y) eqn:Hlt.
    + constructor; [by constructor|].
      constructor; [by apply entry_lt_le|].
      eapply List.Forall_impl; [|exact Hy].
      intros z Hz. eapply fringe_le_trans; [by apply entry_lt_le|done].
    + constructor; [by apply IH|].
      apply List.Forall_forall. intros z Hz.
      apply list_elem_of_In, elem_of_heappush in Hz as [->|Hz].
      * by apply entry_lt_false_le.
      * rewrite List.Forall_forall in Hy. by apply Hy, list_elem_of_In.
Qed.

Lemma relax_scan_nonneg dist d (l : list (node * option Q)) :
  (forall u e, (u, e) ∈ l -> Qle_bool 0 (edge_weight e) = true) ->
  (forall u du, dist !! u = Some du -> (du <= d)%Q) ->
  forall seen fringe c,
    StronglySorted fringe_le fringe ->
    (forall x, x ∈ fringe -> (d <= x.1.1)%Q) ->
    exists seen' fringe' c',
      rfoldl (relax dist d) (seen, fringe, c) l = Ok (seen', fringe', c') /\
      StronglySorted fringe_le fringe' /\
      (forall x, x ∈ fringe' -> (d <= x.1.1)%Q).
Proof.
  intros Hw Hdist. induction l as [|[u e] l IH]; intros seen fringe c Hs Hd;
    cbn [rfoldl].
  - by eexists _, _, _.
  - assert (Hl : forall u' e', (u', e') ∈ l ->
                   Qle_bool 0 (edge_weight e') = true).
    { intros u' e' Hin. apply (Hw u' e'). by apply list_elem_of_further. }
    assert (Hvu : (d <= d + edge_weight e)%Q).
    { assert (H0 : (0 <= edge_weight e)%Q).
      { apply Qle_bool_iff, (Hw u e), list_elem_of_here. }
      rewrite <- (Qplus_0_r d) at 1. by apply Qplus_le_r. }
    assert (Hpush : exists seen' fringe' c',
               rfoldl (relax dist d)
                 (<[u := (d + edge_weight e)%Q]> seen,
                  heappush fringe ((d + edge_weight e)%Q, c, u), S c) l
               = Ok (seen', fringe', c') /\
               StronglySorted fringe_le fringe' /\
               (forall x, x ∈ fringe' -> (d <= x.1.1)%Q)).
    { apply (IH Hl); [by apply heappush_sorted|].
      intros x [->|Hx]%elem_of_heappush; [done|by apply Hd]. }
    unfold relax at 1.
    destruct (dist !! u) as [u_dist|] eqn:Hu.
    + rewrite Qltb_false_of_le; [by apply (IH Hl)|].
      eapply Qle_trans; [by apply (Hdist u)|done].
    + destruct (seen !! u) as [s|]; [|done].
      destruct (Qltb _ s); [done|by apply (IH Hl)].
Qed.

Lemma nonneg_nbrs_list (nbrs : gmap node (option Q)) u e :
  nonneg_nbrs nbrs -> (u, e) ∈ map_to_list nbrs ->
  Qle_bool 0 (edge_weight e) = true.
Proof. intros Hn Hin. apply elem_of_map_to_list in Hin. by apply (Hn u). Qed.

Lemma dijkstra_loop_nonneg (G : Graph) fuel :
  (forall v, nonneg_nbrs (neighbors G v)) ->
  forall dist seen fringe c,
    StronglySorted fringe_le fringe ->
    (forall u du, dist !! u = Some du ->
                  forall x, x ∈ fringe -> (du <= x.1.1)%Q) ->
    exists dist', dijkstra_loop fuel (neighbors G) dist seen fringe c = Ok dist'.
Proof.
  intros Hnn. induction fuel as [|fuel IH]; intros dist seen fringe c Hs Hd;
    cbn [dijkstra_loop]; [by eexists|].
  destruct fringe as [|[[d c0] v] fringe']; [by eexists|].
  apply StronglySorted_inv in Hs as [Hs' Hhead].
  rewrite List.Forall_forall in Hhead.
  assert (Hd' : forall u du, dist !! u = Some du ->
                  forall x, x ∈ fringe' -> (du <= x.1.1)%Q).
  { intros u du Hu x Hx. apply (Hd u du Hu). by apply list_elem_of_further. }
  destruct (dist !! v) eqn:Hdv; [by apply IH|].
  assert (Hle : forall u du, <[v := d]> dist !! u = Some du -> (du <= d)%Q).
  { intros u du. destruct (decide (u = v)) as [->|Hne].
    - rewrite lookup_insert_eq. intros [= <-]. apply Qle_refl.
    - rewrite lookup_insert_ne by done. intros Hu.
      apply (Hd u du Hu (d, c0, v)), list_elem_of_here. }
  destruct (relax_scan_nonneg (<[v := d]> dist) d
              (map_to_list (neighbors G v))
              (fun u e => nonneg_nbrs_list _ u e (Hnn v)) Hle
              seen fringe' c Hs')
    as (seen' & fringe'' & c' & Hscan & Hs'' & Hd'').
  { intros x Hx. apply (Hhead x). by apply list_elem_of_In. }
  rewrite Hscan. apply IH; [done|].
  intros u du Hu x Hx. eapply Qle_trans; [by apply (Hle u)|by apply Hd''].
Qed.

Lemma nonneg_weights_neighbors (G : Graph) :
  nonneg_weights G <-> forall v, nonneg_nbrs (neighbors G v).
Proof.
  unfold nonneg_weights, neighbors. split.
  - intros H v. destruct (G !! v) as [nbrs|] eqn:Hv; simpl.
    + by apply (H v).
    + apply map_Forall_empty.
  - intros H v nbrs Hv. specialize (H v). by rewrite Hv in H.
Qed.

Lemma dijkstra_nonneg (G : Graph) source :
  (forall v, nonneg_nbrs (neighbors G v)) ->
  is_Some (G !! source) ->
  exists dist, single_source_dijkstra_path_length G source = Ok dist.
Proof.
  intros Hnn [? Hs]. unfold single_source_dijkstra_path_length. rewrite Hs.
  apply dijkstra_loop_nonneg; [done|repeat constructor|].
  intros u du. by rewrite lookup_empty.
Qed.

End DijkstraProps.
(** ** The distance solver *)

Module SolverProps.
Import TrackGraph Scenario SolverSpec SetupProps GraphProps DijkstraProps FrameProps.

(** *** One call of [get_distance2] *)

Lemma graph_at_insert (h : heap) c (G : Graph) :
  c < length h -> graph_at (<[c := G]> h) c = G.
Proof. intros Hc. unfold graph_at. by rewrite list_lookup_insert_eq. Qed.

(** [get_distance2] on the object [c], step by step. *)
Lemma get_distance2_unfold (h : heap) c (Gc : Graph) l r ld rd centers :
  h !! c = Some Gc ->
  get_distance2 c l r ld rd centers h
  = match single_source_dijkstra_path_length
            (with_anchor Gc l r ld rd) anchor with
    | Raise e => (Raise e, <[c := with_anchor Gc l r ld rd]> h)
    | Ok dist =>
        match remove_node (with_anchor Gc l r ld rd) anchor with
        | Raise e => (Raise e, <[c := with_anchor Gc l r ld rd]> h)
        | Ok G' => (rmap (dict_get dist) centers, <[c := G']> h)
        end
    end.
Proof.
  intros Hc.
  assert (Hlen : c < length h) by (by eapply lookup_lt_Some).
  assert (Hg1 : graph_at h c = Gc) by (unfold graph_at; by rewrite Hc).
  unfold get_distance2, mbind, M_bind, nx_add_path,
    nx_single_source_dijkstra_path_length, nx_remove_node, lift.
  rewrite Hg1. rewrite (graph_at_insert h c) by done.
  rewrite list_insert_insert_eq.
  rewrite (graph_at_insert h c) by done.
  change (add_path (add_path Gc [l; anchor] ld) [anchor; r] rd)
    with (with_anchor Gc l r ld rd).
  destruct (single_source_dijkstra_path_length _ _) as [dist|e]; [|done].
  destruct (remove_node _ _) as [G'|e]; [|done].
  by rewrite list_insert_insert_eq.
Qed.

(** On a graph object whose adjacency is that of an anchor-free [G],
    [get_distance2] returns what [solve_row] computes on [G], and, when it
    returns a row, leaves the object with the adjacency of [G] again. *)
Lemma get_distance2_run (h : heap) c (Gc G : Graph) l r ld rd centers :
  h !! c = Some Gc ->
  same_neighbors Gc G ->
  anchor_free G ->
  (get_distance2 c l r ld rd centers h).1
  = solve_row G centers (l, r, ld, rd)
  /\ exists Gc',
       (get_distance2 c l r ld rd centers h).2 = <[c := Gc']> h /\
       (forall row, (get_distance2 c l r ld rd centers h).1 = Ok row ->
                    same_neighbors Gc' G).
Proof.
  intros Hc Hsame Hfree.
  destruct (same_neighbors_anchor_free_neighbors _ _ Hsame Hfree)
    as [Hempty Hnone].
  destruct (remove_anchor_same_neighbors Gc l r ld rd Hempty Hnone)
    as (Gc3 & Hrm & Hsame3).
  destruct (anchor_free_neighbors G) as [Hf _].
  destruct (Hf Hfree) as (HemptyG & HnoneG & _).
  destruct (remove_anchor_same_neighbors G l r ld rd HemptyG HnoneG)
    as (G3 & HrmG & _).
  assert (Hdij : single_source_dijkstra_path_length
                   (with_anchor Gc l r ld rd) anchor
                 = single_source_dijkstra_path_length
                     (with_anchor G l r ld rd) anchor).
  { apply dijkstra_same_neighbors;
      [by apply same_neighbors_with_anchor|apply with_anchor_has_anchor..]. }
  rewrite (get_distance2_unfold h c Gc) by done.
  unfold solve_row. rewrite Hdij, Hrm, HrmG.
  destruct (single_source_dijkstra_path_length (with_anchor G l r ld rd) anchor)
    as [dist|e]; rsimpl; cbn [fst snd].
  - split; [done|]. exists Gc3. split; [done|]. intros _ _.
    by eapply same_neighbors_trans.
  - split; [done|]. eexists. split; [done|]. done.
Qed.

(** *** One batch *)

Lemma mmap_get_distance2_run (G : Graph) c centers
    (args : list (node * node * Q * Q)) :
  anchor_free G ->
  forall (h : heap) (Gc : Graph),
    h !! c = Some Gc ->
    same_neighbors Gc G ->
    (mmap (fun '(l_id, r_id, l_d, r_d) =>
             get_distance2 c l_id r_id l_d r_d centers) args h).1
    = rmap (solve_row G centers) args.
Proof.
  intros Hfree. induction args as [|[[[l r] ld] rd] args IH];
    intros h Gc Hc Hsame; [done|].
  cbn [mmap rmap]. unfold mbind at 1, M_bind.
  destruct (get_distance2_run h c Gc G l r ld rd centers Hc Hsame Hfree)
    as (Hres & Gc' & Hheap & Hok).
  destruct (get_distance2 c l r ld rd centers h) as [[row|e] h1] eqn:Hrun;
    cbn [fst snd] in *; rewrite <- Hres; [|done].
  assert (Hc' : h1 !! c = Some Gc').
  { rewrite Hheap. apply list_lookup_insert_eq. by eapply lookup_lt_Some. }
  specialize (IH h1 Gc' Hc' (Hok row eq_refl)).
  unfold mbind, M_bind.
  destruct (mmap _ args h1) as [[rows|e] h2]; cbn [fst snd] in *;
    by rewrite <- IH.
Qed.

Lemma batch_distance_run (h : heap) g (G : Graph) lid rid ld rd centers :
  h !! g = Some G ->
  anchor_free G ->
  (batch_distance g lid rid ld rd centers h).1
  = (rows ← rmap (solve_row G centers) (zip (zip (zip lid rid) ld) rd);
     np_stack rows).
Proof.
  intros Hg Hfree. unfold batch_distance, mbind at 1, M_bind, nx_copy.
  assert (HG : graph_at h g = G) by (unfold graph_at; by rewrite Hg).
  rewrite HG.
  pose proof (mmap_get_distance2_run G (length h) centers
                (zip (zip (zip lid rid) ld) rd) Hfree (h ++ [G]) G) as Hrun.
  rewrite <- Hrun; [|by rewrite lookup_app_r, Nat.sub_diag by lia|done].
  unfold mbind, M_bind, lift.
  by destruct (mmap _ _ (h ++ [G])) as [[rows|e] h1].
Qed.

(** *** All batches *)

Lemma index_range_zip {A B} (a : list A) (b : list B) rg :
  index_range (zip a b) rg = zip (index_range a rg) (index_range b rg).
Proof. unfold index_range. by rewrite zip_with_drop, zip_with_take. Qed.

Lemma batch_distance_keeps (h : heap) g (G : Graph) lid rid ld rd centers :
  h !! g = Some G ->
  (batch_distance g lid rid ld rd centers h).2 !! g = Some G.
Proof.
  intros Hg.
  assert (Hlen : S g <= length h) by (by eapply lookup_lt_Some).
  destruct (frame_batch_distance (S g) g lid rid ld rd centers h Hlen)
    as (Htake & _ & _).
  rewrite <- (lookup_take_lt _ (S g)) by lia.
  rewrite Htake. by rewrite lookup_take_lt by lia.
Qed.

Lemma dask_compute_run (G : Graph) g lid rid ld rd centers
    (ranges : list (nat * nat)) :
  anchor_free G ->
  forall h : heap,
    h !! g = Some G ->
    (dask_compute
       (map (fun time_ind =>
               batch_distance g (index_range lid time_ind)
                 (index_range rid time_ind) (index_range ld time_ind)
                 (index_range rd time_ind) centers) ranges) h).1
    = rmap (fun time_ind =>
              rows ← rmap (solve_row G centers)
                          (index_range (zip (zip (zip lid rid) ld) rd)
                                       time_ind);
              np_stack rows) ranges.
Proof.
  intros Hfree. unfold dask_compute.
  induction ranges as [|rg ranges IH]; intros h Hg; [done|].
  cbn [map mmap rmap]. unfold mbind at 1, M_bind.
  pose proof (batch_distance_run h g G (index_range lid rg)
                (index_range rid rg) (index_range ld rg)
                (index_range rd rg) centers Hg Hfree) as Hrun.
  pose proof (batch_distance_keeps h g G (index_range lid rg)
                (index_range rid rg) (index_range ld rg)
                (index_range rd rg) centers Hg) as Hkeep.
  rewrite <- !index_range_zip in Hrun.
  destruct (batch_distance _ _ _ _ _ _ h) as [[block|e] h1];
    cbn [fst snd] in *; rewrite <- Hrun; [|done].
  specialize (IH h1 Hkeep). revert IH.
  match goal with |- context [rmap ?F ranges] => generalize (rmap F ranges) end.
  intros res IH. unfold mbind, M_bind.
  destruct (mmap _ _ h1) as [[blocks|e] h2]; cbn [fst snd] in *;
    by rewrite <- IH.
Qed.

(** The ranges of [batch], read one after the other, are the indices
    [ind, ..., n_samples - 1] in order. *)
Lemma batch_from_partition n bs :
  0 < bs ->
  forall fuel ind,
    n - ind <= fuel ->
    concat (map (fun rg : nat * nat => seq rg.1 (rg.2 - rg.1))
                (batch_from fuel ind n bs))
    = seq ind (n - ind).
Proof.
  intros Hbs. induction fuel as [|fuel IH]; intros ind Hfuel.
  - by replace (n - ind) with 0 by lia.
  - cbn [batch_from]. destruct (Nat.ltb_spec ind n) as [Hlt|Hge].
    + cbn [map concat fst snd]. rewrite IH by lia.
      destruct (Nat.le_gt_cases (ind + bs) n) as [Hle|Hgt].
      * rewrite Nat.min_l by lia.
        replace (n - ind) with ((ind + bs - ind) + (n - (ind + bs))) by lia.
        rewrite seq_app. do 2 f_equal. lia.
      * rewrite Nat.min_r by lia.
        replace (n - (ind + bs)) with 0 by lia. by rewrite app_nil_r.
    + by replace (n - ind) with 0 by lia.
Qed.

Lemma batch_from_nil_iff n bs : batch_from n 0 n bs = [] <-> n = 0.
Proof. by destruct n. Qed.

(** Solving the ranges one after the other and concatenating the blocks
    is solving the rows from [ind] on. *)
Lemma batches_cover {B} (f : node * node * Q * Q -> result (list B))
    (args : list (node * node * Q * Q)) n bs :
  0 < bs -> length args = n ->
  forall fuel ind,
    n - ind <= fuel ->
    (blocks ← rmap (fun rg =>
                      match rmap f (index_range args rg) with
                      | Ok [] => Raise ValueError
                      | other => other
                      end)
                   (batch_from fuel ind n bs);
     Ok (concat blocks))
    = rmap f (drop ind args).
Proof.
  intros Hbs Hlen. induction fuel as [|fuel IH]; intros ind Hfuel.
  - rewrite drop_ge by lia. done.
  - cbn [batch_from]. destruct (Nat.ltb_spec ind n) as [Hlt|Hge];
      [|by rewrite drop_ge by lia].
    specialize (IH (ind + bs) ltac:(lia)).
    set (k := Nat.min (ind + bs) n - ind).
    assert (Hsplit : drop ind args
                     = index_range args (ind, Nat.min (ind + bs) n)
                       ++ drop (ind + bs) args).
    { unfold index_range. cbn [fst snd]. fold k.
      rewrite <- (take_drop k (drop ind args)) at 1. f_equal.
      rewrite drop_drop.
      destruct (Nat.le_gt_cases (ind + bs) n).
      - f_equal. lia.
      - rewrite !drop_ge; [done|lia..]. }
    assert (Hchunk : length (index_range args (ind, Nat.min (ind + bs) n)) <> 0).
    { unfold index_range. cbn [fst snd].
      rewrite length_take, length_drop. lia. }
    rewrite Hsplit, rmap_app, <- IH. cbn [rmap].
    destruct (rmap f (index_range args _)) as [rows|e] eqn:Hrows; [|done].
    apply rmap_length in Hrows.
    destruct rows as [|row rows]; [simpl in Hrows; lia|].
    destruct (rmap _ (batch_from fuel (ind + bs) n bs)) as [blocks|e];
      by rsimpl.
Qed.

(** With a positive batch size, on an anchor-free track graph, the call
    returns what [solve_all] computes on the graph: every row is solved on
    the caller's graph, whatever the batches. *)
Lemma convert_run bs lp g nodes_df (h : heap) (G : Graph) :
  0 < bs ->
  h !! g = Some G ->
  anchor_free G ->
  (convert_with_batch_size bs lp g nodes_df h).1 = solve_all G lp nodes_df.
Proof.
  intros Hbs Hg Hfree. unfold convert_with_batch_size, solve_all.
  unfold mbind at 1, M_bind, lift.
  destruct (_setup_distance lp nodes_df)
    as [[[[[lid rid] ld] rd] centers]|e] eqn:Hsetup; [|done].
  rsimpl. apply setup_distance_lengths in Hsetup
    as (Hlid & Hrid & Hld & Hrd).
  unfold batch. destruct (Nat.eqb_spec bs 0) as [->|_]; [lia|].
  unfold mbind at 1, M_bind.
  pose proof (dask_compute_run G g lid rid ld rd centers
                (batch_from (length lp) 0 (length lp) bs) Hfree h Hg) as Hrun.
  set (args := zip (zip (zip lid rid) ld) rd) in *.
  assert (Hargs : length args = length lp).
  { unfold args. rewrite !length_zip. lia. }
  pose proof (batches_cover (solve_row G centers) args (length lp) bs
                Hbs Hargs (length lp) 0 ltac:(lia)) as Hcover.
  rewrite drop_0 in Hcover.
  unfold mbind at 1, M_bind.
  assert (Hsame : forall rg,
             (rows ← rmap (solve_row G centers) (index_range args rg);
              np_stack rows)
             = match rmap (solve_row G centers) (index_range args rg) with
               | Ok [] => Raise ValueError
               | other => other
               end).
  { intros rg.
    destruct (rmap (solve_row G centers) (index_range args rg)) as [[|]|];
      reflexivity. }
  rewrite (rmap_ext _ _ _ (fun rg _ => Hsame rg)) in Hrun.
  destruct (dask_compute _ h) as [[blocks|e] h1]; cbn [fst snd] in *;
    rewrite <- Hrun in Hcover; rsimpl_in Hcover; rewrite <- Hcover; [|done].
  rsimpl. symmetry in Hrun. pose proof (rmap_length _ _ _ Hrun) as Hblocks.
  symmetry in Hcover. apply rmap_length in Hcover.
  destruct blocks as [|block blocks].
  - done.
  - cbn [np_concatenate]. destruct (concat (block :: blocks)) eqn:Hcat; [|done].
    simpl in Hcover, Hblocks.
    destruct (length lp) eqn:Hn; [|rewrite Hargs in Hcover; lia].
    simpl in Hblocks. lia.
Qed.

Lemma default_batch_size_pos : 0 < default_batch_size.
Proof. unfold default_batch_size. lia. Qed.

(** C7, as stated, fails for a track graph that already has a node ['a']:
    the first row of a batch sees the edges of that node, and removing the
    anchor deletes them from the batch's copy, so the later rows of the
    same batch do not.  Two queries at position 5 on [with_a]: with batch
    size 1 both rows are [[5, 2]]; with batch size 10_000 the second row is
    [[5, 5]]. *)
Lemma batch_size_matters_with_node_a :
  (convert_with_batch_size 1 [5%Q; 5%Q] 0 with_a_df [with_a]).1
  = Ok [[5%Q; 2%Q]; [5%Q; 2%Q]]
  /\ (convert_with_batch_size default_batch_size
                              [5%Q; 5%Q] 0 with_a_df [with_a]).1
     = Ok [[5%Q; 2%Q]; [5%Q; 5%Q]]
  /\ (convert_with_batch_size 1 [5%Q; 5%Q] 0 with_a_df [with_a]).1
     <> (convert_with_batch_size default_batch_size
                                 [5%Q; 5%Q] 0 with_a_df [with_a]).1.
Proof.
  assert (H1 : (convert_with_batch_size 1 [5%Q; 5%Q] 0 with_a_df [with_a]).1
               = Ok [[5%Q; 2%Q]; [5%Q; 2%Q]]) by (by vm_compute).
  assert (H2 : (convert_with_batch_size default_batch_size
                                        [5%Q; 5%Q] 0 with_a_df [with_a]).1
               = Ok [[5%Q; 2%Q]; [5%Q; 5%Q]]) by (by vm_compute).
  split; [done|]. split; [done|]. rewrite H1, H2. discriminate.
Qed.

(** C7, amended. For every position sequence, node table and track graph
    in which ['a'] is not a node, distance solving gives exactly the same
    result (distance matrix or exception) for every positive batch size,
    in particular for 1 and for the 10_000 of the source; and the batch
    generator's ranges, read in order, are the indices 0 .. n-1. *)
Theorem batch_size_invariance
    (lp : list Q) (g : nat) (nodes_df : list node_row) (h : heap)
    (G : Graph) (bs : nat) :
  h !! g = Some G ->
  anchor_free G ->
  0 < bs ->
  (convert_with_batch_size bs lp g nodes_df h).1
  = (convert_with_batch_size 1 lp g nodes_df h).1
  /\ (convert_linear_position_to_track_distances lp g nodes_df h).1
     = (convert_with_batch_size 1 lp g nodes_df h).1
  /\ exists ranges,
       batch (length lp) bs = Ok ranges /\
       concat (map (fun rg : nat * nat => seq rg.1 (rg.2 - rg.1)) ranges)
       = seq 0 (length lp).
Proof.
  intros Hg Hfree Hbs. split; [|split].
  - rewrite (convert_run bs lp g nodes_df h G) by done.
    rewrite (convert_run 1 lp g nodes_df h G); [done|lia|done|done].
  - unfold convert_linear_position_to_track_distances.
    rewrite (convert_run default_batch_size lp g nodes_df h G);
      [|apply default_batch_size_pos|done|done].
    rewrite (convert_run 1 lp g nodes_df h G); [done|lia|done|done].
  - exists (batch_from (length lp) 0 (length lp) bs). split.
    + unfold batch. by destruct (Nat.eqb_spec bs 0) as [->|_]; [lia|].
    + rewrite (batch_from_partition (length lp) bs Hbs) by lia.
      by rewrite Nat.sub_0_r.
Qed.

Lemma path3_anchor_free : anchor_free path3.
Proof.
  split; [reflexivity|].
  apply (bool_decide_unpack _). by vm_compute.
Defined.

Lemma batch_size_invariance_witness :
  (convert_with_batch_size 2 [0%Q; 5 # 2; 10%Q] 0 path3_df [path3]).1
  = (convert_with_batch_size 1 [0%Q; 5 # 2; 10%Q] 0 path3_df [path3]).1
  /\ (convert_linear_position_to_track_distances
        [0%Q; 5 # 2; 10%Q] 0 path3_df [path3]).1
     = (convert_with_batch_size 1 [0%Q; 5 # 2; 10%Q] 0 path3_df [path3]).1
  /\ exists ranges,
       batch (length [0%Q; 5 # 2; 10%Q]) 2 = Ok ranges /\
       concat (map (fun rg : nat * nat => seq rg.1 (rg.2 - rg.1)) ranges)
       = seq 0 (length [0%Q; 5 # 2; 10%Q]).
Proof.
  apply (batch_size_invariance [0%Q; 5 # 2; 10%Q] 0 path3_df [path3] path3 2).
  - reflexivity.
  - apply path3_anchor_free.
  - lia.
Defined.

(** *** Unreachable bin centers *)

Lemma dict_get_raises dist k e :
  dict_get dist k = Raise e -> e = KeyError k /\ dist !! k = None.
Proof. unfold dict_get. destruct (dist !! k); [done|]. by intros [= <-]. Qed.

(** With non-negative weights, a call of [get_distance2] runs Dijkstra to
    its end and then looks the bin centers up: it returns a row or raises
    the [KeyError] of a bin center that has no distance. *)
Lemma solve_row_lookup (G : Graph) centers l r dl dr :
  (forall v, nonneg_nbrs (neighbors G v)) ->
  (0 <= dl)%Q -> (0 <= dr)%Q ->
  exists dist,
    single_source_dijkstra_path_length (with_anchor G l r dl dr) anchor
    = Ok dist /\
    solve_row G centers (l, r, dl, dr) = rmap (dict_get dist) centers.
Proof.
  intros Hnn Hdl Hdr.
  destruct (dijkstra_nonneg (with_anchor G l r dl dr) anchor)
    as [dist Hdist];
    [by apply nonneg_with_anchor|apply with_anchor_has_anchor|].
  destruct (remove_node_is_Some _ _ (with_anchor_has_anchor G l r dl dr))
    as [G' HG'].
  exists dist. split; [done|].
  unfold solve_row. by rewrite Hdist, HG'.
Qed.

Lemma solve_row_raises (G : Graph) centers l r dl dr e :
  (forall v, nonneg_nbrs (neighbors G v)) ->
  (0 <= dl)%Q -> (0 <= dr)%Q ->
  solve_row G centers (l, r, dl, dr) = Raise e ->
  exists k, In k centers /\ e = KeyError k.
Proof.
  intros Hnn Hdl Hdr.
  destruct (solve_row_lookup G centers l r dl dr Hnn Hdl Hdr)
    as (dist & _ & ->).
  intros (k & Hk & [-> _]%dict_get_raises)%rmap_raises. by exists k.
Qed.

Lemma solve_row_unreachable (G : Graph) centers l r dl dr c :
  (forall v, nonneg_nbrs (neighbors G v)) ->
  (0 <= dl)%Q -> (0 <= dr)%Q ->
  In c centers ->
  ~ reachable (with_anchor G l r dl dr) anchor c ->
  exists e, solve_row G centers (l, r, dl, dr) = Raise e.
Proof.
  intros Hnn Hdl Hdr Hc Hunreach.
  destruct (solve_row_lookup G centers l r dl dr Hnn Hdl Hdr)
    as (dist & Hdist & ->).
  assert (Hnone : dict_get dist c = Raise (KeyError c)).
  { unfold dict_get. destruct (dist !! c) eqn:Hdc; [|done].
    destruct Hunreach. by eapply dijkstra_sound. }
  destruct (rmap_raises_somewhere _ _ _ _ Hc Hnone) as (k & e & _ & _ & Hmap).
  by exists e.
Qed.

(** C5, as stated, fails: on the disconnected track [split3] a query at
    position 1 is bracketed by the nodes 0 and 1, the bin center 2 cannot
    be reached from the anchor, and the call fails with the [KeyError] of
    the lookup [dist[id]], not with [GraphTopologyError]. *)
Lemma unreachable_bin_center_is_not_GraphTopologyError :
  (convert_linear_position_to_track_distances [1%Q] 0 split3_df [split3]).1
  = Raise (KeyError n2)
  /\ (convert_linear_position_to_track_distances [1%Q] 0 split3_df [split3]).1
     <> Raise GraphTopologyError.
Proof.
  assert (H : (convert_linear_position_to_track_distances
                 [1%Q] 0 split3_df [split3]).1 = Raise (KeyError n2))
    by (by vm_compute).
  split; [done|]. rewrite H. discriminate.
Qed.

(** C5, amended. On a track graph with non-negative weights and no node
    ['a'], whenever a bin center of the node table cannot be reached from
    the anchor inserted for one of the query positions, the whole call
    fails with a [KeyError] for a bin-center id (the failing lookup
    [dist[id]] of [get_distance2]): no distance matrix, not even a partial
    one, and no infinite distance is returned. *)
Theorem unreachable_bin_center_raises_KeyError
    (lp : list Q) (g : nat) (nodes_df : list node_row) (h : heap) (G : Graph)
    (lid rid : list node) (ld rd : list Q) (centers : list node)
    (i : nat) (l r : node) (dl dr : Q) (c : node) :
  h !! g = Some G ->
  anchor_free G ->
  nonneg_weights G ->
  _setup_distance lp nodes_df = Ok (lid, rid, ld, rd, centers) ->
  lid !! i = Some l -> rid !! i = Some r ->
  ld !! i = Some dl -> rd !! i = Some dr ->
  In c centers ->
  ~ reachable (with_anchor G l r dl dr) anchor c ->
  exists k,
    In k centers /\
    (convert_linear_position_to_track_distances lp g nodes_df h).1
    = Raise (KeyError k).
Proof.
  intros Hg Hfree Hnn0 Hsetup Hl Hr Hdl Hdr Hc Hun.
  pose proof (proj1 (nonneg_weights_neighbors G) Hnn0) as Hnn.
  unfold convert_linear_position_to_track_distances.
  rewrite (convert_run _ lp g nodes_df h G);
    [|apply default_batch_size_pos|done|done].
  unfold solve_all. rewrite Hsetup. rsimpl.
  destruct (setup_distance_nonneg _ _ _ _ _ _ _ Hsetup) as [Hld Hrd].
  set (args := zip (zip (zip lid rid) ld) rd).
  assert (Hi : args !! i = Some (l, r, dl, dr)).
  { unfold args. apply lookup_zip_with_Some. exists (l, r, dl), dr.
    split; [done|]. split; [|done].
    apply lookup_zip_with_Some. exists (l, r), dl.
    split; [done|]. split; [|done].
    apply lookup_zip_with_Some. by exists l, r. }
  destruct (solve_row_unreachable G centers l r dl dr c Hnn
              (Hld i dl Hdl) (Hrd i dr Hdr) Hc Hun) as [e He].
  assert (Hin : In (l, r, dl, dr) args).
  { apply list_elem_of_In, list_elem_of_lookup. by exists i. }
  destruct (rmap_raises_somewhere _ _ _ _ Hin He)
    as ([[[l' r'] dl'] dr'] & e' & Hin' & He' & Hmap).
  rewrite Hmap. rsimpl.
  apply list_elem_of_In, list_elem_of_lookup in Hin' as [j Hj].
  unfold args in Hj.
  apply lookup_zip_with_Some in Hj as (x1 & dr0 & [= <- <-] & Hj & Hdr').
  apply lookup_zip_with_Some in Hj as (x2 & dl0 & [= <- <-] & Hj & Hdl').
  apply solve_row_raises in He' as (k & Hk & ->);
    [by exists k|done|by apply (Hld j)|by apply (Hrd j)].
Qed.

Lemma split3_anchor_free : anchor_free split3.
Proof.
  split; [reflexivity|].
  apply (bool_decide_unpack _). by vm_compute.
Defined.

Lemma split3_nonneg_weights : nonneg_weights split3.
Proof. apply (bool_decide_unpack _). by vm_compute. Defined.

Lemma split3_unreachable :
  ~ reachable (with_anchor split3 n0 n1 1 1) anchor n2.
Proof.
  intros Hreach.
  apply (reachable_closed _ {[anchor; n0; n1]}) in Hreach.
  - revert Hreach. apply (bool_decide_unpack _). by vm_compute.
  - apply (bool_decide_unpack _). by vm_compute.
  - apply (bool_decide_unpack _). by vm_compute.
Defined.

Lemma unreachable_bin_center_raises_KeyError_witness :
  exists k,
    In k [n0; n1; n2] /\
    (convert_linear_position_to_track_distances [1%Q] 0 split3_df [split3]).1
    = Raise (KeyError k).
Proof.
  apply (unreachable_bin_center_raises_KeyError
           [1%Q] 0 split3_df [split3] split3
           [n0] [n1] [1%Q] [1%Q] [n0; n1; n2] 0 n0 n1 1%Q 1%Q n2).
  - reflexivity.
  - apply split3_anchor_free.
  - apply split3_nonneg_weights.
  - by vm_compute.
  - reflexivity.
  - reflexivity.
  - reflexivity.
  - reflexivity.
  - simpl. tauto.
  - apply split3_unreachable.
Defined.

End SolverProps.
(** * Further properties

    ** Dijkstra returns shortest distances *)

Module ShortestProps.
Import TrackGraph Scenario SolverSpec Paths.
Import GraphProps DijkstraProps.

Lemma covered_weaken dist fringe u b b' :
  (b <= b')%Q -> covered dist fringe u b -> covered dist fringe u b'.
Proof.
  intros Hb [(d & Hd & Hle)|(x & Hx & Hu & Hle)].
  - left. exists d. split; [done|]. by eapply Qle_trans.
  - right. exists x. repeat split; [done..|]. by eapply Qle_trans.
Qed.

Lemma covered_fringe_mono dist fringe fringe' u b :
  (forall x, x ∈ fringe -> x ∈ fringe') ->
  covered dist fringe u b -> covered dist fringe' u b.
Proof.
  intros Hsub [H|(x & Hx & Hu & Hle)]; [by left|].
  right. exists x. repeat split; [by apply Hsub|done..].
Qed.

(** Popping a tuple whose node is already finalised. *)
Lemma covered_pop_done dist d c v fringe dv u b :
  dist !! v = Some dv -> (dv <= d)%Q ->
  covered dist ((d, c, v) :: fringe) u b -> covered dist fringe u b.
Proof.
  intros Hv Hle [H|(x & Hx & Hu & Hb)]; [by left|].
  apply elem_of_cons in Hx as [->|Hx].
  - simpl in *. subst u. left. exists dv. split; [done|]. by eapply Qle_trans.
  - right. by exists x.
Qed.

(** Popping a tuple and finalising its node. *)
Lemma covered_pop_new dist d c v fringe u b :
  dist !! v = None ->
  covered dist ((d, c, v) :: fringe) u b ->
  covered (<[v := d]> dist) fringe u b.
Proof.
  intros Hv [(du & Hu & Hle)|(x & Hx & Hu & Hb)].
  - left. exists du. split; [|done].
    rewrite lookup_insert_ne; [done|]. intros ->. congruence.
  - apply elem_of_cons in Hx as [->|Hx].
    + simpl in *. subst u. left. exists d. by rewrite lookup_insert_eq.
    + right. by exists x.
Qed.

Lemma Qltb_false_le (x y : Q) : Qltb x y = false -> (y <= x)%Q.
Proof.
  unfold Qltb. intros H. apply negb_false_iff in H. by apply Qle_bool_iff.
Qed.

(** One adjacency scan: what it adds to the fringe and what it leaves
    covered. *)
Lemma relax_scan_covered (dist : gmap node Q) (d : Q)
    (l : list (node * option Q)) :
  forall seen fringe c seen' fringe' c',
    rfoldl (relax dist d) (seen, fringe, c) l = Ok (seen', fringe', c') ->
    (forall u s, seen !! u = Some s -> covered dist fringe u s) ->
    (forall x, x ∈ fringe -> x ∈ fringe') /\
    (forall x, x ∈ fringe' ->
       x ∈ fringe \/
       exists u e c0, (u, e) ∈ l /\ x = ((d + edge_weight e)%Q, c0, u)) /\
    (forall u s, seen' !! u = Some s -> covered dist fringe' u s) /\
    (forall u e, (u, e) ∈ l ->
       covered dist fringe' u (d + edge_weight e)%Q).
Proof.
  induction l as [|[u e] l IH]; intros seen fringe c seen' fringe' c';
    cbn [rfoldl].
  - intros [= <- <- <-] Hseen. repeat split; [done|by left|done|].
    intros u e Hin. by apply elem_of_nil in Hin.
  - destruct (relax dist d (seen, fringe, c) (u, e))
      as [[[seen1 fringe1] c1]|] eqn:Hrelax; [|done].
    intros Hrest Hseen.
    assert (Hstep :
      (forall x, x ∈ fringe -> x ∈ fringe1) /\
      (forall x, x ∈ fringe1 ->
         x ∈ fringe \/ exists c0, x = ((d + edge_weight e)%Q, c0, u)) /\
      (forall u' s, seen1 !! u' = Some s -> covered dist fringe1 u' s) /\
      covered dist fringe1 u (d + edge_weight e)%Q).
    { unfold relax in Hrelax.
      assert (Hpush :
        let fr := heappush fringe ((d + edge_weight e)%Q, c, u) in
        (forall x, x ∈ fringe -> x ∈ fr) /\
        (forall x, x ∈ fr ->
           x ∈ fringe \/ exists c0, x = ((d + edge_weight e)%Q, c0, u)) /\
        (forall u' s, <[u := (d + edge_weight e)%Q]> seen !! u' = Some s ->
                      covered dist fr u' s) /\
        covered dist fr u (d + edge_weight e)%Q).
      { cbv zeta.
        assert (Hnew : covered dist
                         (heappush fringe ((d + edge_weight e)%Q, c, u))
                         u (d + edge_weight e)%Q).
        { right. exists ((d + edge_weight e)%Q, c, u).
          split; [apply elem_of_heappush; by left|].
          split; [done|apply Qle_refl]. }
        split; [intros x Hx; apply elem_of_heappush; by right|].
        split.
        { intros x [->|Hx]%elem_of_heappush; [right; by exists c|by left]. }
        split; [|done].
        intros u' s. destruct (decide (u' = u)) as [->|Hne].
        - rewrite lookup_insert_eq. by intros [= <-].
        - rewrite lookup_insert_ne by done. intros Hs.
          eapply covered_fringe_mono; [|by apply (Hseen u')].
          intros x Hx. apply elem_of_heappush. by right. }
      assert (Hkeep : forall b, covered dist fringe u b ->
        (forall x, x ∈ fringe -> x ∈ fringe) /\
        (forall x, x ∈ fringe ->
           x ∈ fringe \/ exists c0, x = ((d + edge_weight e)%Q, c0, u)) /\
        (forall u' s, seen !! u' = Some s -> covered dist fringe u' s) /\
        covered dist fringe u b).
      { intros b Hb. repeat split; [done|by left|done|done]. }
      destruct (dist !! u) as [du|] eqn:Hdu.
      - destruct (Qltb _ du) eqn:Hlt; [done|]. injection Hrelax as <- <- <-.
        apply Hkeep. left. exists du. split; [done|by apply Qltb_false_le].
      - destruct (seen !! u) as [s|] eqn:Hs.
        + destruct (Qltb _ s) eqn:Hlt; injection Hrelax as <- <- <-.
          * apply Hpush.
          * apply Hkeep. eapply covered_weaken; [by apply Qltb_false_le|].
            by apply (Hseen u).
        + injection Hrelax as <- <- <-. apply Hpush. }
    destruct Hstep as (Hsub1 & Horig1 & Hseen1 & Hcov1).
    destruct (IH _ _ _ _ _ _ Hrest Hseen1) as (Hsub & Horig & Hseen' & Hcov).
    split; [intros x Hx; by apply Hsub, Hsub1|]. split; [|split; [done|]].
    + intros x Hx. destruct (Horig x Hx) as [Hx1|(u' & e' & c0 & Hin & ->)].
      * destruct (Horig1 x Hx1) as [?|[c0 ->]]; [by left|].
        right. exists u, e, c0. split; [apply list_elem_of_here|done].
      * right. exists u', e', c0. split; [by apply list_elem_of_further|done].
    + intros u' e' [[= -> ->]|Hin]%elem_of_cons.
      * by eapply covered_fringe_mono.
      * by apply Hcov.
Qed.

Lemma covered_nil dist u b :
  covered dist [] u b -> exists d, dist !! u = Some d /\ (d <= b)%Q.
Proof.
  intros [H|(x & Hx & _)]; [done|]. by apply elem_of_nil in Hx.
Qed.

Lemma inv_closed G source dist seen :
  dijkstra_inv G source dist seen [] -> closed_dist G source dist.
Proof.
  intros [_ _ _ _ _ Hsrc Hedges _]. split.
  - by apply covered_nil.
  - intros v dv u e Hv He. by apply covered_nil, (Hedges v).
Qed.

(** With non-negative weights and enough fuel, the loop ends with every
    distance the length of a walk, and every edge relaxed. *)
Lemma dijkstra_loop_correct (G : Graph) source :
  (forall v, nonneg_nbrs (neighbors G v)) ->
  forall fuel dist seen fringe c,
    dijkstra_inv G source dist seen fringe ->
    potential G source dist fringe <= fuel ->
    exists dist',
      dijkstra_loop fuel (neighbors G) dist seen fringe c = Ok dist' /\
      (forall v d, dist' !! v = Some d -> walk G source v d) /\
      closed_dist G source dist'.
Proof.
  intros Hnn. induction fuel as [|fuel IH];
    intros dist seen fringe c Hinv Hpot.
  - assert (fringe = []) as -> by (apply (potential_nil_fringe G source dist); lia).
    exists dist. split; [done|]. split; [apply Hinv|by eapply inv_closed].
  - cbn [dijkstra_loop].
    destruct fringe as [|[[d c0] v] fringe'].
    { exists dist. split; [done|]. split; [apply Hinv|by eapply inv_closed]. }
    destruct Hinv as [Hs Hbelow Hdw Hfw Hu Hsrc Hedges Hseen].
    apply StronglySorted_inv in Hs as [Hs' Hhead].
    rewrite List.Forall_forall in Hhead.
    assert (Hin_tail : forall x, x ∈ fringe' -> x ∈ (d, c0, v) :: fringe').
    { intros x Hx. by apply list_elem_of_further. }
    assert (Hin_head : (d, c0, v) ∈ (d, c0, v) :: fringe')
      by apply list_elem_of_here.
    unfold potential in Hpot. cbn [length] in Hpot.
    destruct (dist !! v) as [dv|] eqn:Hdv.
    + apply IH; [|unfold potential; lia].
      assert (Hle : (dv <= d)%Q) by (by apply (Hbelow v dv (d, c0, v))).
      constructor; try done.
      * intros u du x Hu' Hx. by apply (Hbelow u du x Hu'), Hin_tail.
      * intros x Hx. by apply Hfw, Hin_tail.
      * intros x Hx. by apply Hu, Hin_tail.
      * by apply (covered_pop_done dist d c0 v fringe' dv).
      * intros v' dv' u e Hv' He.
        apply (covered_pop_done dist d c0 v fringe' dv); [done..|].
        by apply (Hedges v').
      * intros u s' Hs0.
        apply (covered_pop_done dist d c0 v fringe' dv); [done..|].
        by apply Hseen.
    + assert (Hwalk_v : walk G source v d) by apply (Hfw _ Hin_head).
      assert (Hv_univ : v ∈ universe G source) by apply (Hu _ Hin_head).
      assert (Hle : forall u du, <[v := d]> dist !! u = Some du -> (du <= d)%Q).
      { intros u du. destruct (decide (u = v)) as [->|Hne].
        - rewrite lookup_insert_eq. intros [= <-]. apply Qle_refl.
        - rewrite lookup_insert_ne by done. intros Hu'.
          by apply (Hbelow u du (d, c0, v)). }
      destruct (relax_scan_nonneg (<[v := d]> dist) d
                  (map_to_list (neighbors G v))
                  (fun u e => nonneg_nbrs_list _ u e (Hnn v)) Hle
                  seen fringe' c Hs')
        as (seen' & fringe'' & c' & Hscan & Hs'' & Hd'').
      { intros x Hx. apply (Hhead x). by apply list_elem_of_In. }
      rewrite Hscan.
      destruct (relax_scan _ _ _ _ _ _ _ _ _ Hscan) as [Hlen _].
      rewrite length_map_to_list in Hlen.
      pose proof (size_neighbors_le G v) as Hdeg.
      pose proof (size_universe_finalise _ dist v d Hv_univ Hdv) as Hsize.
      destruct (relax_scan_covered _ _ _ _ _ _ _ _ _ Hscan)
        as (Hsub & Horig & Hseen' & Hcov).
      { intros u s' Hs0. apply (covered_pop_new dist d c0); [done|].
        by apply Hseen. }
      apply IH; [|unfold potential; nia].
      constructor; try done.
      * intros u du x Hu' Hx. eapply Qle_trans; [by apply (Hle u)|by apply Hd''].
      * intros v' d'. destruct (decide (v' = v)) as [->|Hne].
        -- rewrite lookup_insert_eq. by intros [= <-].
        -- rewrite lookup_insert_ne by done. apply Hdw.
      * intros x Hx. destruct (Horig x Hx) as [Hx'|(u & e & c1 & Hin & ->)].
        -- by apply Hfw, Hin_tail.
        -- cbn [fst snd]. apply elem_of_map_to_list in Hin.
           by eapply walk_step.
      * intros x Hx. destruct (Horig x Hx) as [Hx'|(u & e & c1 & Hin & ->)].
        -- by apply Hu, Hin_tail.
        -- cbn [snd]. apply elem_of_map_to_list in Hin.
           by apply (neighbors_in_universe G source v).
      * eapply covered_fringe_mono; [exact Hsub|].
        by apply (covered_pop_new dist d c0).
      * intros v' dv' u e. destruct (decide (v' = v)) as [->|Hne].
        -- rewrite lookup_insert_eq. intros [= <-] He.
           apply Hcov. by apply elem_of_map_to_list.
        -- rewrite lookup_insert_ne by done. intros Hv' He.
           eapply covered_fringe_mono; [exact Hsub|].
           apply (covered_pop_new dist d c0); [done|]. by apply (Hedges v').
Qed.

Lemma dijkstra_inv_init G source :
  dijkstra_inv G source ∅ {[source := 0%Q]} [(0%Q, O, source)].
Proof.
  assert (Hcov : covered ∅ [(0%Q, O, source)] source 0%Q).
  { right. exists (0%Q, O, source).
    split; [apply list_elem_of_here|]. split; [done|apply Qle_refl]. }
  constructor; try done.
  - repeat constructor.
  - intros x ->%list_elem_of_singleton. apply walk_nil.
  - intros x ->%list_elem_of_singleton. unfold universe. cbn [snd].
    apply elem_of_union_l, elem_of_union_l. by apply elem_of_singleton.
  - intros u s [<- <-]%lookup_singleton_Some. done.
Qed.

(** Every distance is within the length of any walk. *)
Lemma closed_dist_le_walk G source dist v d' :
  closed_dist G source dist -> walk G source v d' ->
  exists d, dist !! v = Some d /\ (d <= d')%Q.
Proof.
  intros [Hsrc Hedges] Hwalk.
  induction Hwalk as [|v u e d1 _ IH He]; [done|].
  destruct IH as (dv & Hv & Hle).
  destruct (Hedges v dv u e Hv He) as (du & Hu & Hle').
  exists du. split; [done|].
  eapply Qle_trans; [exact Hle'|]. by apply Qplus_le_l.
Qed.

(** With non-negative weights [single_source_dijkstra_path_length] returns
    a dict that holds exactly the nodes reached by a walk from the source,
    each with the length of a shortest walk. *)
Lemma dijkstra_shortest (G : Graph) source :
  (forall v, nonneg_nbrs (neighbors G v)) ->
  is_Some (G !! source) ->
  exists dist,
    single_source_dijkstra_path_length G source = Ok dist /\
    (forall v d, dist !! v = Some d -> shortest G source v d) /\
    (forall v d', walk G source v d' -> is_Some (dist !! v)).
Proof.
  intros Hnn [nbrs Hs]. unfold single_source_dijkstra_path_length. rewrite Hs.
  destruct (dijkstra_loop_correct G source Hnn (dijkstra_fuel G source)
              ∅ {[source := 0%Q]} [(0%Q, O, source)] 1
              (dijkstra_inv_init G source))
    as (dist & Hloop & Hwalk & Hclosed).
  { unfold potential, dijkstra_fuel.
    rewrite dom_empty_L, difference_empty_L. simpl. lia. }
  exists dist. split; [done|]. split.
  - intros v d Hv. split; [by apply Hwalk|].
    intros d' Hd'.
    destruct (closed_dist_le_walk G source dist v d' Hclosed Hd')
      as (d0 & Hv0 & Hle).
    congruence.
  - intros v d' Hd'.
    destruct (closed_dist_le_walk G source dist v d' Hclosed Hd')
      as (d0 & Hv0 & _).
    by eexists.
Qed.

Lemma reachable_walk G s t : reachable G s t <-> exists d, walk G s t d.
Proof.
  split.
  - intros H.
    apply (rtc_ind_r (R := edge G) (fun t => exists d, walk G s t d) s);
      [| |exact H].
    + exists 0%Q. apply walk_nil.
    + intros v u _ [e He] [d Hd]. eexists. by eapply walk_step.
  - intros [d H]. induction H as [|v u e d _ IH He]; [apply rtc_refl|].
    eapply rtc_r; [exact IH|]. by exists e.
Qed.

End ShortestProps.
(** ** What the distance solver returns *)

Module SolverMoreProps.
Import TrackGraph Scenario SolverSpec Paths.
Import SetupProps GraphProps DijkstraProps FrameProps SolverProps ShortestProps.

Lemma rmap_Forall2 {A B} (f : A -> result B) (xs : list A) (ys : list B) :
  rmap f xs = Ok ys -> Forall2 (fun x y => f x = Ok y) xs ys.
Proof.
  revert ys; induction xs as [|x xs IH]; intros ys; simpl.
  - intros [= <-]. constructor.
  - destruct (f x) as [y|] eqn:Hx; [|done].
    destruct (rmap f xs) as [ys'|]; [|done].
    intros [= <-]. constructor; [done|by apply IH].
Qed.

(** One row on the graph value [G]: with non-negative weights and every
    bin center reachable, the row holds a shortest distance for each. *)
Lemma solve_row_shortest (G : Graph) centers l r ld rd :
  (forall v, nonneg_nbrs (neighbors G v)) ->
  (0 <= ld)%Q -> (0 <= rd)%Q ->
  (forall k, In k centers -> reachable (with_anchor G l r ld rd) anchor k) ->
  exists row,
    solve_row G centers (l, r, ld, rd) = Ok row /\
    Forall2 (shortest (with_anchor G l r ld rd) anchor) centers row.
Proof.
  intros Hnn Hld Hrd Hreach.
  destruct (dijkstra_shortest (with_anchor G l r ld rd) anchor)
    as (dist & Hdist & Hshort & Hall);
    [by apply nonneg_with_anchor|apply with_anchor_has_anchor|].
  destruct (remove_node_is_Some _ _ (with_anchor_has_anchor G l r ld rd))
    as [G' HG'].
  unfold solve_row. rewrite Hdist, HG'. rsimpl.
  destruct (rmap_all_Ok (dict_get dist) centers (fun _ => True))
    as (row & Hrow & _).
  { intros k Hk. apply Hreach, reachable_walk in Hk as [d' Hd'].
    destruct (Hall k d' Hd') as [d Hd]. exists d.
    unfold dict_get. by rewrite Hd. }
  exists row. split; [done|].
  eapply Forall2_impl; [by apply rmap_Forall2|].
  intros k d. unfold dict_get.
  destruct (dist !! k) as [d0|] eqn:Hk; [|done].
  intros [= <-]. by apply Hshort.
Qed.

(** X1. [get_distance2] on a graph object with non-negative weights, with
    non-negative residual distances, when every bin center can be reached
    from the anchor: it returns a row (no exception), and the entry for
    each bin center is the length of a shortest walk from the anchor to
    that bin center in the graph with the two anchor edges added. *)
Theorem get_distance2_returns_shortest_distances
    (h : heap) (c : nat) (G : Graph) (l r : node) (ld rd : Q)
    (centers : list node) :
  h !! c = Some G ->
  nonneg_weights G ->
  (0 <= ld)%Q -> (0 <= rd)%Q ->
  (forall k, In k centers -> reachable (with_anchor G l r ld rd) anchor k) ->
  exists row,
    (get_distance2 c l r ld rd centers h).1 = Ok row /\
    Forall2 (shortest (with_anchor G l r ld rd) anchor) centers row.
Proof.
  intros Hc Hnn0 Hld Hrd Hreach.
  pose proof (proj1 (nonneg_weights_neighbors G) Hnn0) as Hnn.
  destruct (solve_row_shortest G centers l r ld rd Hnn Hld Hrd Hreach)
    as (row & Hrow & Hshort).
  exists row. split; [|done].
  rewrite (get_distance2_unfold h c G) by done.
  unfold solve_row in Hrow.
  destruct (single_source_dijkstra_path_length _ _) as [dist|]; [|done].
  rsimpl_in Hrow.
  destruct (remove_node _ _) as [G'|]; [|done].
  by rsimpl_in Hrow.
Qed.

Lemma path3_nonneg_weights : nonneg_weights path3.
Proof. apply (bool_decide_unpack _). by vm_compute. Defined.

Lemma path3_anchor_reaches k :
  In k [n0; n2] ->
  reachable (with_anchor path3 n0 n1 (5 # 2) (5 # 2)) anchor k.
Proof.
  intros [<-|[<-|[]]].
  - eapply rtc_l; [|apply rtc_refl]. eexists. by vm_compute.
  - eapply (rtc_l _ _ n1); [eexists; by vm_compute|].
    eapply rtc_l; [|apply rtc_refl]. eexists. by vm_compute.
Defined.

Lemma get_distance2_returns_shortest_distances_witness :
  exists row,
    (get_distance2 0 n0 n1 (5 # 2) (5 # 2) [n0; n2] [path3]).1 = Ok row /\
    Forall2 (shortest (with_anchor path3 n0 n1 (5 # 2) (5 # 2)) anchor)
            [n0; n2] row.
Proof.
  apply (get_distance2_returns_shortest_distances
           [path3] 0 path3 n0 n1 (5 # 2) (5 # 2) [n0; n2]).
  - reflexivity.
  - apply path3_nonneg_weights.
  - by vm_compute.
  - by vm_compute.
  - apply path3_anchor_reaches.
Defined.

Lemma rmap_Forall2_all {A B} (f : A -> result B) (P : A -> B -> Prop)
    (xs : list A) :
  (forall x, In x xs -> exists y, f x = Ok y /\ P x y) ->
  exists ys, rmap f xs = Ok ys /\ Forall2 P xs ys.
Proof.
  induction xs as [|x xs IH]; intros H; simpl.
  - exists []. split; [done|constructor].
  - destruct (H x) as (y & -> & Hy); [by left|].
    destruct IH as (ys & -> & Hys); [intros x' Hx'; apply H; by right|].
    exists (y :: ys). split; [done|by constructor].
Qed.

(** X2. On a track graph with non-negative weights and no node ['a'], for
    a non-empty position sequence on which [_setup_distance] succeeds and
    whose anchors reach every bin center:
    [convert_linear_position_to_track_distances] returns a matrix with one
    row per position and one column per bin center, and the entry in row
    [i], column [j] is the length of a shortest walk from the anchor of
    position [i] (tied to its two brackets with its two residuals) to bin
    center [j]. *)
Theorem convert_returns_shortest_distances
    (lp : list Q) (g : nat) (nodes_df : list node_row) (h : heap) (G : Graph)
    (lid rid : list node) (ld rd : list Q) (centers : list node) :
  h !! g = Some G ->
  anchor_free G ->
  nonneg_weights G ->
  lp <> [] ->
  _setup_distance lp nodes_df = Ok (lid, rid, ld, rd, centers) ->
  (forall arg k,
     In arg (zip (zip (zip lid rid) ld) rd) -> In k centers ->
     reachable (row_graph G arg) anchor k) ->
  exists rows,
    (convert_linear_position_to_track_distances lp g nodes_df h).1 = Ok rows /\
    length rows = length lp /\
    Forall (fun row => length row = length centers) rows /\
    Forall2 (fun arg row =>
               Forall2 (shortest (row_graph G arg) anchor) centers row)
            (zip (zip (zip lid rid) ld) rd) rows.
Proof.
  intros Hg Hfree Hnn0 Hne Hsetup Hreach.
  pose proof (proj1 (nonneg_weights_neighbors G) Hnn0) as Hnn.
  unfold convert_linear_position_to_track_distances.
  rewrite (convert_run _ lp g nodes_df h G);
    [|apply default_batch_size_pos|done|done].
  unfold solve_all. rewrite Hsetup. rsimpl.
  destruct (setup_distance_nonneg _ _ _ _ _ _ _ Hsetup) as [Hld Hrd].
  destruct (setup_distance_lengths _ _ _ _ _ _ _ Hsetup)
    as (Hl1 & Hl2 & Hl3 & Hl4).
  set (args := zip (zip (zip lid rid) ld) rd) in *.
  assert (Hargs : length args = length lp).
  { unfold args. rewrite !length_zip. lia. }
  destruct (rmap_Forall2_all (solve_row G centers)
              (fun arg row =>
                 Forall2 (shortest (row_graph G arg) anchor) centers row)
              args) as (rows & Hrows & Hall).
  { intros [[[l r] dl] dr] Hin.
    apply solve_row_shortest; [done| | |].
    - apply list_elem_of_In, list_elem_of_lookup in Hin as [i Hi].
      unfold args in Hi.
      apply lookup_zip_with_Some in Hi as (x1 & dr0 & [= <- <-] & Hi & _).
      apply lookup_zip_with_Some in Hi as (x2 & dl0 & [= <- <-] & _ & Hi).
      by apply (Hld i).
    - apply list_elem_of_In, list_elem_of_lookup in Hin as [i Hi].
      unfold args in Hi.
      apply lookup_zip_with_Some in Hi as (x1 & dr0 & [= <- <-] & _ & Hi).
      by apply (Hrd i).
    - intros k Hk. by apply (Hreach (l, r, dl, dr) k). }
  rewrite Hrows. rsimpl.
  assert (Hlen : length rows = length lp).
  { rewrite <- Hargs. symmetry. by eapply Forall2_length. }
  exists rows. split.
  { destruct rows; [|done]. destruct lp; [done|simpl in Hlen; lia]. }
  split; [done|]. split; [|done].
  apply Forall_forall. intros row Hrow.
  apply list_elem_of_lookup in Hrow as [i Hi].
  destruct (Forall2_lookup_r _ _ _ _ _ Hall Hi) as (arg & _ & Hshort).
  symmetry. by eapply Forall2_length.
Qed.

Lemma path3_setup :
  _setup_distance [5 # 2; 1%Q] path3_df
  = Ok ([n0; n0], [n1; n1], [5 # 2; 1%Q], [5 # 2; 1%Q], [n0; n2]).
Proof. by vm_compute. Defined.

Lemma path3_rows_reach arg k :
  In arg (zip (zip (zip [n0; n0] [n1; n1]) [5 # 2; 1%Q]) [5 # 2; 1%Q]) ->
  In k [n0; n2] ->
  reachable (row_graph path3 arg) anchor k.
Proof.
  intros [<-|[<-|[]]] [<-|[<-|[]]].
  - eapply rtc_l; [|apply rtc_refl]. eexists. by vm_compute.
  - eapply (rtc_l _ _ n1); [eexists; by vm_compute|].
    eapply rtc_l; [|apply rtc_refl]. eexists. by vm_compute.
  - eapply rtc_l; [|apply rtc_refl]. eexists. by vm_compute.
  - eapply (rtc_l _ _ n1); [eexists; by vm_compute|].
    eapply rtc_l; [|apply rtc_refl]. eexists. by vm_compute.
Defined.

Lemma convert_returns_shortest_distances_witness :
  exists rows,
    (convert_linear_position_to_track_distances
       [5 # 2; 1%Q] 0 path3_df [path3]).1 = Ok rows /\
    length rows = length [5 # 2; 1%Q] /\
    Forall (fun row => length row = length [n0; n2]) rows /\
    Forall2 (fun arg row =>
               Forall2 (shortest (row_graph path3 arg) anchor) [n0; n2] row)
            (zip (zip (zip [n0; n0] [n1; n1]) [5 # 2; 1%Q]) [5 # 2; 1%Q])
            rows.
Proof.
  apply (convert_returns_shortest_distances
           [5 # 2; 1%Q] 0 path3_df [path3] path3
           [n0; n0] [n1; n1] [5 # 2; 1%Q] [5 # 2; 1%Q] [n0; n2]).
  - reflexivity.
  - apply path3_anchor_free.
  - apply path3_nonneg_weights.
  - discriminate.
  - apply path3_setup.
  - apply path3_rows_reach.
Defined.

End SolverMoreProps.

(** ** What [get_distance2] leaves in the graph object *)

Module GraphMoreProps.
Import TrackGraph Scenario MoreScenarios SolverSpec.
Import GraphProps DijkstraProps SolverProps.

Lemma lookup_alter_all_is_Some
    (f : gmap node (option Q) -> gmap node (option Q))
    (us : list node) (G : Graph) (w : node) :
  is_Some (foldr (fun u G' => alter f u G') G us !! w) <-> is_Some (G !! w).
Proof.
  induction us as [|u us IH]; cbn [foldr]; [done|].
  destruct (decide (u = w)) as [->|Hne].
  - rewrite lookup_alter_eq, <- IH. apply fmap_is_Some.
  - by rewrite lookup_alter_ne.
Qed.

(** The nodes after [G.remove_node(n)]: those of [G] but [n]. *)
Lemma remove_node_lookup_is_Some (G G' : Graph) n w :
  remove_node G n = Ok G' ->
  is_Some (G' !! w) <-> w <> n /\ is_Some (G !! w).
Proof.
  unfold remove_node. destruct (G !! n) as [nbrs|]; [|done].
  intros [= <-]. destruct (decide (w = n)) as [->|Hne].
  - rewrite lookup_delete_eq. split; [by intros [? ?]|by intros [? _]].
  - rewrite lookup_delete_ne by done.
    rewrite lookup_alter_all_is_Some. tauto.
Qed.

(** Two graphs with the same nodes and the same adjacency at each are the
    same graph. *)
Lemma graph_eq (G G' : Graph) :
  same_neighbors G G' ->
  (forall w, is_Some (G !! w) <-> is_Some (G' !! w)) ->
  G = G'.
Proof.
  intros Hsame Hdom. apply map_eq. intros w.
  destruct (G !! w) as [nbrs|] eqn:Hw.
  - destruct (proj1 (Hdom w)) as [nbrs' Hw']; [by rewrite Hw|].
    rewrite Hw'. f_equal.
    by rewrite <- (lookup_neighbors _ _ _ Hw), <- (lookup_neighbors _ _ _ Hw').
  - destruct (G' !! w) as [nbrs'|] eqn:Hw'; [|done].
    destruct (proj2 (Hdom w)) as [? ?]; [by rewrite Hw'|].
    congruence.
Qed.

(** Adding the anchor with its two edges and removing it again: what is
    left is [G] with the two brackets as nodes. *)
Lemma remove_anchor_exact (G : Graph) l r ld rd :
  anchor_free G -> l <> anchor -> r <> anchor ->
  remove_node (with_anchor G l r ld rd) anchor
  = Ok (add_node (add_node G l) r).
Proof.
  intros Hfree Hl Hr.
  destruct (proj1 (anchor_free_neighbors G) Hfree) as (Hempty & Hnone & Ha).
  destruct (remove_anchor_same_neighbors G l r ld rd Hempty Hnone)
    as (G' & HG' & Hsame).
  rewrite HG'. f_equal. apply graph_eq.
  - intros w. by rewrite Hsame, !neighbors_add_node.
  - intros w. rewrite (remove_node_lookup_is_Some _ _ _ _ HG').
    rewrite with_anchor_unfold, !add_edge_is_Some, !add_node_is_Some,
      !add_edge_is_Some, !add_node_is_Some.
    assert (~ is_Some (G !! anchor)) by (rewrite Ha; by intros [? ?]).
    split.
    + intros (Hw & [?|[?|[?|[?|[?|[?|?]]]]]]); subst; tauto.
    + intros [->|[->|?]]; (split; [congruence|tauto]).
Qed.

(** X3. The one trace a completed call of [get_distance2] leaves in its
    graph object.  On a graph with non-negative weights and no node ['a'],
    with non-negative residuals and brackets other than ['a'], the call
    (whether it returns a row or raises the [KeyError] of a missing bin
    center) leaves the object as it was, except that a bracket that was
    not a node of the graph now is one, without edges; with both brackets
    nodes of the graph, the store after the call is the store before it. *)
Theorem get_distance2_restores_graph
    (h : heap) (c : nat) (G : Graph) (l r : node) (ld rd : Q)
    (centers : list node) :
  h !! c = Some G ->
  anchor_free G ->
  nonneg_weights G ->
  (0 <= ld)%Q -> (0 <= rd)%Q ->
  l <> anchor -> r <> anchor ->
  (get_distance2 c l r ld rd centers h).2
  = <[c := add_node (add_node G l) r]> h
  /\ (is_Some (G !! l) -> is_Some (G !! r) ->
      (get_distance2 c l r ld rd centers h).2 = h).
Proof.
  intros Hc Hfree Hnn0 Hld Hrd Hl Hr.
  pose proof (proj1 (nonneg_weights_neighbors G) Hnn0) as Hnn.
  destruct (solve_row_lookup G centers l r ld rd Hnn Hld Hrd)
    as (dist & Hdist & _).
  assert (Hrun : (get_distance2 c l r ld rd centers h).2
                 = <[c := add_node (add_node G l) r]> h).
  { rewrite (get_distance2_unfold h c G) by done.
    by rewrite Hdist, (remove_anchor_exact G l r ld rd). }
  split; [done|]. intros [nl Hnl] [nr Hnr]. rewrite Hrun.
  assert (Hsame : add_node (add_node G l) r = G).
  { unfold add_node. rewrite Hnl. by rewrite Hnr. }
  rewrite Hsame. by apply list_insert_id.
Qed.

Lemma get_distance2_restores_graph_witness :
  (get_distance2 0 n0 n1 (5 # 2) (5 # 2) [n0; n2] [path3]).2
  = <[0 := add_node (add_node path3 n0) n1]> [path3]
  /\ (is_Some (path3 !! n0) -> is_Some (path3 !! n1) ->
      (get_distance2 0 n0 n1 (5 # 2) (5 # 2) [n0; n2] [path3]).2 = [path3]).
Proof.
  apply (get_distance2_restores_graph
           [path3] 0 path3 n0 n1 (5 # 2) (5 # 2) [n0; n2]).
  - reflexivity.
  - apply path3_anchor_free.
  - apply (bool_decide_unpack _). by vm_compute.
  - by vm_compute.
  - by vm_compute.
  - discriminate.
  - discriminate.
Defined.

(** X4. [get_distance2] has no [try ... finally]: when it raises anything
    but the [KeyError] of the final lookup (networkx's [ValueError] for
    contradictory paths, which needs a negative weight), the anchor and
    its two edges stay in the graph object. *)
Theorem get_distance2_failed_search_keeps_anchor
    (h : heap) (c : nat) (G : Graph) (l r : node) (ld rd : Q)
    (centers : list node) (e : exn) :
  h !! c = Some G ->
  (get_distance2 c l r ld rd centers h).1 = Raise e ->
  (forall k, e <> KeyError k) ->
  (get_distance2 c l r ld rd centers h).2
  = <[c := with_anchor G l r ld rd]> h
  /\ is_Some (graph_at (get_distance2 c l r ld rd centers h).2 c !! anchor).
Proof.
  intros Hc. rewrite (get_distance2_unfold h c G) by done.
  assert (Hlen : c < length h) by (by eapply lookup_lt_Some).
  destruct (single_source_dijkstra_path_length _ _) as [dist|e'].
  - destruct (remove_node_is_Some _ _ (with_anchor_has_anchor G l r ld rd))
      as [G' ->].
    cbn [fst snd]. intros Hraise Hne. exfalso.
    apply rmap_raises in Hraise as (k & _ & Hk).
    apply dict_get_raises in Hk as [-> _]. by apply (Hne k).
  - cbn [fst snd]. intros _ _. split; [done|].
    rewrite graph_at_insert by done. apply with_anchor_has_anchor.
Qed.

Lemma get_distance2_failed_search_keeps_anchor_witness :
  (get_distance2 0 n0 n1 1%Q 1%Q [n0] [negative_edge]).2
  = <[0 := with_anchor negative_edge n0 n1 1%Q 1%Q]> [negative_edge]
  /\ is_Some (graph_at (get_distance2 0 n0 n1 1%Q 1%Q [n0]
                                      [negative_edge]).2 0 !! anchor).
Proof.
  apply (get_distance2_failed_search_keeps_anchor
           [negative_edge] 0 negative_edge n0 n1 1%Q 1%Q [n0] ValueError).
  - reflexivity.
  - by vm_compute.
  - discriminate.
Defined.

End GraphMoreProps.

(** ** The exceptions of the distance solver *)

Module ConvertMoreProps.
Import TrackGraph Scenario MoreScenarios SolverSpec.
Import SetupProps GraphProps DijkstraProps SolverProps.

Lemma np_index_raises {A} (a : list A) (i : Z) e :
  np_index a i = Raise e -> e = IndexError.
Proof.
  unfold np_index. destruct (_ && _); [|by intros [= <-]].
  destruct (a !! _); [done|by intros [= <-]].
Qed.

Lemma rmap_np_index_raises {A B} (a : list A) (f : B -> Z) (xs : list B) e :
  rmap (fun x => np_index a (f x)) xs = Raise e -> e = IndexError.
Proof.
  intros (x & _ & Hx)%rmap_raises. by eapply np_index_raises.
Qed.

Lemma np_index_nil {A} (i : Z) : np_index (@nil A) i = Raise IndexError.
Proof.
  unfold np_index. destruct (_ && _); [|done]. by rewrite lookup_nil.
Qed.

(** [_setup_distance] raises [IndexError] when an index leaves the node
    table, and [ValueError] (the [argmin] over an axis of length zero)
    only for an empty table with no query position. *)
Lemma setup_distance_raises lp nodes_df e :
  _setup_distance lp nodes_df = Raise e ->
  e = IndexError \/ (e = ValueError /\ lp = [] /\ nodes_df = []).
Proof.
  unfold _setup_distance, bracket_indices.
  destruct (rmap (fun i => np_index nodes_df (i - 1)%Z) _)
    as [left_rows|e1] eqn:Hl; rsimpl;
    [|intros [= <-]; left;
      by apply (rmap_np_index_raises nodes_df (fun i => (i - 1)%Z) _ _ Hl)].
  destruct (rmap (fun i => np_index nodes_df i) _)
    as [right_rows|e1] eqn:Hr; rsimpl;
    [|intros [= <-]; left;
      by apply (rmap_np_index_raises nodes_df (fun i => i) _ _ Hr)].
  destruct nodes_df as [|row nodes_df].
  - cbn [map]. rsimpl. intros [= <-]. right. split; [done|]. split; [|done].
    destruct lp as [|p lp]; [done|]. cbn [map rmap] in Hl.
    by rewrite np_index_nil in Hl.
  - set (positions := map linear_position (row :: nodes_df)).
    assert (Hpos : exists q qs, positions = q :: qs) by (by eexists _, _).
    destruct Hpos as (q & qs & Hpos).
    destruct (rmap_all_Ok
                (fun p => j ← np_argmin (map (fun q => Qabs (p - q)) positions);
                          Ok (Z.of_nat j))
                (select lp (map negb
                   (zip_with (fun l r => Z.eqb (edge_id l) (edge_id r))
                             left_rows right_rows)))
                (fun _ => True)) as (nearest & Hnearest & _).
    { intros p _. rewrite Hpos. cbn [map np_argmin]. rsimpl. by eexists. }
    rewrite Hpos in *. rewrite Hnearest. rsimpl.
    set (li := put_mask _ _ nearest). set (ri := put_mask _ _ nearest).
    destruct (rmap _ li) as [lid|e1] eqn:Hlid; rsimpl;
      [|intros [= <-]; left;
        by apply (rmap_np_index_raises _ (fun i => i) _ _ Hlid)].
    destruct (rmap _ ri) as [rid|e1] eqn:Hrid; rsimpl;
      [|intros [= <-]; left;
        by apply (rmap_np_index_raises _ (fun i => i) _ _ Hrid)].
    unfold residuals.
    destruct (rmap (np_index (q :: qs)) li) as [vs|e1] eqn:Hvs; rsimpl;
      [done|intros [= <-]; left;
        by apply (rmap_np_index_raises _ (fun i => i) _ _ Hvs)].
Qed.

(** X5. With no query position the call fails, whatever the graph and the
    node table: [batch] yields no range, no batch is computed, and
    [np.concatenate] of no array raises [ValueError] (for an empty node
    table the [ValueError] is that of [argmin] in [_setup_distance]).  The
    store is left as it was. *)
Theorem convert_no_position_raises_ValueError
    (g : nat) (nodes_df : list node_row) (h : heap) :
  convert_linear_position_to_track_distances [] g nodes_df h
  = (Raise ValueError, h).
Proof.
  unfold convert_linear_position_to_track_distances, convert_with_batch_size.
  unfold mbind at 1, M_bind, lift.
  destruct nodes_df as [|row nodes_df]; [reflexivity|].
  reflexivity.
Qed.

(** X6. The exceptions of [convert_linear_position_to_track_distances] on
    a track graph with non-negative weights and no node ['a']: the
    [IndexError] of [_setup_distance]; [ValueError], only when there is no
    query position; and the [KeyError] of a bin center that the search
    from the anchor did not reach.  Nothing else is raised, in particular
    none of networkx's own exceptions. *)
Theorem convert_raises_only
    (lp : list Q) (g : nat) (nodes_df : list node_row) (h : heap) (G : Graph)
    (e : exn) :
  h !! g = Some G ->
  anchor_free G ->
  nonneg_weights G ->
  (convert_linear_position_to_track_distances lp g nodes_df h).1 = Raise e ->
  (e = IndexError /\ _setup_distance lp nodes_df = Raise IndexError)
  \/ (e = ValueError /\ lp = [])
  \/ (exists lid rid ld rd centers k,
        _setup_distance lp nodes_df = Ok (lid, rid, ld, rd, centers) /\
        In k centers /\ e = KeyError k).
Proof.
  intros Hg Hfree Hnn0.
  pose proof (proj1 (nonneg_weights_neighbors G) Hnn0) as Hnn.
  unfold convert_linear_position_to_track_distances.
  rewrite (convert_run _ lp g nodes_df h G);
    [|apply default_batch_size_pos|done|done].
  unfold solve_all.
  destruct (_setup_distance lp nodes_df)
    as [[[[[lid rid] ld] rd] centers]|e1] eqn:Hsetup; rsimpl.
  - destruct (setup_distance_nonneg _ _ _ _ _ _ _ Hsetup) as [Hld Hrd].
    destruct (rmap (solve_row G centers) _) as [rows|e1] eqn:Hrows; rsimpl.
    + destruct rows as [|row rows]; [|done]. intros [= <-].
      right; left. split; [done|].
      apply rmap_length in Hrows. rewrite !length_zip in Hrows.
      destruct (setup_distance_lengths _ _ _ _ _ _ _ Hsetup)
        as (Hl1 & Hl2 & Hl3 & Hl4).
      destruct lp; [done|simpl in *; lia].
    + intros [= <-]. right; right.
      apply rmap_raises in Hrows as ([[[l r] dl] dr] & Hin & Hraise).
      apply list_elem_of_In, list_elem_of_lookup in Hin as [i Hi].
      apply lookup_zip_with_Some in Hi as (x1 & dr0 & [= <- <-] & Hi & Hdr).
      apply lookup_zip_with_Some in Hi as (x2 & dl0 & [= <- <-] & _ & Hdl).
      destruct (solve_row_raises G centers l r dl dr e1 Hnn)
        as (k & Hk & ->); [by apply (Hld i)|by apply (Hrd i)|done|].
      by exists lid, rid, ld, rd, centers, k.
  - intros [= <-].
    destruct (setup_distance_raises _ _ _ Hsetup) as [->|(-> & -> & _)].
    + by left.
    + right; by left.
Qed.

Lemma convert_raises_only_witness :
  (IndexError = IndexError /\ _setup_distance [11%Q] path3_df = Raise IndexError)
  \/ (IndexError = ValueError /\ [11%Q] = [])
  \/ (exists lid rid ld rd centers k,
        _setup_distance [11%Q] path3_df = Ok (lid, rid, ld, rd, centers) /\
        In k centers /\ IndexError = KeyError k).
Proof.
  apply (convert_raises_only [11%Q] 0 path3_df [path3] path3 IndexError).
  - reflexivity.
  - apply path3_anchor_free.
  - apply (bool_decide_unpack _). by vm_compute.
  - by vm_compute.
Defined.

End ConvertMoreProps.

(** ** More on the bracket search *)

Module SetupMoreProps.
Import TrackGraph Scenario.
Import SetupProps ConvertMoreProps.

Lemma np_index_In {A} (a : list A) (i : Z) (x : A) :
  np_index a i = Ok x -> In x a.
Proof.
  unfold np_index. destruct (_ && _); [|done].
  destruct (a !! _) as [y|] eqn:Hy; [|done]. intros [= <-].
  by eapply list_elem_of_In, list_elem_of_lookup_2.
Qed.

Lemma np_index_length_raises {A} (a : list A) :
  np_index a (Z.of_nat (length a)) = Raise IndexError.
Proof.
  unfold np_index.
  destruct (Z.ltb_spec (Z.of_nat (length a)) 0) as [Hneg|_]; [lia|].
  destruct (Z.ltb_spec (Z.of_nat (length a)) (Z.of_nat (length a)));
    [lia|]. by rewrite andb_false_r.
Qed.

Lemma searchsorted_all_below (a : list Q) (v : Q) :
  (forall x, In x a -> (x < v)%Q) -> searchsorted a v = length a.
Proof.
  induction a as [|x a IH]; intros Hall; simpl; [done|].
  assert (Hx : Qltb x v = true).
  { unfold Qltb. apply negb_true_iff.
    destruct (Qle_bool v x) eqn:Hle; [|done].
    apply Qle_bool_iff in Hle. specialize (Hall x (or_introl eq_refl)).
    exfalso. by apply (Qlt_not_le x v). }
  rewrite Hx, IH; [done|]. intros y Hy. apply Hall. by right.
Qed.

(** The index arrays behind an [Ok] of [_setup_distance]. *)
Lemma setup_distance_Ok_inv lp nodes_df lid rid ld rd centers :
  _setup_distance lp nodes_df = Ok (lid, rid, ld, rd, centers) ->
  exists li ri,
    bracket_indices lp nodes_df = Ok (li, ri) /\
    rmap (np_index (map node_ids nodes_df)) li = Ok lid /\
    rmap (np_index (map node_ids nodes_df)) ri = Ok rid /\
    residuals (map linear_position nodes_df) li lp = Ok ld /\
    rd = ld /\
    centers = map node_ids
                  (sort_values_by_position
                     (List.filter (fun r => negb (is_bin_edge r)) nodes_df)).
Proof.
  unfold _setup_distance.
  destruct (bracket_indices lp nodes_df) as [[li ri]|] eqn:Hbr; [|done].
  rsimpl.
  destruct (rmap _ li) as [lid'|] eqn:Hlid; [|done]. rsimpl.
  destruct (rmap _ ri) as [rid'|] eqn:Hrid; [|done]. rsimpl.
  destruct (residuals _ li lp) as [ld'|] eqn:Hres; [|done]. rsimpl.
  intros [= <- <- <- <- <-]. by exists li, ri.
Qed.

Lemma bracket_indices_right_rows lp nodes_df li ri :
  bracket_indices lp nodes_df = Ok (li, ri) ->
  exists right_rows,
    rmap (fun i => np_index nodes_df i)
         (map (fun p => Z.of_nat
                 (searchsorted (map linear_position nodes_df) p)) lp)
    = Ok right_rows.
Proof.
  unfold bracket_indices.
  destruct (rmap (fun i => np_index nodes_df (i - 1)%Z) _); [|done]. rsimpl.
  destruct (rmap (fun i => np_index nodes_df i) _); [|done]. by eexists.
Qed.

(** X7. When [_setup_distance] returns and when it does not.  For a
    non-empty node table it returns its five arrays if every query
    position is at most some node position; and a query position above
    every node position of the table makes it raise [IndexError]:
    [searchsorted] gives the table length, and line 53 indexes the table
    with it. *)
Theorem setup_distance_range_condition
    (lp : list Q) (nodes_df : list node_row) :
  nodes_df <> [] ->
  ((forall p, In p lp ->
      exists r, In r nodes_df /\ (p <= linear_position r)%Q) ->
   exists out, _setup_distance lp nodes_df = Ok out)
  /\ (forall p, In p lp ->
        (forall r, In r nodes_df -> (linear_position r < p)%Q) ->
        _setup_distance lp nodes_df = Raise IndexError).
Proof.
  intros Hne. split.
  - intros Hrange. by apply setup_distance_returns.
  - intros p Hp Habove.
    destruct (_setup_distance lp nodes_df)
      as [[[[[lid rid] ld] rd] centers]|e] eqn:Hsetup.
    + exfalso.
      apply setup_distance_Ok_inv in Hsetup as (li & ri & Hbr & _).
      apply bracket_indices_right_rows in Hbr as [right_rows Hrows].
      destruct (rmap_Ok_all _ _ _
                  (Z.of_nat (searchsorted (map linear_position nodes_df) p))
                  Hrows) as [row Hrow].
      { apply in_map_iff. by exists p. }
      rewrite searchsorted_all_below, length_map in Hrow.
      * by rewrite np_index_length_raises in Hrow.
      * intros x (r & <- & Hr)%in_map_iff. by apply Habove.
    + destruct (setup_distance_raises _ _ _ Hsetup) as [->|(_ & _ & ->)];
        done.
Qed.

Lemma setup_distance_range_condition_witness :
  ((forall p, In p [1%Q] ->
      exists r, In r path3_df /\ (p <= linear_position r)%Q) ->
   exists out, _setup_distance [1%Q] path3_df = Ok out)
  /\ (forall p, In p [1%Q] ->
        (forall r, In r path3_df -> (linear_position r < p)%Q) ->
        _setup_distance [1%Q] path3_df = Raise IndexError).
Proof.
  apply (setup_distance_range_condition [1%Q] path3_df).
  discriminate.
Defined.

(** [sort_values] sorts. *)
Lemma insert_by_position_perm r rs :
  Permutation (insert_by_position r rs) (r :: rs).
Proof.
  induction rs as [|r' rs IH]; simpl; [done|].
  destruct (Qle_bool _ _); [done|]. rewrite IH. apply perm_swap.
Qed.

Lemma sort_values_by_position_perm rs :
  Permutation (sort_values_by_position rs) rs.
Proof.
  unfold sort_values_by_position.
  induction rs as [|r rs IH]; cbn [foldr]; [done|].
  by rewrite insert_by_position_perm, IH.
Qed.

Lemma insert_by_position_sorted r rs :
  StronglySorted (fun a b => (linear_position a <= linear_position b)%Q) rs ->
  StronglySorted (fun a b => (linear_position a <= linear_position b)%Q)
                 (insert_by_position r rs).
Proof.
  induction 1 as [|r' rs Hs IH Hall]; simpl.
  { repeat constructor. }
  destruct (Qle_bool (linear_position r) (linear_position r')) eqn:Hle.
  - apply Qle_bool_iff in Hle. constructor; [by constructor|].
    constructor; [done|].
    eapply Forall_impl; [exact Hall|]. intros x Hx. simpl in *.
    by eapply Qle_trans.
  - constructor; [done|].
    assert (Hr : (linear_position r' <= linear_position r)%Q).
    { destruct (Qlt_le_dec (linear_position r') (linear_position r))
        as [Hlt|Hge]; [by apply Qlt_le_weak|].
      apply Qle_bool_iff in Hge. congruence. }
    rewrite insert_by_position_perm. by constructor.
Qed.

Lemma sort_values_by_position_sorted rs :
  StronglySorted (fun a b => (linear_position a <= linear_position b)%Q)
                 (sort_values_by_position rs).
Proof.
  unfold sort_values_by_position.
  induction rs as [|r rs IH]; cbn [foldr]; [constructor|].
  by apply insert_by_position_sorted.
Qed.

(** X8. What [_setup_distance] returns: four arrays with one entry per
    query position; residuals that are not negative; brackets that are
    node ids of the table; and the non-bin-edge node ids in ascending
    linear position, whatever the query positions are. *)
Theorem setup_distance_output_shape
    (lp : list Q) (nodes_df : list node_row)
    (lid rid : list node) (ld rd : list Q) (centers : list node) :
  _setup_distance lp nodes_df = Ok (lid, rid, ld, rd, centers) ->
  (length lid = length lp /\ length rid = length lp /\
   length ld = length lp /\ length rd = length lp)
  /\ Forall (fun d => (0 <= d)%Q) ld
  /\ Forall (fun d => (0 <= d)%Q) rd
  /\ Forall (fun v => In v (map node_ids nodes_df)) lid
  /\ Forall (fun v => In v (map node_ids nodes_df)) rid
  /\ exists rows,
       centers = map node_ids rows /\
       Permutation rows
         (List.filter (fun r => negb (is_bin_edge r)) nodes_df) /\
       StronglySorted
         (fun r r' => (linear_position r <= linear_position r')%Q) rows.
Proof.
  intros Hsetup.
  split; [by eapply setup_distance_lengths|].
  destruct (setup_distance_nonneg _ _ _ _ _ _ _ Hsetup) as [Hld Hrd].
  split; [apply Forall_lookup; intros i d; apply Hld|].
  split; [apply Forall_lookup; intros i d; apply Hrd|].
  apply setup_distance_Ok_inv in Hsetup
    as (li & ri & _ & Hlid & Hrid & _ & _ & ->).
  assert (Hids : forall ind ids,
             rmap (np_index (map node_ids nodes_df)) ind = Ok ids ->
             Forall (fun v => In v (map node_ids nodes_df)) ids).
  { intros ind ids Hmap. apply Forall_lookup. intros i v Hv.
    destruct (rmap_lookup _ _ _ _ _ Hmap Hv) as (j & _ & Hj).
    by eapply np_index_In. }
  split; [by eapply Hids|]. split; [by eapply Hids|].
  eexists. split; [done|].
  split; [apply sort_values_by_position_perm|].
  apply sort_values_by_position_sorted.
Qed.

Lemma setup_distance_output_shape_witness :
  (length [n0] = length [1%Q] /\ length [n1] = length [1%Q] /\
   length [1%Q] = length [1%Q] /\ length [1%Q] = length [1%Q])
  /\ Forall (fun d => (0 <= d)%Q) [1%Q]
  /\ Forall (fun d => (0 <= d)%Q) [1%Q]
  /\ Forall (fun v => In v (map node_ids path3_df)) [n0]
  /\ Forall (fun v => In v (map node_ids path3_df)) [n1]
  /\ exists rows,
       [n0; n2] = map node_ids rows /\
       Permutation rows
         (List.filter (fun r => negb (is_bin_edge r)) path3_df) /\
       StronglySorted
         (fun r r' => (linear_position r <= linear_position r')%Q) rows.
Proof.
  apply (setup_distance_output_shape
           [1%Q] path3_df [n0] [n1] [1%Q] [1%Q] [n0; n2]).
  by vm_compute.
Defined.

End SetupMoreProps.

(** ** The bracket search, one query position at a time *)

Module BracketProps.
Import TrackGraph Scenario BracketSpec.
Import SetupProps ConvertMoreProps SetupMoreProps.

Lemma rmap_lookup_fwd {A B} (f : A -> result B) (xs : list A) (ys : list B)
    (i : nat) (x : A) :
  rmap f xs = Ok ys -> xs !! i = Some x ->
  exists y, ys !! i = Some y /\ f x = Ok y.
Proof.
  intros Hmap Hx.
  destruct (lookup_lt_is_Some_2 ys i) as [y Hy].
  { rewrite (rmap_length _ _ _ Hmap). by eapply lookup_lt_Some. }
  destruct (rmap_lookup _ _ _ _ _ Hmap Hy) as (x' & Hx' & Hfx).
  exists y. split; [done|]. congruence.
Qed.

Lemma np_index_map {A B} (f : A -> B) (a : list A) (i : Z) (x : A) :
  np_index a i = Ok x -> np_index (map f a) i = Ok (f x).
Proof.
  unfold np_index. rewrite length_map. destruct (_ && _); [|done].
  rewrite list_lookup_fmap. destruct (a !! _); [|done]. by intros [= ->].
Qed.

Lemma match_nonempty {A B} (l : list A) (x : result B) :
  l <> [] ->
  match l with [] => Raise ValueError | _ :: _ => x end = x.
Proof. by destruct l. Qed.

(** The masked assignment of line 58, entry by entry: where the mask is
    true the entry is the value computed from the query position at that
    place, elsewhere it is the entry of the array assigned to. *)
Lemma put_mask_select_lookup {A B} (f : B -> result A)
    (a : list A) (mask : list bool) (xs : list B) (vs : list A) :
  length mask = length a -> length xs = length a ->
  rmap f (select xs mask) = Ok vs ->
  forall (k : nat) (a_k : A) (m_k : bool) (x_k : B),
    a !! k = Some a_k -> mask !! k = Some m_k -> xs !! k = Some x_k ->
    exists v, put_mask a mask vs !! k = Some v /\
              if m_k then f x_k = Ok v else v = a_k.
Proof.
  revert mask xs vs.
  induction a as [|a0 a IH]; intros mask xs vs Hm Hx Hvs k a_k m_k x_k;
    [by rewrite lookup_nil|].
  destruct mask as [|m mask]; [done|]. destruct xs as [|x xs]; [done|].
  injection Hm as Hm. injection Hx as Hx.
  destruct m; cbn [select put_mask] in *.
  - cbn [rmap] in Hvs. destruct (f x) as [v|] eqn:Hfx; [|done].
    destruct (rmap f (select xs mask)) as [vs'|] eqn:Hvs'; [|done].
    injection Hvs as <-.
    destruct k as [|k]; cbn [lookup list_lookup].
    + intros [= <-] [= <-] [= <-]. by exists v.
    + by apply IH.
  - destruct k as [|k]; cbn [lookup list_lookup].
    + intros [= <-] [= <-] [= <-]. by exists a0.
    + by apply IH.
Qed.

(** Entry [k] of the two index arrays. *)
Lemma bracket_indices_lookup lp nodes_df li ri k p :
  bracket_indices lp nodes_df = Ok (li, ri) ->
  lp !! k = Some p ->
  exists rl rr a b,
    np_index nodes_df (bin_index nodes_df p - 1)%Z = Ok rl /\
    np_index nodes_df (bin_index nodes_df p) = Ok rr /\
    li !! k = Some a /\ ri !! k = Some b /\
    if Z.eqb (edge_id rl) (edge_id rr)
    then a = (bin_index nodes_df p - 1)%Z /\ b = bin_index nodes_df p
    else nearest_index nodes_df p = Ok a /\ b = a.
Proof.
  unfold bracket_indices. intros Hbr Hp.
  set (bin_ind := map (fun p => Z.of_nat
                         (searchsorted (map linear_position nodes_df) p)) lp)
    in *.
  destruct (rmap (fun i => np_index nodes_df (i - 1)%Z) bin_ind)
    as [left_rows|] eqn:Hl; [|done]. rsimpl_in Hbr.
  destruct (rmap (fun i => np_index nodes_df i) bin_ind)
    as [right_rows|] eqn:Hr; [|done]. rsimpl_in Hbr.
  assert (Hbin : bin_ind !! k = Some (bin_index nodes_df p)).
  { unfold bin_ind. by rewrite list_lookup_fmap, Hp. }
  destruct (rmap_lookup_fwd _ _ _ _ _ Hl Hbin) as (rl & Hrl & Hirl).
  destruct (rmap_lookup_fwd _ _ _ _ _ Hr Hbin) as (rr & Hrr & Hirr).
  exists rl, rr.
  rewrite match_nonempty in Hbr.
  2:{ intros Hnil. apply (f_equal length) in Hnil.
      rewrite length_map in Hnil. destruct nodes_df; [|done].
      by rewrite np_index_nil in Hirl. }
  set (mask := map negb (zip_with (fun l r => Z.eqb (edge_id l) (edge_id r))
                                  left_rows right_rows)) in *.
  destruct (rmap _ (select lp mask)) as [nearest|] eqn:Hn; [|done].
  rsimpl_in Hbr. injection Hbr as <- <-.
  pose proof (rmap_length _ _ _ Hl) as Hll.
  pose proof (rmap_length _ _ _ Hr) as Hlr.
  assert (Hlb : length bin_ind = length lp)
    by (unfold bin_ind; by rewrite length_map).
  assert (Hmask : mask !! k
                  = Some (negb (Z.eqb (edge_id rl) (edge_id rr)))).
  { assert (Hz : zip_with (fun l r => Z.eqb (edge_id l) (edge_id r))
                           left_rows right_rows !! k
                  = Some (Z.eqb (edge_id rl) (edge_id rr))).
    { apply lookup_zip_with_Some. by exists rl, rr. }
    unfold mask. by rewrite list_lookup_fmap, Hz. }
  assert (Hlm : length mask = length lp).
  { unfold mask. rewrite length_map, length_zip_with. lia. }
  destruct (put_mask_select_lookup
              (fun p => j ← np_argmin (map (fun q => Qabs (p - q))
                                           (map linear_position nodes_df));
                        Ok (Z.of_nat j))
              (map (fun i => (i - 1)%Z) bin_ind) mask lp nearest
              ltac:(rewrite length_map; lia) ltac:(rewrite length_map; lia)
              Hn k (bin_index nodes_df p - 1)%Z
              (negb (Z.eqb (edge_id rl) (edge_id rr))) p
              ltac:(by rewrite list_lookup_fmap, Hbin) Hmask Hp)
    as (a & Ha & Hcase_a).
  destruct (put_mask_select_lookup
              (fun p => j ← np_argmin (map (fun q => Qabs (p - q))
                                           (map linear_position nodes_df));
                        Ok (Z.of_nat j))
              bin_ind mask lp nearest
              ltac:(lia) ltac:(lia)
              Hn k (bin_index nodes_df p)
              (negb (Z.eqb (edge_id rl) (edge_id rr))) p Hbin Hmask Hp)
    as (b & Hb & Hcase_b).
  exists a, b. do 4 (split; [done|]).
  destruct (Z.eqb (edge_id rl) (edge_id rr)); cbn [negb] in *; [done|].
  split; [done|]. unfold nearest_index in *. congruence.
Qed.

(** The same for a call with the one query position [p]. *)
Lemma bracket_indices_single nodes_df p rl rr :
  np_index nodes_df (bin_index nodes_df p - 1)%Z = Ok rl ->
  np_index nodes_df (bin_index nodes_df p) = Ok rr ->
  bracket_indices [p] nodes_df
  = if Z.eqb (edge_id rl) (edge_id rr)
    then Ok ([(bin_index nodes_df p - 1)%Z], [bin_index nodes_df p])
    else a ← nearest_index nodes_df p; Ok ([a], [a]).
Proof.
  intros Hrl Hrr. unfold bracket_indices, nearest_index.
  cbn [map rmap]. fold (bin_index nodes_df p). rewrite Hrl, Hrr. rsimpl.
  destruct nodes_df as [|row nodes_df].
  { by rewrite np_index_nil in Hrl. }
  cbn [map zip_with].
  destruct (Z.eqb (edge_id rl) (edge_id rr)); cbn [negb select rmap]; rsimpl.
  - reflexivity.
  - by destruct (np_argmin _).
Qed.

Lemma setup_distance_single nodes_df p a b :
  bracket_indices [p] nodes_df = Ok ([a], [b]) ->
  _setup_distance [p] nodes_df
  = (l ← np_index (map node_ids nodes_df) a;
     r ← np_index (map node_ids nodes_df) b;
     x ← np_index (map linear_position nodes_df) a;
     Ok ([l], [r], [Qabs (x - p)], [Qabs (x - p)],
         map node_ids
             (sort_values_by_position
                (List.filter (fun r => negb (is_bin_edge r)) nodes_df)))).
Proof.
  intros Hbr. unfold _setup_distance. rewrite Hbr. rsimpl.
  cbn [rmap]. destruct (np_index (map node_ids nodes_df) a); rsimpl; [|done].
  destruct (np_index (map node_ids nodes_df) b); rsimpl; [|done].
  unfold residuals. cbn [rmap].
  by destruct (np_index (map linear_position nodes_df) a).
Qed.

(** X9. [_setup_distance] works entry by entry: entry [k] of each of the
    four arrays is what the call returns for the single query position
    [lp[k]], and the bin-center ids are those of that call.  (The masked
    assignment of line 58 puts each [argmin] back at the place of the
    position it was computed from.) *)
Theorem setup_distance_pointwise
    (lp : list Q) (nodes_df : list node_row)
    (lid rid : list node) (ld rd : list Q) (centers : list node)
    (k : nat) (p : Q) :
  _setup_distance lp nodes_df = Ok (lid, rid, ld, rd, centers) ->
  lp !! k = Some p ->
  exists l r d,
    lid !! k = Some l /\ rid !! k = Some r /\
    ld !! k = Some d /\ rd !! k = Some d /\
    _setup_distance [p] nodes_df = Ok ([l], [r], [d], [d], centers).
Proof.
  intros Hsetup Hp.
  apply setup_distance_Ok_inv in Hsetup
    as (li & ri & Hbr & Hlid & Hrid & Hres & -> & ->).
  destruct (bracket_indices_lookup _ _ _ _ _ _ Hbr Hp)
    as (rl & rr & a & b & Hrl & Hrr & Ha & Hb & Hcase).
  destruct (rmap_lookup_fwd _ _ _ _ _ Hlid Ha) as (l & Hl & Hla).
  destruct (rmap_lookup_fwd _ _ _ _ _ Hrid Hb) as (r & Hr & Hrb).
  unfold residuals in Hres.
  destruct (rmap (np_index (map linear_position nodes_df)) li)
    as [values|] eqn:Hvals; [|done].
  rsimpl_in Hres. injection Hres as <-.
  destruct (rmap_lookup_fwd _ _ _ _ _ Hvals Ha) as (x & Hx & Hxa).
  exists l, r, (Qabs (x - p)).
  assert (Hd : zip_with (fun x p => Qabs (x - p)) values lp !! k
               = Some (Qabs (x - p))).
  { apply lookup_zip_with_Some. by exists x, p. }
  do 4 (split; [done|]).
  rewrite (setup_distance_single nodes_df p a b).
  - by rewrite Hla, Hrb, Hxa.
  - rewrite (bracket_indices_single nodes_df p rl rr Hrl Hrr).
    destruct (Z.eqb (edge_id rl) (edge_id rr)).
    + by destruct Hcase as [-> ->].
    + destruct Hcase as [-> ->]. by rsimpl.
Qed.

Lemma setup_distance_pointwise_witness :
  exists l r d,
    [n2; n0; n1; n0] !! 1 = Some l /\ [n0; n1; n2; n1] !! 1 = Some r /\
    [10%Q; 5 # 2; 5%Q; 1%Q] !! 1 = Some d /\
    [10%Q; 5 # 2; 5%Q; 1%Q] !! 1 = Some d /\
    _setup_distance [5 # 2] path3_df = Ok ([l], [r], [d], [d], [n0; n2]).
Proof.
  apply (setup_distance_pointwise
           [0%Q; 5 # 2; 10%Q; 1%Q] path3_df
           [n2; n0; n1; n0] [n0; n1; n2; n1]
           [10%Q; 5 # 2; 5%Q; 1%Q] [10%Q; 5 # 2; 5%Q; 1%Q] [n0; n2]
           1 (5 # 2)).
  - by vm_compute.
  - reflexivity.
Defined.

(** *** The same-edge branch *)

Lemma Qltb_true_lt x y : Qltb x y = true -> (x < y)%Q.
Proof.
  unfold Qltb. intros H%negb_true_iff.
  destruct (Qlt_le_dec x y) as [Hlt|Hge]; [done|].
  apply Qle_bool_iff in Hge. congruence.
Qed.

Lemma Qltb_false_ge x y : Qltb x y = false -> (y <= x)%Q.
Proof.
  unfold Qltb. intros H%negb_false_iff. by apply Qle_bool_iff.
Qed.

Lemma searchsorted_below (a : list Q) (v : Q) (j : nat) (x : Q) :
  j < searchsorted a v -> a !! j = Some x -> (x < v)%Q.
Proof.
  revert j; induction a as [|y a IH]; intros j; simpl; [lia|].
  destruct (Qltb y v) eqn:Hy; [|lia].
  destruct j as [|j]; simpl.
  - intros _ [= <-]. by apply Qltb_true_lt.
  - intros Hj. apply IH. lia.
Qed.

Lemma searchsorted_at (a : list Q) (v : Q) (x : Q) :
  a !! searchsorted a v = Some x -> (v <= x)%Q.
Proof.
  induction a as [|y a IH]; simpl; [done|].
  destruct (Qltb y v) eqn:Hy; simpl; [done|].
  intros [= <-]. by apply Qltb_false_ge.
Qed.

Lemma np_index_nonneg {A} (a : list A) (i : Z) (x : A) :
  (0 <= i)%Z -> np_index a i = Ok x -> a !! Z.to_nat i = Some x.
Proof.
  unfold np_index. intros Hi.
  destruct (Z.ltb_spec i 0) as [?|_]; [lia|].
  destruct (_ && _); [|done].
  destruct (a !! Z.to_nat i); [by intros [= ->]|done].
Qed.

Lemma np_index_minus_one {A} (a : list A) (x : A) :
  np_index a (-1) = Ok x -> last a = Some x.
Proof.
  unfold np_index. change (-1 <? 0)%Z with true. cbv iota.
  destruct (_ && _); [|done].
  rewrite last_lookup.
  replace (Z.to_nat (-1 + Z.of_nat (length a))) with (pred (length a))
    by lia.
  destruct (a !! pred (length a)); [by intros [= ->]|done].
Qed.

(** X10. The same-edge branch of [_setup_distance], for any entry of any
    call: when the table rows just before and at the insertion index of a
    query position carry the same edge id, the brackets are the nodes of
    these two rows and both residuals are the distance to the row before.
    The row at the insertion index is not below the query position; the
    row before it is strictly below, unless the insertion index is 0:
    then the index -1 wraps around and the row before is the last row of
    the table. *)
Theorem setup_distance_same_edge_entry
    (lp : list Q) (nodes_df : list node_row)
    (lid rid : list node) (ld rd : list Q) (centers : list node)
    (k : nat) (p : Q) (rl rr : node_row) :
  _setup_distance lp nodes_df = Ok (lid, rid, ld, rd, centers) ->
  lp !! k = Some p ->
  np_index nodes_df (bin_index nodes_df p - 1)%Z = Ok rl ->
  np_index nodes_df (bin_index nodes_df p) = Ok rr ->
  edge_id rl = edge_id rr ->
  (lid !! k = Some (node_ids rl) /\ rid !! k = Some (node_ids rr) /\
   ld !! k = Some (Qabs (linear_position rl - p)) /\
   rd !! k = Some (Qabs (linear_position rl - p)))
  /\ (p <= linear_position rr)%Q
  /\ ((0 < bin_index nodes_df p)%Z -> (linear_position rl < p)%Q)
  /\ (bin_index nodes_df p = 0%Z -> last nodes_df = Some rl).
Proof.
  intros Hsetup Hp Hrl Hrr Hedge.
  apply setup_distance_Ok_inv in Hsetup
    as (li & ri & Hbr & Hlid & Hrid & Hres & -> & ->).
  destruct (bracket_indices_lookup _ _ _ _ _ _ Hbr Hp)
    as (rl' & rr' & a & b & Hrl' & Hrr' & Ha & Hb & Hcase).
  assert (rl' = rl) as -> by congruence.
  assert (rr' = rr) as -> by congruence.
  rewrite Hedge, Z.eqb_refl in Hcase. destruct Hcase as [-> ->].
  destruct (rmap_lookup_fwd _ _ _ _ _ Hlid Ha) as (l & Hl & Hla).
  destruct (rmap_lookup_fwd _ _ _ _ _ Hrid Hb) as (r & Hr & Hrb).
  rewrite (np_index_map node_ids _ _ _ Hrl) in Hla.
  rewrite (np_index_map node_ids _ _ _ Hrr) in Hrb.
  injection Hla as <-. injection Hrb as <-.
  unfold residuals in Hres.
  destruct (rmap (np_index (map linear_position nodes_df)) li)
    as [values|] eqn:Hvals; [|done].
  rsimpl_in Hres. injection Hres as <-.
  destruct (rmap_lookup_fwd _ _ _ _ _ Hvals Ha) as (x & Hx & Hxa).
  rewrite (np_index_map linear_position _ _ _ Hrl) in Hxa.
  injection Hxa as <-.
  assert (Hd : zip_with (fun x p => Qabs (x - p)) values lp !! k
               = Some (Qabs (linear_position rl - p))).
  { apply lookup_zip_with_Some. by exists (linear_position rl), p. }
  split; [done|]. unfold bin_index in *. split; [|split].
  - apply (searchsorted_at (map linear_position nodes_df)).
    apply np_index_nonneg in Hrr; [|lia].
    rewrite Nat2Z.id in Hrr. by rewrite list_lookup_fmap, Hrr.
  - intros Hpos. apply np_index_nonneg in Hrl; [|lia].
    apply (searchsorted_below (map linear_position nodes_df) p
             (Z.to_nat (Z.of_nat
                (searchsorted (map linear_position nodes_df) p) - 1))).
    + lia.
    + by rewrite list_lookup_fmap, Hrl.
  - intros Hzero. rewrite Hzero in Hrl. by apply np_index_minus_one.
Qed.

Lemma setup_distance_same_edge_entry_witness :
  ([n2; n0; n1; n0] !! 1 = Some (node_ids (NodeRow n0 0 false 0))
   /\ [n0; n1; n2; n1] !! 1 = Some (node_ids (NodeRow n1 0 true 5))
   /\ [10%Q; 5 # 2; 5%Q; 1%Q] !! 1
      = Some (Qabs (linear_position (NodeRow n0 0 false 0) - (5 # 2)))
   /\ [10%Q; 5 # 2; 5%Q; 1%Q] !! 1
      = Some (Qabs (linear_position (NodeRow n0 0 false 0) - (5 # 2))))
  /\ (5 # 2 <= linear_position (NodeRow n1 0 true 5))%Q
  /\ ((0 < bin_index path3_df (5 # 2))%Z ->
      (linear_position (NodeRow n0 0 false 0) < 5 # 2)%Q)
  /\ (bin_index path3_df (5 # 2) = 0%Z ->
      last path3_df = Some (NodeRow n0 0 false 0)).
Proof.
  apply (setup_distance_same_edge_entry
           [0%Q; 5 # 2; 10%Q; 1%Q] path3_df
           [n2; n0; n1; n0] [n0; n1; n2; n1]
           [10%Q; 5 # 2; 5%Q; 1%Q] [10%Q; 5 # 2; 5%Q; 1%Q] [n0; n2]
           1 (5 # 2) (NodeRow n0 0 false 0) (NodeRow n1 0 true 5)).
  - by vm_compute.
  - reflexivity.
  - by vm_compute.
  - by vm_compute.
  - reflexivity.
Defined.

(** *** The nearest-node branch *)

Lemma argmin_from_spec (xs : list Q) :
  forall (best_i : nat) (best : Q) (i : nat),
    (argmin_from best_i best i xs = best_i /\
     forall y, In y xs -> (best <= y)%Q)
    \/ exists k x,
         argmin_from best_i best i xs = i + k /\ xs !! k = Some x /\
         (x <= best)%Q /\ forall y, In y xs -> (x <= y)%Q.
Proof.
  induction xs as [|x xs IH]; intros best_i best i; cbn [argmin_from].
  { left. split; [done|]. by intros y []. }
  destruct (Qltb x best) eqn:Hlt.
  - apply Qltb_true_lt, Qlt_le_weak in Hlt. right.
    destruct (IH i x (S i)) as [[Hj Hmin]|(k & x' & Hj & Hk & Hle & Hmin)].
    + exists 0, x. rewrite Hj. split; [lia|]. split; [done|].
      split; [done|]. intros y [<-|Hy]; [apply Qle_refl|by apply Hmin].
    + exists (S k), x'. rewrite Hj. split; [lia|]. split; [done|].
      split; [by eapply Qle_trans|].
      intros y [<-|Hy]; [done|by apply Hmin].
  - apply Qltb_false_ge in Hlt.
    destruct (IH best_i best (S i))
      as [[Hj Hmin]|(k & x' & Hj & Hk & Hle & Hmin)].
    + left. split; [done|]. intros y [<-|Hy]; [done|by apply Hmin].
    + right. exists (S k), x'. rewrite Hj. split; [lia|]. split; [done|].
      split; [done|].
      intros y [<-|Hy]; [by eapply Qle_trans|by apply Hmin].
Qed.

(** [np.argmin] returns the index of a least entry. *)
Lemma np_argmin_spec (xs : list Q) (j : nat) :
  np_argmin xs = Ok j ->
  exists x, xs !! j = Some x /\ forall y, In y xs -> (x <= y)%Q.
Proof.
  destruct xs as [|x xs]; [done|]. cbn [np_argmin]. intros [= <-].
  destruct (argmin_from_spec xs 0 x 1)
    as [[-> Hmin]|(k & x' & -> & Hk & Hle & Hmin)].
  - exists x. split; [done|].
    intros y [<-|Hy]; [apply Qle_refl|by apply Hmin].
  - exists x'. split; [done|]. intros y [<-|Hy]; [done|by apply Hmin].
Qed.

Lemma np_index_of_nat {A} (a : list A) (j : nat) (x : A) :
  a !! j = Some x -> np_index a (Z.of_nat j) = Ok x.
Proof.
  intros Hx. pose proof (lookup_lt_Some _ _ _ Hx) as Hlt.
  unfold np_index.
  destruct (Z.ltb_spec (Z.of_nat j) 0) as [?|_]; [lia|].
  rewrite (proj2 (andb_true_iff _ _)) by (split; lia).
  by rewrite Nat2Z.id, Hx.
Qed.

(** X11. The nearest-node branch of [_setup_distance], for any entry of
    any call: when the table rows just before and at the insertion index
    of a query position carry different edge ids, both brackets are one
    node of the table, a node whose linear position is nearest to the
    query position among all rows, and both residuals are the distance to
    that node. *)
Theorem setup_distance_nearest_node_entry
    (lp : list Q) (nodes_df : list node_row)
    (lid rid : list node) (ld rd : list Q) (centers : list node)
    (k : nat) (p : Q) (rl rr : node_row) :
  _setup_distance lp nodes_df = Ok (lid, rid, ld, rd, centers) ->
  lp !! k = Some p ->
  np_index nodes_df (bin_index nodes_df p - 1)%Z = Ok rl ->
  np_index nodes_df (bin_index nodes_df p) = Ok rr ->
  edge_id rl <> edge_id rr ->
  exists rn,
    In rn nodes_df /\
    (forall r, In r nodes_df ->
       (Qabs (p - linear_position rn) <= Qabs (p - linear_position r))%Q) /\
    lid !! k = Some (node_ids rn) /\ rid !! k = Some (node_ids rn) /\
    ld !! k = Some (Qabs (linear_position rn - p)) /\
    rd !! k = Some (Qabs (linear_position rn - p)).
Proof.
  intros Hsetup Hp Hrl Hrr Hedge.
  apply setup_distance_Ok_inv in Hsetup
    as (li & ri & Hbr & Hlid & Hrid & Hres & -> & ->).
  destruct (bracket_indices_lookup _ _ _ _ _ _ Hbr Hp)
    as (rl' & rr' & a & b & Hrl' & Hrr' & Ha & Hb & Hcase).
  assert (rl' = rl) as -> by congruence.
  assert (rr' = rr) as -> by congruence.
  apply Z.eqb_neq in Hedge. rewrite Hedge in Hcase.
  destruct Hcase as [Hnear ->].
  unfold nearest_index in Hnear.
  destruct (np_argmin _) as [j|] eqn:Hj; [|done].
  rsimpl_in Hnear. injection Hnear as <-.
  apply np_argmin_spec in Hj as (m & Hm & Hmin).
  rewrite !list_lookup_fmap in Hm.
  destruct (nodes_df !! j) as [rn|] eqn:Hrn; [|done].
  injection Hm as <-.
  exists rn. split; [by eapply list_elem_of_In, list_elem_of_lookup_2|].
  split.
  { intros r Hr. apply Hmin. apply in_map_iff.
    exists (linear_position r). split; [done|]. by apply in_map. }
  destruct (rmap_lookup_fwd _ _ _ _ _ Hlid Ha) as (l & Hl & Hla).
  destruct (rmap_lookup_fwd _ _ _ _ _ Hrid Hb) as (r & Hr & Hrb).
  pose proof (np_index_of_nat nodes_df j rn Hrn) as Hidx.
  rewrite (np_index_map node_ids _ _ _ Hidx) in Hla, Hrb.
  injection Hla as <-. injection Hrb as <-.
  unfold residuals in Hres.
  destruct (rmap (np_index (map linear_position nodes_df)) li)
    as [values|] eqn:Hvals; [|done].
  rsimpl_in Hres. injection Hres as <-.
  destruct (rmap_lookup_fwd _ _ _ _ _ Hvals Ha) as (x & Hx & Hxa).
  rewrite (np_index_map linear_position _ _ _ Hidx) in Hxa.
  injection Hxa as <-.
  assert (Hd : zip_with (fun x p => Qabs (x - p)) values lp !! k
               = Some (Qabs (linear_position rn - p))).
  { apply lookup_zip_with_Some. by exists (linear_position rn), p. }
  done.
Qed.

Lemma setup_distance_nearest_node_entry_witness :
  exists rn,
    In rn split3_df /\
    (forall r, In r split3_df ->
       (Qabs (6 - linear_position rn) <= Qabs (6 - linear_position r))%Q) /\
    [n1] !! 0 = Some (node_ids rn) /\ [n1] !! 0 = Some (node_ids rn) /\
    [1%Q] !! 0 = Some (Qabs (linear_position rn - 6)) /\
    [1%Q] !! 0 = Some (Qabs (linear_position rn - 6)).
Proof.
  apply (setup_distance_nearest_node_entry
           [6%Q] split3_df [n1] [n1] [1%Q] [1%Q] [n0; n1; n2]
           0 6%Q (NodeRow n1 0 false 5) (NodeRow n2 1 false 10)).
  - by vm_compute.
  - reflexivity.
  - by vm_compute.
  - by vm_compute.
  - discriminate.
Defined.

End BracketProps.

(** ** The batches *)

Module BatchProps.
Import TrackGraph.

Lemma batch_from_closed_form n bs :
  0 < bs ->
  forall fuel ind,
    n - ind <= fuel ->
    batch_from fuel ind n bs
    = map (fun i => (ind + i * bs, Nat.min (ind + i * bs + bs) n))
          (seq 0 ((n - ind + bs - 1) / bs)).
Proof.
  intros Hbs. induction fuel as [|fuel IH]; intros ind Hfuel.
  - replace (n - ind + bs - 1) with (bs - 1) by lia.
    by rewrite Nat.div_small by lia.
  - cbn [batch_from]. destruct (Nat.ltb_spec ind n) as [Hlt|Hge].
    + rewrite IH by lia.
      assert (Hdiv : (n - ind + bs - 1) / bs
                     = S ((n - (ind + bs) + bs - 1) / bs)).
      { replace (n - ind + bs - 1) with ((n - ind - 1) + 1 * bs) by lia.
        rewrite Nat.div_add by lia.
        destruct (Nat.le_gt_cases bs (n - ind)) as [Hle|Hgt].
        - replace (n - (ind + bs) + bs - 1) with (n - ind - 1) by lia. lia.
        - replace (n - (ind + bs) + bs - 1) with (bs - 1) by lia.
          rewrite !Nat.div_small by lia. lia. }
      rewrite Hdiv. cbn [seq map]. f_equal.
      { f_equal; lia. }
      rewrite <- seq_shift, map_map. apply map_ext. intros i.
      f_equal; [|f_equal]; simpl; lia.
    + replace (n - ind + bs - 1) with (bs - 1) by lia.
      by rewrite Nat.div_small by lia.
Qed.

(** X12. The ranges that [batch] yields, in closed form: for a positive
    batch size there are [ceil(n_samples / batch_size)] of them, and range
    number [i] (from 0) runs from [i * batch_size] up to, not including,
    [min((i + 1) * batch_size, n_samples)].  So every range is non-empty,
    each but the last holds [batch_size] indices, and range follows
    range without gap or overlap. *)
Theorem batch_closed_form (n_samples batch_size : nat) :
  0 < batch_size ->
  batch n_samples batch_size
  = Ok (map (fun i => (i * batch_size,
                       Nat.min (i * batch_size + batch_size) n_samples))
            (seq 0 ((n_samples + batch_size - 1) / batch_size)))
  /\ forall ranges i rg,
       batch n_samples batch_size = Ok ranges ->
       ranges !! i = Some rg ->
       rg.1 = i * batch_size /\ rg.1 < rg.2 <= n_samples /\
       rg.2 - rg.1 <= batch_size /\
       (S i < length ranges -> rg.2 - rg.1 = batch_size).
Proof.
  intros Hbs.
  assert (Hclosed : batch n_samples batch_size
            = Ok (map (fun i => (i * batch_size,
                                 Nat.min (i * batch_size + batch_size)
                                         n_samples))
                      (seq 0 ((n_samples + batch_size - 1) / batch_size)))).
  { unfold batch. destruct (Nat.eqb_spec batch_size 0) as [?|_]; [lia|].
    rewrite (batch_from_closed_form n_samples batch_size Hbs) by lia.
    by rewrite Nat.sub_0_r. }
  split; [done|]. intros ranges i rg. rewrite Hclosed. intros [= <-].
  rewrite length_map, length_seq, list_lookup_fmap.
  set (m := (n_samples + batch_size - 1) / batch_size).
  destruct (seq 0 m !! i) as [j|] eqn:Hj; [|done].
  apply lookup_seq in Hj as [-> Hi]. cbn [fmap option_fmap option_map].
  intros [= <-]. cbn [fst snd plus].
  assert (Hm : forall k, k < m -> k * batch_size < n_samples).
  { intros k Hk. unfold m in Hk.
    assert (Hle : S k <= (n_samples + batch_size - 1) / batch_size) by lia.
    apply (Nat.mul_le_mono_r _ _ batch_size) in Hle.
    pose proof (Nat.Div0.mul_div_le (n_samples + batch_size - 1) batch_size)
      as Hdiv.
    rewrite (Nat.mul_comm batch_size) in Hdiv. simpl in Hle. lia. }
  pose proof (Hm i Hi) as Hlt.
  split; [done|]. split; [lia|]. split; [lia|].
  intros HS. specialize (Hm (S i) HS). simpl in Hm. lia.
Qed.

Lemma batch_closed_form_witness :
  batch 5 2
  = Ok (map (fun i => (i * 2, Nat.min (i * 2 + 2) 5))
            (seq 0 ((5 + 2 - 1) / 2)))
  /\ forall ranges i rg,
       batch 5 2 = Ok ranges ->
       ranges !! i = Some rg ->
       rg.1 = i * 2 /\ rg.1 < rg.2 <= 5 /\
       rg.2 - rg.1 <= 2 /\
       (S i < length ranges -> rg.2 - rg.1 = 2).
Proof.
  apply (batch_closed_form 5 2). lia.
Defined.

End BatchProps.

(** ** More on the multiunit KDE *)

Module KDEMoreProps.
Import KDE KDESpec KDEProps.
Local Open Scope R_scope.

Lemma get2_finite n a j k :
  get2 (finite_array n a) j k = Fin (nth k (nth j a []) 0).
Proof.
  unfold get2, finite_array. cbn [rows].
  change (@nil float) with (map Fin []).
  by rewrite (map_nth (map Fin)), (map_nth Fin).
Qed.

(** *** Non-zero bandwidths *)

Lemma fdiv_nonzero em a b : b <> Fin 0 -> exists c, fdiv em a b = Ok c.
Proof.
  intros Hb. unfold fdiv. destruct b as [y| | |]; try by eexists.
  destruct (Req_dec_T y 0) as [-> | _]; [done|by eexists].
Qed.

Lemma fmul_SQRT_2PI_nonzero b : b <> Fin 0 -> fmul b (Fin SQRT_2PI) <> Fin 0.
Proof.
  pose proof SQRT_2PI_pos as Hs.
  intros Hb. destruct b as [y| | |]; cbn [fmul].
  - intros [= H]. apply Hb. f_equal.
    apply Rmult_integral in H as [H|H]; [done|lra].
  - destruct (sign_inf_cases SQRT_2PI) as [-> | [-> | ->]]; done.
  - destruct (sign_inf_cases SQRT_2PI) as [-> | [-> | ->]]; done.
  - done.
Qed.

Lemma kernel_factor_nonzero em e s b :
  b <> Fin 0 -> exists f, kernel_factor em e s b = Ok f.
Proof.
  intros Hb. unfold kernel_factor.
  destruct (fdiv_nonzero em (fsub e s) b Hb) as [u ->]. rsimpl.
  destruct (fdiv_nonzero em (fexp (fmul (Fin (-0.5)) (fmul u u)))
              (fmul b (Fin SQRT_2PI)) (fmul_SQRT_2PI_nonzero b Hb))
    as [t ->]. rsimpl.
  by apply fdiv_nonzero.
Qed.

Lemma channel_loop_nonzero em (x : list float) (samples : ndarray2)
    (b : list float) (j : nat) (ks : list nat) (acc : float) :
  (forall k, In k ks -> get1 b k <> Fin 0) ->
  exists p,
    rfoldl (fun product_kernel_j k =>
              f ← kernel_factor em (get1 x k) (get2 samples j k) (get1 b k);
              Ok (fmul product_kernel_j f)) acc ks
    = Ok p.
Proof.
  revert acc; induction ks as [|k ks IH]; intros acc Hb; cbn [rfoldl].
  - by eexists.
  - destruct (kernel_factor_nonzero em (get1 x k) (get2 samples j k)
                (get1 b k)) as [f ->]; [apply Hb; by left|].
    rsimpl. apply IH. intros k' Hk'. apply Hb. by right.
Qed.

(** X13. With every bandwidth other than zero, [numba_product] raises
    nothing and returns one entry for each training row, under either
    error model and for all floats, the infinities and NaN included: the
    only divisors are the bandwidth and [bandwidth * SQRT_2PI], and the
    second is zero only if the first is. *)
Theorem numba_product_nonzero_bandwidths_returns
    (em : error_model) (x : list float) (samples : ndarray2)
    (b : list float) :
  (forall k, (k < n_cols samples)%nat -> get1 b k <> Fin 0) ->
  exists ps,
    numba_product em x samples b = Ok ps /\ length ps = shape0 samples.
Proof.
  intros Hb. unfold numba_product.
  destruct (rmap_all_Ok
              (fun j =>
                 rfoldl (fun product_kernel_j k =>
                           f ← kernel_factor em (get1 x k)
                                             (get2 samples j k) (get1 b k);
                           Ok (fmul product_kernel_j f))
                        (Fin 1) (seq 0 (n_cols samples)))
              (seq 0 (shape0 samples)) (fun _ => True)) as (ps & Hps & _).
  { intros j _.
    destruct (channel_loop_nonzero em x samples b j (seq 0 (n_cols samples))
                (Fin 1)) as [p Hp].
    - intros k Hk. apply in_seq in Hk. apply Hb. lia.
    - by exists p. }
  exists ps. split; [done|].
  by rewrite (rmap_length _ _ _ Hps), length_seq.
Qed.

Lemma numba_product_nonzero_bandwidths_returns_witness :
  exists ps,
    numba_product python_model [Fin 0; NaN]
                  (Array2 2 [[Fin 3; Fin 4]; [PInf; Fin 1]]) [Fin 5; Fin (-2)]
    = Ok ps /\
    length ps = shape0 (Array2 2 [[Fin 3; Fin 4]; [PInf; Fin 1]]).
Proof.
  apply (numba_product_nonzero_bandwidths_returns
           python_model [Fin 0; NaN]
           (Array2 2 [[Fin 3; Fin 4]; [PInf; Fin 1]]) [Fin 5; Fin (-2)]).
  intros [|[|k]] Hk; simpl.
  - intros [= H]. lra.
  - intros [= H]. lra.
  - simpl in Hk. lia.
Defined.

Lemma kernel_factor_abs em e s b :
  kernel_factor em (Fin e) (Fin s) (Fin (Rabs b))
  = kernel_factor em (Fin e) (Fin s) (Fin b).
Proof.
  unfold Rabs. destruct (Rcase_abs b) as [Hneg|_]; [|done].
  rewrite !kernel_factor_finite by lra.
  pose proof SQRT_2PI_pos as Hs.
  replace ((e + - s) / - b * ((e + - s) / - b))
    with ((e + - s) / b * ((e + - s) / b)) by (field; lra).
  do 2 f_equal. field. split; lra.
Qed.

(** X14. On finite numbers [numba_product] depends on the bandwidths only
    through their absolute values: a negative bandwidth is accepted and
    gives what its absolute value gives (the bandwidth enters squared and,
    in the normalisation, twice as a divisor). *)
Theorem numba_product_bandwidth_sign
    (em : error_model) (n : nat) (x b : list R) (a : list (list R)) :
  numba_product em (map Fin x) (finite_array n a) (map Fin (map Rabs b))
  = numba_product em (map Fin x) (finite_array n a) (map Fin b).
Proof.
  unfold numba_product. apply rmap_ext. intros j _.
  apply rfoldl_ext. intros acc k.
  rewrite !get1_map_Fin, get2_finite.
  replace (nth k (map Rabs b) 0) with (Rabs (nth k b 0)).
  - by rewrite kernel_factor_abs.
  - rewrite <- (map_nth Rabs). by rewrite Rabs_R0.
Qed.

(** *** The mask and the shape of the result *)

Lemma count_true_le mask : (count_true mask <= length mask)%nat.
Proof.
  unfold count_true. induction mask as [|[] mask IH]; simpl; lia.
Qed.

Lemma count_true_all mask :
  count_true mask = length mask -> mask = repeat true (length mask).
Proof.
  induction mask as [|m mask IH]; [done|].
  pose proof (count_true_le mask) as Hle. unfold count_true in *.
  destruct m; simpl in *.
  - intros H. f_equal. apply IH. lia.
  - lia.
Qed.

Lemma length_scatter row mask values :
  length (scatter row mask values) = length row.
Proof.
  revert mask values; induction row as [|x row IH]; intros mask values;
    [done|].
  destruct mask as [|[] mask]; simpl; [done| |by rewrite IH].
  destruct values; simpl; by rewrite IH.
Qed.

Lemma mask_assign_length row mask values out :
  mask_assign row mask values = Ok out -> length out = length row.
Proof.
  unfold mask_assign. destruct (negb _); [done|].
  destruct (Nat.eqb _ _).
  - intros [= <-]. apply length_scatter.
  - destruct values as [|v [|]]; try done. intros [= <-].
    apply length_scatter.
Qed.

Lemma matmul_length v m out :
  matmul v m = Ok out -> length out = n_cols m.
Proof.
  unfold matmul. destruct (Nat.eqb _ _); [|done]. intros [= <-].
  by rewrite length_map, length_seq.
Qed.

(** What one iteration of the loop of [get_kde] needs of the mask. *)
Lemma kde_row_mask em test_row train mask b gtd out :
  (pk ← numba_product em test_row train b;
   values ← matmul pk gtd;
   mask_assign (repeat (Fin 0) (n_cols gtd)) mask values) = Ok out ->
  length out = n_cols gtd /\
  (n_cols gtd <> 1%nat -> mask = repeat true (n_cols gtd)).
Proof.
  destruct (numba_product em test_row train b) as [pk|]; [|done]. rsimpl.
  destruct (matmul pk gtd) as [values|] eqn:Hv; [|done]. rsimpl.
  apply matmul_length in Hv. intros Hassign.
  split.
  { apply mask_assign_length in Hassign. by rewrite repeat_length in Hassign. }
  intros Hbins. unfold mask_assign in Hassign.
  rewrite repeat_length in Hassign.
  destruct (Nat.eqb_spec (length mask) (n_cols gtd)) as [Hlen|]; [|done].
  cbn [negb] in Hassign.
  destruct (Nat.eqb_spec (length values) (count_true mask)) as [Hcount|_].
  - rewrite <- Hlen. apply count_true_all. lia.
  - destruct values as [|v [|]]; [done| |done]. simpl in Hv. lia.
Qed.

(** X15. [get_kde] returns only when every bin is marked interior.  The
    row assigned to the masked places, [numba_product(...) @
    gaussian_track_distances], has one value for every bin, so with at
    least one test row and a number of bins other than one, a call that
    returns has a mask of exactly [n_bins] entries, all of them true; any
    other mask raises ([IndexError] for a wrong length, [ValueError] for a
    false entry). *)
Theorem get_kde_requires_every_bin_interior
    (em : error_model) (test train : ndarray2) (mask : list bool)
    (b : list float) (gtd kde : ndarray2) :
  get_kde em test train mask b gtd = Ok kde ->
  rows test <> [] ->
  n_cols gtd <> 1%nat ->
  mask = repeat true (n_cols gtd).
Proof.
  unfold get_kde. intros Hkde Hne Hbins.
  destruct (rmap _ (rows test)) as [out|] eqn:Hmap; [|done].
  destruct (rows test) as [|test_row test_rows]; [done|].
  cbn [rmap] in Hmap.
  match type of Hmap with
  | match ?r with _ => _ end = _ => destruct r as [row|] eqn:Hrow; [|done]
  end.
  by apply kde_row_mask in Hrow as [_ Hmask]; apply Hmask.
Qed.

Lemma get_kde_requires_every_bin_interior_witness :
  [true; true] = repeat true (n_cols (Array2 2 [[Fin 1; Fin 2]])).
Proof.
  apply (get_kde_requires_every_bin_interior
           python_model (Array2 1 [[Fin 0]]) (Array2 1 [[Fin 0]])
           [true; true] [Fin 2] (Array2 2 [[Fin 1; Fin 2]])
           (Array2 2 [[Fin (prod_list (map code_peak [2]) * 1);
                       Fin (prod_list (map code_peak [2]) * 2)]])).
  - apply (get_kde_identical_single_row python_model [0] [2] [1; 2]).
    + reflexivity.
    + constructor; [lra|constructor].
  - discriminate.
  - discriminate.
Defined.

(** X16. The shape of what [get_kde] returns: one row for each test row,
    and in each row one entry for each column of
    [gaussian_track_distances]. *)
Theorem get_kde_shape
    (em : error_model) (test train : ndarray2) (mask : list bool)
    (b : list float) (gtd kde : ndarray2) :
  get_kde em test train mask b gtd = Ok kde ->
  n_cols kde = n_cols gtd /\
  shape0 kde = shape0 test /\
  Forall (fun row => length row = n_cols gtd) (rows kde).
Proof.
  unfold get_kde. intros Hkde.
  destruct (rmap _ (rows test)) as [out|] eqn:Hmap; [|done].
  rsimpl_in Hkde. injection Hkde as <-. cbn [n_cols rows shape0].
  split; [done|]. split; [by eapply rmap_length|].
  apply Forall_lookup. intros i row Hi.
  destruct (SetupProps.rmap_lookup _ _ _ _ _ Hmap Hi) as (test_row & _ & Hrow).
  by apply kde_row_mask in Hrow as [Hlen _].
Qed.

Lemma get_kde_shape_witness :
  n_cols (Array2 2 [[Fin (prod_list (map code_peak [2]) * 1);
                     Fin (prod_list (map code_peak [2]) * 2)]])
  = n_cols (Array2 2 [[Fin 1; Fin 2]]) /\
  shape0 (Array2 2 [[Fin (prod_list (map code_peak [2]) * 1);
                     Fin (prod_list (map code_peak [2]) * 2)]])
  = shape0 (Array2 1 [[Fin 0]]) /\
  Forall (fun row => length row = n_cols (Array2 2 [[Fin 1; Fin 2]]))
         (rows (Array2 2 [[Fin (prod_list (map code_peak [2]) * 1);
                           Fin (prod_list (map code_peak [2]) * 2)]])).
Proof.
  apply (get_kde_shape
           python_model (Array2 1 [[Fin 0]]) (Array2 1 [[Fin 0]])
           [true; true] [Fin 2] (Array2 2 [[Fin 1; Fin 2]])).
  apply (get_kde_identical_single_row python_model [0] [2] [1; 2]).
  - reflexivity.
  - constructor; [lra|constructor].
Defined.

(** X17. With no training row (and a spatial kernel with no row) the
    density is zero in every bin of every test row, whatever the
    bandwidths, zero included, and the error model: no channel is visited,
    and nothing is divided by the number of training rows. *)
Theorem get_kde_no_training_row
    (em : error_model) (test train : ndarray2) (b : list float) (n_bins : nat) :
  rows train = [] ->
  get_kde em test train (repeat true n_bins) b (Array2 n_bins [])
  = Ok (Array2 n_bins (repeat (repeat (Fin 0) n_bins) (shape0 test))).
Proof.
  intros Htrain. unfold get_kde. cbn [n_cols].
  rewrite (rmap_const (repeat (Fin 0) n_bins)); [done|].
  intros test_row. unfold numba_product, shape0. rewrite Htrain.
  cbn [length seq rmap]. rsimpl.
  unfold matmul, shape0. cbn [rows length Nat.eqb n_cols]. rsimpl.
  assert (Hzeros : map (fun b0 => dot [] (column (Array2 n_bins []) b0))
                       (seq 0 n_bins)
                   = repeat (Fin 0) n_bins).
  { assert (Hks : forall ks : list nat,
               map (fun b0 => dot [] (column (Array2 n_bins []) b0)) ks
               = repeat (Fin 0) (length ks)).
    { induction ks as [|k ks IH]; simpl; [done|by rewrite IH]. }
    by rewrite Hks, length_seq. }
  rewrite Hzeros.
  pose proof (mask_assign_all_true (repeat (Fin 0) n_bins)) as Hassign.
  by rewrite repeat_length in Hassign.
Qed.

Lemma get_kde_no_training_row_witness :
  get_kde python_model (Array2 1 [[Fin 0]]) (Array2 1 []) (repeat true 2)
          [Fin 0] (Array2 2 [])
  = Ok (Array2 2 (repeat (repeat (Fin 0) 2) (shape0 (Array2 1 [[Fin 0]])))).
Proof.
  apply (get_kde_no_training_row
           python_model (Array2 1 [[Fin 0]]) (Array2 1 []) [Fin 0] 2).
  reflexivity.
Defined.

End KDEMoreProps.

(** ** More on [scaled_likelihood] *)

Module CoreMoreProps.
Import Core CoreProps.
Local Open Scope R_scope.

Lemma In_ravel (a : ndarray) (row : list R) (x : R) :
  In row a -> In x row -> In x (ravel a).
Proof.
  intros Hrow Hx. unfold ravel. apply in_concat. by exists row.
Qed.

(** X18. Every entry of the array that a [scaled_likelihood]-decorated
    function returns lies between 0 and 1, both included, and the result
    has the shape of the log likelihood.  (Of a real number [exp] is never
    0; the bound 0 is stated because [np.exp] of a float can be.) *)
Theorem scaled_likelihood_values_between_zero_and_one {Args : Type}
    (f : Args -> result ndarray) (args : Args) (out : ndarray) :
  scaled_likelihood f args = Ok out ->
  Forall (Forall (fun x => 0 <= x <= 1)) out
  /\ exists ll, f args = Ok ll /\ map (@length R) out = map (@length R) ll.
Proof.
  unfold scaled_likelihood. destruct (f args) as [ll|]; [|done].
  unfold np_max. destruct (ravel ll) as [|x xs] eqn:Hr; [done|].
  intros [= <-]. split.
  - unfold np_exp, np_sub_scalar. rewrite map_map.
    apply Forall_forall. intros row' Hrow'.
    apply list_elem_of_In, in_map_iff in Hrow' as (row & <- & Hrow).
    rewrite map_map. apply Forall_forall. intros y' Hy'.
    apply list_elem_of_In, in_map_iff in Hy' as (y & <- & Hy).
    split; [left; apply exp_pos|].
    pose proof (In_ravel ll row y Hrow Hy) as Hin. rewrite Hr in Hin.
    assert (Hle : y <= max_from x xs).
    { apply max_from_upper. destruct Hin as [->|Hin]; [by left|by right]. }
    rewrite <- exp_0.
    destruct (Req_dec (y - max_from x xs) 0) as [->|Hne]; [lra|].
    left. apply exp_increasing. lra.
  - exists ll. split; [done|].
    unfold np_exp, np_sub_scalar. rewrite !map_map.
    apply map_ext. intros row. by rewrite !length_map.
Qed.

Lemma scaled_likelihood_values_between_zero_and_one_witness :
  Forall (Forall (fun x => 0 <= x <= 1))
         (np_exp (np_sub_scalar [[0; -1]; [2; 1]] (max_from 0 [-1; 2; 1])))
  /\ exists ll,
       (fun _ : unit => Ok [[0; -1]; [2; 1]]) tt = Ok ll /\
       map (@length R)
           (np_exp (np_sub_scalar [[0; -1]; [2; 1]] (max_from 0 [-1; 2; 1])))
       = map (@length R) ll.
Proof.
  apply (scaled_likelihood_values_between_zero_and_one
           (fun _ : unit => Ok [[0; -1]; [2; 1]]) tt).
  reflexivity.
Defined.

(** X20. When the decorated function fails: exactly when the wrapped
    function raises (the exception passes through), or returns an array
    with no entry, for which [np.max] raises [ValueError]. *)
Theorem scaled_likelihood_raises_iff {Args : Type}
    (f : Args -> result ndarray) (args : Args) (e : exn) :
  scaled_likelihood f args = Raise e <->
  f args = Raise e
  \/ (e = ValueError /\ exists ll, f args = Ok ll /\ ravel ll = []).
Proof.
  unfold scaled_likelihood, np_max. destruct (f args) as [ll|e'].
  - destruct (ravel ll) as [|x xs] eqn:Hr.
    + split.
      * intros [= <-]. right. split; [done|]. by exists ll.
      * intros [?|[-> _]]; done.
    + split; [done|]. intros [?|(_ & ll' & [= <-] & Hnil)]; [done|].
      congruence.
  - split.
    + intros [= <-]. by left.
    + intros [[= <-]|(_ & ll & ? & _)]; done.
Qed.

End CoreMoreProps.

(** ** [combined_likelihood] *)

Module CombinedProps.
Import Combined.
Local Open Scope R_scope.


End CombinedProps.
